(** * npm import resolver and cache (src/npm.ts): a shallow embedding

    - JavaScript strings are sequences of UTF-16 code units and are modelled
      as lists of code units ([N]); an optional field ([range?: string]) is
      an [option], [None] being [undefined].
    - The functions of npm.ts are translated one by one.  What they use from
      outside the file (the parser and the tree walker, the text-splice
      utility, path and semver functions, the file system, the network) is
      either modelled from its description or taken from a record of
      collaborators, [Externals].
    - The module-level variables ([npmRequests], [npmVersionCache],
      [npmVersionRequests]), the disk and a log of the effects make up an
      explicit [State].  Progress messages written to standard output are
      left out.
    - An async function is cut at its suspension points: the part that runs
      until the caller holds a promise ([populateNpmCache_call],
      [resolveNpmVersion_call]) and the part that runs when the response is
      there ([populateNpmCache_settle], [resolveNpmVersion_settle]).  A run
      of the process is an interleaving of such steps. *)

From Stdlib Require Import NArith ZArith Lia String Ascii.
From stdpp Require Import base list gmap sorting.

Local Open Scope N_scope.
Local Open Scope nat_scope.

(** ** JavaScript strings *)

Module Js.

Abbreviation jsstring := (list N).

(** A source-level string constant, as its code units. *)
Definition str (s : string) : jsstring :=
  map (fun a => N_of_ascii a) (list_ascii_of_string s).

Definition slash : N := 47%N.
Definition at_sign : N := 64%N.

(** [a === b] on strings. *)
Definition eqs (a b : jsstring) : bool := bool_decide (a = b).

(** [s.startsWith(p)]. *)
Fixpoint startsWith (p s : jsstring) : bool :=
  match p, s with
  | [], _ => true
  | _ :: _, [] => false
  | a :: p', b :: s' => N.eqb a b && startsWith p' s'
  end.

(** [s.endsWith(p)]. *)
Definition endsWith (p s : jsstring) : bool :=
  startsWith (rev p) (rev s).

(** [s.split(sep)] for a one-unit separator: never the empty array. *)
Fixpoint split (sep : N) (s : jsstring) : list jsstring :=
  match s with
  | [] => [[]]
  | c :: s' =>
      if N.eqb c sep then [] :: split sep s'
      else match split sep s' with
           | [] => [[c]]
           | p :: ps => (c :: p) :: ps
           end
  end.

(** [parts.join(sep)]. *)
Fixpoint join (sep : N) (parts : list jsstring) : jsstring :=
  match parts with
  | [] => []
  | [p] => p
  | p :: ps => p ++ sep :: join sep ps
  end.

(** Offset of the first [c] in [s], if any. *)
Fixpoint find_unit (c : N) (s : jsstring) : option nat :=
  match s with
  | [] => None
  | d :: s' => if N.eqb d c then Some 0 else S <$> find_unit c s'
  end.

(** [s.indexOf(c, from)]: the index of the first [c] at or after [from],
    or [-1]. *)
Definition indexOf (c : N) (from : nat) (s : jsstring) : Z :=
  match find_unit c (drop from s) with
  | Some k => Z.of_nat (from + k)
  | None => (-1)%Z
  end.

(** [s.slice(i, j)] and [s.slice(i)] for indices within [0, length]. *)
Definition slice (i j : nat) (s : jsstring) : jsstring := take (j - i) (drop i s).
Definition sliceFrom (i : nat) (s : jsstring) : jsstring := drop i s.

(** A template hole [${x}] holding a possibly undefined string. *)
Definition template (x : option jsstring) : jsstring :=
  match x with
  | Some s => s
  | None => str "undefined"
  end.

(** Truthiness of a possibly undefined string. *)
Definition truthy (x : option jsstring) : bool :=
  match x with
  | Some (_ :: _) => true
  | _ => false
  end.

End Js.

Import Js.

(** ** Specifiers: [parseNpmSpecifier] and [formatNpmSpecifier] *)

Record NpmSpecifier := mkSpecifier {
  name : jsstring;
  range : option jsstring;
  path : option jsstring
}.

(** [parts.shift()]: the removed head ([undefined] on the empty array) and
    the remaining array. *)
Definition shift (parts : list jsstring) : option jsstring * list jsstring :=
  match parts with
  | [] => (None, [])
  | p :: ps => (Some p, ps)
  end.

(** [[a, b].join("/")]: an undefined element is joined as the empty
    string. *)
Definition join2 (a b : option jsstring) : jsstring :=
  default [] a ++ slash :: default [] b.

Definition parseNpmSpecifier (specifier : jsstring) : NpmSpecifier :=
  let parts := split slash specifier in
  let '(namerange, parts) :=
    if startsWith (str "@") specifier
    then let '(a, parts1) := shift parts in
         let '(b, parts2) := shift parts1 in
         (join2 a b, parts2)
    else let '(a, parts1) := shift parts in
         (default [] a, parts1) in
  let ranged := indexOf at_sign 1 namerange in
  {| name := if (0 <? ranged)%Z then slice 0 (Z.to_nat ranged) namerange else namerange;
     range := if (0 <? ranged)%Z then Some (sliceFrom (Z.to_nat ranged + 1) namerange) else None;
     path := if (0 <? length parts) then Some (join slash parts) else None |}.

Definition formatNpmSpecifier (s : NpmSpecifier) : jsstring :=
  name s
  ++ (if truthy (range s) then at_sign :: template (range s) else [])
  ++ (if truthy (path s) then slash :: template (path s) else []).

(** ** Errors and results *)

Inductive Error :=
| SyntaxError                       (* raised by [parseProgram] *)
| SystemError (code : jsstring)     (* a file-system error with its [code] *)
| TypeError                         (* raised by the semver library on a non-version *)
| ErrorMsg (message : jsstring).    (* [new Error(message)] *)

Inductive Result (A : Type) :=
| Ok (a : A)
| Throw (e : Error).
Arguments Ok {A} a.
Arguments Throw {A} e.

(** ** Syntax trees, as the rewriting callbacks see them *)

(** A node for which [isStringLiteral] holds: its source range and the
    value [getStringLiteralValue] returns. *)
Record StringLiteral := mkLiteral {
  lit_start : nat;
  lit_end : nat;
  lit_value : jsstring
}.

Inductive Expression :=
| StringLit (l : StringLiteral)
| OtherExpression.

(** Modelled from the spec: the parser and the traversal are external
    collaborators (javascript/parse.js, javascript/imports.js and acorn-walk
    are not part of this file).  A node records its kind and what the
    callbacks read: the [source] of an import or export node, and for a call
    whether [isImportMetaResolve] holds, with its [arguments]. *)
Inductive Node :=
| ImportDeclaration (source : Expression)
| ImportExpression (source : Expression)
| ExportAllDeclaration (source : Expression)
| ExportNamedDeclaration (source : option Expression)
| CallExpression (importMetaResolve : bool) (arguments : list Expression)
| OtherNode.

(** The nodes of a program in the order [simple] visits them. *)
Abbreviation Program := (list Node).

(** [isStringLiteral(e)], giving the literal when it holds. *)
Definition isStringLiteral (e : option Expression) : option StringLiteral :=
  match e with
  | Some (StringLit l) => Some l
  | _ => None
  end.

(** ** Sourcemap: the text-splice utility *)

Record Edit := mkEdit {
  edit_start : nat;
  edit_end : nat;
  edit_value : jsstring
}.

Record Sourcemap := mkSourcemap {
  sm_input : jsstring;
  sm_edits : list Edit
}.

Definition newSourcemap (input : jsstring) : Sourcemap :=
  {| sm_input := input; sm_edits := [] |}.

(** Modelled from the spec: sourcemap.js is not part of this file; it is
    "an ordered list of explicit (startOffset, endOffset, replacementText)
    edits applied as a single pass over the original text".  A new edit is
    placed before the first recorded edit that does not start earlier. *)
Fixpoint insertEdit (e : Edit) (edits : list Edit) : list Edit :=
  match edits with
  | [] => [e]
  | e' :: rest =>
      if edit_start e' <? edit_start e then e' :: insertEdit e rest
      else e :: edits
  end.

Definition replaceLeft (start end_ : nat) (value : jsstring) (sm : Sourcemap) : Sourcemap :=
  {| sm_input := sm_input sm;
     sm_edits := insertEdit (mkEdit start end_ value) (sm_edits sm) |}.

(** Modelled from the spec: the single pass of [String(output)], copying
    the input between edits and the replacement text at each edit. *)
Fixpoint applyEdits (input : jsstring) (index : nat) (edits : list Edit) : jsstring :=
  match edits with
  | [] => sliceFrom index input
  | e :: rest =>
      (if index <? edit_start e then slice index (edit_start e) input else [])
      ++ edit_value e ++ applyEdits input (edit_end e) rest
  end.

Definition sourcemapToString (sm : Sourcemap) : jsstring :=
  applyEdits (sm_input sm) 0 (sm_edits sm).

(** ** [JSON.stringify] on a string (QuoteJSONString) *)

Definition hexDigit (n : N) : N :=
  if (n <? 10)%N then (48 + n)%N else (87 + n)%N.

Definition unicodeEscape (c : N) : jsstring :=
  [92; 117; hexDigit ((c / 4096) mod 16); hexDigit ((c / 256) mod 16);
   hexDigit ((c / 16) mod 16); hexDigit (c mod 16)]%N.

Definition isLeadingSurrogate (c : N) : bool := (55296 <=? c)%N && (c <=? 56319)%N.
Definition isTrailingSurrogate (c : N) : bool := (56320 <=? c)%N && (c <=? 57343)%N.

Definition quoteUnit (c : N) : jsstring :=
  if (c =? 8)%N then [92; 98]%N
  else if (c =? 9)%N then [92; 116]%N
  else if (c =? 10)%N then [92; 110]%N
  else if (c =? 12)%N then [92; 102]%N
  else if (c =? 13)%N then [92; 114]%N
  else if (c =? 34)%N then [92; 34]%N
  else if (c =? 92)%N then [92; 92]%N
  else if (c <? 32)%N || isLeadingSurrogate c || isTrailingSurrogate c then unicodeEscape c
  else [c].

Fixpoint quoteUnits (s : jsstring) : jsstring :=
  match s with
  | [] => []
  | c :: rest =>
      match rest with
      | d :: rest' =>
          if isLeadingSurrogate c && isTrailingSurrogate d
          then c :: d :: quoteUnits rest'
          else quoteUnit c ++ quoteUnits rest
      | [] => quoteUnit c
      end
  end.

Definition JSON_stringify (s : jsstring) : jsstring :=
  34%N :: quoteUnits s ++ [34%N].

(** ** [rewriteNpmImports] *)

(** Line terminators: what [.] refuses and what [^] and [$] see as line
    ends under the [m] flag. *)
Definition isLineTerminator (c : N) : bool :=
  (c =? 10)%N || (c =? 13)%N || (c =? 8232)%N || (c =? 8233)%N.

Definition sourceMappingPrefix : jsstring := str "//# sourceMappingURL=".

(** What is left once the tail of the pattern has matched: the rest of the
    line is consumed, and one line feed when it follows. *)
Fixpoint dropLine (s : jsstring) : jsstring :=
  match s with
  | [] => []
  | c :: rest =>
      if isLineTerminator c then (if (c =? 10)%N then rest else s)
      else dropLine rest
  end.

(** The final [replace] of the source-map comment by the empty string.  The
    pattern has the [m] flag and no [g] flag: it matches at the start of any
    line, and only the first match is removed.  [lineStart] tells whether
    the current position starts a line. *)
Fixpoint stripSourceMappingURL (lineStart : bool) (s : jsstring) : jsstring :=
  match s with
  | [] => []
  | c :: rest =>
      if lineStart && startsWith sourceMappingPrefix s
      then dropLine (drop (length sourceMappingPrefix) s)
      else c :: stripSourceMappingURL (isLineTerminator c) rest
  end.

Definition rewriteImportSource (resolve : jsstring -> jsstring)
    (source : StringLiteral) (output : Sourcemap) : Sourcemap :=
  let value := lit_value source in
  let resolved := resolve value in
  if negb (eqs value resolved)
  then replaceLeft (lit_start source) (lit_end source) (JSON_stringify resolved) output
  else output.

Definition rewriteImport (resolve : jsstring -> jsstring)
    (source : option Expression) (output : Sourcemap) : Sourcemap :=
  match isStringLiteral source with
  | Some l => rewriteImportSource resolve l output
  | None => output
  end.

Definition rewriteImportMetaResolve (resolve : jsstring -> jsstring)
    (importMetaResolve : bool) (arguments : list Expression) (output : Sourcemap) : Sourcemap :=
  if importMetaResolve
  then match isStringLiteral (arguments !! 0) with
       | Some l => rewriteImportSource resolve l output
       | None => output
       end
  else output.

(** The visitor table handed to [simple]. *)
Definition rewriteVisit (resolve : jsstring -> jsstring) (output : Sourcemap) (node : Node) : Sourcemap :=
  match node with
  | ImportDeclaration source => rewriteImport resolve (Some source) output
  | ImportExpression source => rewriteImport resolve (Some source) output
  | ExportAllDeclaration source => rewriteImport resolve (Some source) output
  | ExportNamedDeclaration source => rewriteImport resolve source output
  | CallExpression imr args => rewriteImportMetaResolve resolve imr args output
  | OtherNode => output
  end.

(** The function once the program is parsed. *)
Definition rewriteProgram (body : Program) (input : jsstring) (resolve : jsstring -> jsstring) : jsstring :=
  let output := fold_left (rewriteVisit resolve) body (newSourcemap input) in
  stripSourceMappingURL true (sourcemapToString output).

Definition rewriteNpmImports (parseProgram : jsstring -> Result Program)
    (input : jsstring) (resolve : jsstring -> jsstring) : Result jsstring :=
  match parseProgram input with
  | Throw e => Throw e
  | Ok body => Ok (rewriteProgram body input resolve)
  end.

(** ** Paths and versions *)

(** Replacing a matched suffix: [s.replace(/suffix$/, by)]. *)
Definition replaceSuffix (suffix by_ s : jsstring) : jsstring :=
  if endsWith suffix s then take (length s - length suffix) s ++ by_ else s.

Definition resolveNpmSpecifier (path : jsstring) : jsstring :=
  let path1 := if startsWith (str "/_npm/") path then drop (length (str "/_npm/")) path else path in
  replaceSuffix (str "/+esm.js") (str "/+esm") path1.

Definition isDigit (c : N) : bool := (48 <=? c)%N && (c <=? 57)%N.

(** The longest prefix of units satisfying [p], and the rest. *)
Fixpoint span (p : N -> bool) (s : jsstring) : jsstring * jsstring :=
  match s with
  | [] => ([], [])
  | c :: rest =>
      if p c then let '(a, b) := span p rest in (c :: a, b)
      else ([], s)
  end.

(** The test of line 214: digits, a dot, digits, a dot, digits, and then
    either the end or a [-] or [+] followed by anything on the same line. *)
Definition isExactVersion (s : jsstring) : bool :=
  let '(major, r1) := span isDigit s in
  match major, r1 with
  | _ :: _, c1 :: r1' =>
      (c1 =? 46)%N &&
      let '(minor, r2) := span isDigit r1' in
      match minor, r2 with
      | _ :: _, c2 :: r2' =>
          (c2 =? 46)%N &&
          let '(patch, r3) := span isDigit r2' in
          match patch, r3 with
          | _ :: _, [] => true
          | _ :: _, c3 :: rest =>
              ((c3 =? 45)%N || (c3 =? 43)%N) && forallb (fun c => negb (isLineTerminator c)) rest
          | [], _ => false
          end
      | _, _ => false
      end
  | _, _ => false
  end.

(** ** The process state and its environment *)

(** The effects that are logged, in the order they happen. *)
Inductive Event :=
| Fetch (href : jsstring)
| Readdir (dir : jsstring)
| Mkdir (dir : jsstring)
| WriteFile (file : jsstring).

(** What the code reads of a response: [ok], and the [version] property of
    its JSON body. *)
Record Response := mkResponse {
  resp_ok : bool;
  resp_version : option jsstring
}.

(** The dependency tables of a parsed package.json. *)
Record Manifest := mkManifest {
  dependencies : option (gmap jsstring jsstring);
  devDependencies : option (gmap jsstring jsstring);
  peerDependencies : option (gmap jsstring jsstring)
}.

(** The version index: a [Map] from package name to versions, in insertion
    order.  A version is [undefined] when a cache directory entry carries no
    [@]. *)
Abbreviation VersionIndex := (list (jsstring * list (option jsstring))).

Fixpoint indexGet (cache : VersionIndex) (key : jsstring) : option (list (option jsstring)) :=
  match cache with
  | [] => None
  | (k, v) :: rest => if eqs k key then Some v else indexGet rest key
  end.

Fixpoint indexSet (cache : VersionIndex) (key : jsstring) (value : list (option jsstring)) : VersionIndex :=
  match cache with
  | [] => [(key, value)]
  | (k, v) :: rest => if eqs k key then (k, value) :: rest else (k, v) :: indexSet rest key value
  end.

(** A pending promise of [npmRequests], with what its body captured. *)
Record PopulateRequest := mkPopulateRequest {
  pr_id : nat;
  pr_root : jsstring;
  pr_path : jsstring;
  pr_filePath : jsstring;
  pr_href : jsstring
}.

(** A pending promise of [npmVersionRequests], with what its body captured. *)
Record VersionRequest := mkVersionRequest {
  vr_id : nat;
  vr_root : jsstring;
  vr_specifier : NpmSpecifier;
  vr_href : jsstring;
  vr_versions : option (list (option jsstring))
}.

Record State := mkState {
  disk : gset jsstring;                               (* the paths [existsSync] finds *)
  npmVersionCache : option (Result VersionIndex);     (* unset, or the settled promise *)
  npmVersionRequests : gmap jsstring VersionRequest;
  npmRequests : gmap jsstring PopulateRequest;
  settled : gmap nat (Result jsstring);               (* outcomes of settled promises *)
  nextPromise : nat;
  log : list Event
}.

(** The collaborators that are not part of this file: node:path/posix,
    the parser, path.js, the semver library, the file system and the
    network.  [ext_persist root path] is the outcome of lines 90 to 96
    (decoding, resolving, rewriting and writing the fetched module), and
    [ext_readManifest] is [readFile] followed by [JSON.parse]. *)
Record Externals := mkExternals {
  ext_join : list jsstring -> jsstring;
  ext_dirname : jsstring -> jsstring;
  ext_parseProgram : jsstring -> Result Program;
  ext_relativePath : jsstring -> jsstring -> jsstring;
  ext_satisfies : option jsstring -> jsstring -> bool;
  ext_rsort : list (option jsstring) -> Result (list (option jsstring));
  ext_readdir : jsstring -> Result (list jsstring);
  ext_fetch : jsstring -> Response;
  ext_persist : jsstring -> jsstring -> Result unit;
  ext_readManifest : jsstring -> Result Manifest
}.

Definition existsSync (st : State) (p : jsstring) : bool := bool_decide (p ∈ disk st).

Definition emit (evs : list Event) (st : State) : State :=
  mkState (disk st) (npmVersionCache st) (npmVersionRequests st) (npmRequests st)
          (settled st) (nextPromise st) (log st ++ evs).

Definition addPath (p : jsstring) (st : State) : State :=
  mkState ({[p]} ∪ disk st) (npmVersionCache st) (npmVersionRequests st) (npmRequests st)
          (settled st) (nextPromise st) (log st).

Definition setVersionCache (c : Result VersionIndex) (st : State) : State :=
  mkState (disk st) (Some c) (npmVersionRequests st) (npmRequests st)
          (settled st) (nextPromise st) (log st).

Definition setVersionRequests (m : gmap jsstring VersionRequest) (st : State) : State :=
  mkState (disk st) (npmVersionCache st) m (npmRequests st)
          (settled st) (nextPromise st) (log st).

Definition setRequests (m : gmap jsstring PopulateRequest) (st : State) : State :=
  mkState (disk st) (npmVersionCache st) (npmVersionRequests st) m
          (settled st) (nextPromise st) (log st).

Definition settle (id : nat) (r : Result jsstring) (st : State) : State :=
  mkState (disk st) (npmVersionCache st) (npmVersionRequests st) (npmRequests st)
          (<[id := r]> (settled st)) (nextPromise st) (log st).

Definition freshPromise (st : State) : nat * State :=
  (nextPromise st,
   mkState (disk st) (npmVersionCache st) (npmVersionRequests st) (npmRequests st)
           (settled st) (S (nextPromise st)) (log st)).

(** A computation that may throw; the state it leaves is kept either way. *)
Definition M (A : Type) : Type := State -> Result A * State.

Definition ret {A} (a : A) : M A := fun st => (Ok a, st).
Definition throw {A} (e : Error) : M A := fun st => (Throw e, st).
Definition bind {A B} (m : M A) (k : A -> M B) : M B :=
  fun st => match m st with
            | (Ok a, st') => k a st'
            | (Throw e, st') => (Throw e, st')
            end.

Notation "'let*' x ':=' m 'in' k" := (bind m (fun x => k))
  (at level 10, x pattern, m at level 100, k at level 200).

(** What a call of an async function hands back: a promise already settled,
    or one that is pending. *)
Inductive Returned (A P : Type) :=
| Now (r : Result A)
| Awaits (p : P).
Arguments Now {A P} r.
Arguments Awaits {A P} p.

Section Npm.

Variable E : Externals.

(** ** [populateNpmCache] *)

Definition cacheFilePath (root path : jsstring) : jsstring :=
  ext_join E [root; str ".observablehq"; str "cache"; path].

(** Lines 77 to 86 and 99 to 101: up to the point where the caller holds a
    promise.  The body of the new promise runs up to its first [await], so
    the request is sent before the promise is registered. *)
Definition populateNpmCache_call (root path : jsstring) (st : State)
    : Returned jsstring PopulateRequest * State :=
  if negb (startsWith (str "/_npm/") path)
  then (Now (Throw (ErrorMsg (str "invalid npm path: " ++ path))), st)
  else
    let filePath := cacheFilePath root path in
    if existsSync st filePath then (Now (Ok filePath), st)
    else match npmRequests st !! path with
         | Some promise => (Awaits promise, st)
         | None =>
             let specifier := resolveNpmSpecifier path in
             let href := str "https://cdn.jsdelivr.net/npm/" ++ specifier in
             let '(id, st1) := freshPromise st in
             let promise := mkPopulateRequest id root path filePath href in
             let st2 := emit [Fetch href] st1 in
             (Awaits promise, setRequests (<[path := promise]> (npmRequests st2)) st2)
         end.

(** Lines 86 to 99: the body of the promise once the response is there, its
    settlement, and the removal of its registry entry. *)
Definition populateNpmCache_settle (promise : PopulateRequest) (st : State)
    : Result jsstring * State :=
  let response := ext_fetch E (pr_href promise) in
  let '(outcome, st1) :=
    if negb (resp_ok response)
    then (Throw (ErrorMsg (str "unable to fetch: " ++ pr_href promise)), st)
    else
      let dir := ext_dirname E (pr_filePath promise) in
      let st1 := addPath dir (emit [Mkdir dir] st) in
      match ext_persist E (pr_root promise) (pr_path promise) with
      | Ok _ => (Ok (pr_filePath promise),
                 addPath (pr_filePath promise) (emit [WriteFile (pr_filePath promise)] st1))
      | Throw e => (Throw e, st1)
      end in
  let st2 := settle (pr_id promise) outcome st1 in
  (outcome, setRequests (delete (pr_path promise) (npmRequests st2)) st2).

(** Awaiting a promise of [npmRequests]. *)
Definition awaitPopulate (promise : PopulateRequest) : M jsstring :=
  fun st => match settled st !! pr_id promise with
            | Some outcome => (outcome, st)
            | None => populateNpmCache_settle promise st
            end.

(** [await populateNpmCache(root, path)] with nothing else interleaved. *)
Definition populateNpmCache (root path : jsstring) : M jsstring :=
  fun st => match populateNpmCache_call root path st with
            | (Now r, st') => (r, st')
            | (Awaits promise, st') => awaitPopulate promise st'
            end.

(** ** [initializeNpmVersionCache] *)

(** Modelled from the spec: error.js is not part of this file; as its name
    says, [isEnoent] holds of the file-system error whose code is ENOENT. *)
Definition isEnoent (e : Error) : bool :=
  match e with
  | SystemError code => eqs code (str "ENOENT")
  | _ => false
  end.

(** Lines 190 to 192 and 196 to 198. *)
Definition recordVersion (cache : VersionIndex) (spec : NpmSpecifier) : VersionIndex :=
  match indexGet cache (name spec) with
  | Some versions => indexSet cache (name spec) (versions ++ [range spec])
  | None => indexSet cache (name spec) [range spec]
  end.

(** The loop of lines 186 to 200: the error that ended it, if any, the map
    as filled so far, and the directories read. *)
Fixpoint scanEntries (cacheDir : jsstring) (entries : list jsstring)
    (cache : VersionIndex) (evs : list Event) : option Error * VersionIndex * list Event :=
  match entries with
  | [] => (None, cache, evs)
  | entry :: rest =>
      if startsWith (str "@") entry then
        let dir := ext_join E [cacheDir; entry] in
        match ext_readdir E dir with
        | Ok subentries =>
            scanEntries cacheDir rest
              (fold_left (fun c subentry =>
                            recordVersion c (parseNpmSpecifier (entry ++ slash :: subentry)))
                         subentries cache)
              (evs ++ [Readdir dir])
        | Throw e => (Some e, cache, evs ++ [Readdir dir])
        end
      else scanEntries cacheDir rest (recordVersion cache (parseNpmSpecifier entry)) evs
  end.

(** Lines 204 to 206: every list is replaced by its sorted form, in the
    order of the map; the first failure of [rsort] ends the loop. *)
Fixpoint sortIndex (todo : VersionIndex) (cache : VersionIndex) : Result VersionIndex :=
  match todo with
  | [] => Ok cache
  | (key, value) :: rest =>
      match ext_rsort E value with
      | Ok sorted => sortIndex rest (indexSet cache key sorted)
      | Throw e => Throw e
      end
  end.

Definition initializeNpmVersionCache (root : jsstring) : Result VersionIndex * list Event :=
  let cacheDir := ext_join E [root; str ".observablehq"; str "cache"; str "_npm"] in
  let '(failure, cache, evs) :=
    match ext_readdir E cacheDir with
    | Ok entries => scanEntries cacheDir entries [] [Readdir cacheDir]
    | Throw e => (Some e, [], [Readdir cacheDir])
    end in
  match failure with
  | Some e => if negb (isEnoent e) then (Throw e, evs) else (sortIndex cache cache, evs)
  | None => (sortIndex cache cache, evs)
  end.

(** ** [resolveNpmVersion] *)

(** [await (npmVersionCache ??= initializeNpmVersionCache(root))]. *)
Definition getVersionCache (root : jsstring) : M VersionIndex :=
  fun st => match npmVersionCache st with
            | Some r => (r, st)
            | None =>
                let '(r, evs) := initializeNpmVersionCache root in
                (r, setVersionCache r (emit evs st))
            end.

(** The loop of line 217. *)
Definition scanVersions (versions : option (list (option jsstring))) (range : option jsstring)
    : option (option jsstring) :=
  match versions with
  | Some versions =>
      find (fun version => negb (truthy range) || ext_satisfies E version (template range)) versions
  | None => None
  end.

Definition resolvedHref (name : jsstring) (range : option jsstring) : jsstring :=
  str "https://data.jsdelivr.com/v1/packages/npm/" ++ name ++ str "/resolved"
  ++ (if truthy range then str "?specifier=" ++ template range else []).

(** Lines 213 to 223 and 233 to 235: up to the point where the caller holds
    a result or a pending promise. *)
Definition resolveNpmVersion_call (root : jsstring) (specifier : NpmSpecifier) (st : State)
    : Returned (option jsstring) VersionRequest * State :=
  let name := name specifier in
  let range := range specifier in
  if truthy range && isExactVersion (template range) then (Now (Ok range), st)
  else
    match getVersionCache root st with
    | (Throw e, st1) => (Now (Throw e), st1)
    | (Ok cache, st1) =>
        let versions := indexGet cache name in
        match scanVersions versions range with
        | Some version => (Now (Ok version), st1)
        | None =>
            let href := resolvedHref name range in
            match npmVersionRequests st1 !! href with
            | Some promise => (Awaits promise, st1)
            | None =>
                let '(id, st2) := freshPromise st1 in
                let promise := mkVersionRequest id root specifier href versions in
                let st3 := emit [Fetch href] st2 in
                (Awaits promise, setVersionRequests (<[href := promise]> (npmVersionRequests st3)) st3)
            end
        end
    end.

(** [cache.set(key, value)] on the shared map behind [npmVersionCache]. *)
Definition cacheSet (key : jsstring) (value : list (option jsstring)) (st : State) : State :=
  match npmVersionCache st with
  | Some (Ok cache) => setVersionCache (Ok (indexSet cache key value)) st
  | _ => st
  end.

(** Lines 223 to 233: the body of the promise once the response is there,
    its settlement, and the removal of its registry entry. *)
Definition resolveNpmVersion_settle (promise : VersionRequest) (st : State)
    : Result jsstring * State :=
  let specifier := vr_specifier promise in
  let response := ext_fetch E (vr_href promise) in
  let '(outcome, st1) :=
    if negb (resp_ok response)
    then (Throw (ErrorMsg (str "unable to fetch: " ++ vr_href promise)), st)
    else
      if negb (truthy (resp_version response))
      then (Throw (ErrorMsg (str "unable to resolve version: "
                             ++ formatNpmSpecifier (mkSpecifier (name specifier) (range specifier) None))), st)
      else
        let version := template (resp_version response) in
        let spec := formatNpmSpecifier (mkSpecifier (name specifier) (Some version) None) in
        let sorted :=
          match vr_versions promise with
          | Some versions => ext_rsort E (versions ++ [Some version])
          | None => Ok [Some version]
          end in
        match sorted with
        | Throw e => (Throw e, st)
        | Ok sorted =>
            let dir := ext_join E [vr_root promise; str ".observablehq"; str "cache"; str "_npm"; spec] in
            (Ok version, addPath dir (emit [Mkdir dir] (cacheSet (name specifier) sorted st)))
        end in
  let st2 := settle (vr_id promise) outcome st1 in
  (outcome, setVersionRequests (delete (vr_href promise) (npmVersionRequests st2)) st2).

(** Awaiting a promise of [npmVersionRequests]. *)
Definition awaitVersion (promise : VersionRequest) : M (option jsstring) :=
  fun st => match settled st !! vr_id promise with
            | Some (Ok version) => (Ok (Some version), st)
            | Some (Throw e) => (Throw e, st)
            | None => match resolveNpmVersion_settle promise st with
                      | (Ok version, st') => (Ok (Some version), st')
                      | (Throw e, st') => (Throw e, st')
                      end
            end.

(** [await resolveNpmVersion(root, specifier)] with nothing else
    interleaved.  The result is [undefined] only when the index holds an
    undefined version. *)
Definition resolveNpmVersion (root : jsstring) (specifier : NpmSpecifier) : M (option jsstring) :=
  fun st => match resolveNpmVersion_call root specifier st with
            | (Now r, st') => (r, st')
            | (Awaits promise, st') => awaitVersion promise st'
            end.

(** ** [resolveNpmImport] *)

Definition defaultRange (name : jsstring) : option jsstring :=
  if eqs name (str "@duckdb/duckdb-wasm") then Some (str "1.28.0")
  else if eqs name (str "parquet-wasm") then Some (str "0.5.0")
  else None.

Definition defaultPath (name : jsstring) : jsstring :=
  if eqs name (str "mermaid") then str "dist/mermaid.esm.min.mjs/+esm"
  else if eqs name (str "echarts") then str "dist/echarts.esm.min.js"
  else str "+esm".

Definition resolveNpmImport (root specifier : jsstring) : M jsstring :=
  let parsed := parseNpmSpecifier specifier in
  let name := name parsed in
  let range := match range parsed with Some r => Some r | None => defaultRange name end in
  let path := match path parsed with Some p => p | None => defaultPath name end in
  let* version := resolveNpmVersion root (mkSpecifier name range None) in
  ret (str "/_npm/" ++ name ++ at_sign :: template version ++ slash
       :: replaceSuffix (str "+esm") (str "+esm.js") path).

(** ** [getDependencyResolver] *)

(** [dependencies.add(value)] on a [Set], which keeps insertion order. *)
Definition setAdd (value : jsstring) (set : list jsstring) : list jsstring :=
  if bool_decide (value ∈ set) then set else set ++ [value].

Definition npmPrefixLength : nat := length (str "/npm/").

Definition findImportSource (root self : jsstring) (st : State)
    (source : StringLiteral) (dependencies : list jsstring) : list jsstring :=
  let value := lit_value source in
  if startsWith (str "/npm/") value then
    let dep := parseNpmSpecifier (sliceFrom npmPrefixLength value) in
    if eqs (name dep) self then dependencies
    else if existsSync st (ext_join E [root; str ".observablehq"; str "cache"; str "_npm";
                                       name dep ++ at_sign :: template (range dep)])
    then dependencies
    else setAdd value dependencies
  else dependencies.

Definition findImport (root self : jsstring) (st : State)
    (source : option Expression) (dependencies : list jsstring) : list jsstring :=
  match isStringLiteral source with
  | Some l => findImportSource root self st l dependencies
  | None => dependencies
  end.

Definition findImportMetaResolve (root self : jsstring) (st : State)
    (importMetaResolve : bool) (arguments : list Expression)
    (dependencies : list jsstring) : list jsstring :=
  if importMetaResolve
  then match isStringLiteral (arguments !! 0) with
       | Some l => findImportSource root self st l dependencies
       | None => dependencies
       end
  else dependencies.

(** The visitor table handed to [simple]. *)
Definition findVisit (root self : jsstring) (st : State)
    (dependencies : list jsstring) (node : Node) : list jsstring :=
  match node with
  | ImportDeclaration source => findImport root self st (Some source) dependencies
  | ImportExpression source => findImport root self st (Some source) dependencies
  | ExportAllDeclaration source => findImport root self st (Some source) dependencies
  | ExportNamedDeclaration source => findImport root self st source dependencies
  | CallExpression imr args => findImportMetaResolve root self st imr args dependencies
  | OtherNode => dependencies
  end.

(** Lines 119 to 150: the dependency set of a parsed module. *)
Definition findDependencies (root path : jsstring) (st : State) (body : Program) : list jsstring :=
  let self := parseNpmSpecifier (resolveNpmSpecifier path) in
  fold_left (findVisit root (name self) st) body [].

(** [table?.[key]]. *)
Definition lookupRange (table : option (gmap jsstring jsstring)) (key : jsstring) : option jsstring :=
  match table with
  | Some t => t !! key
  | None => None
  end.

(** [a ?? b]. *)
Definition orElse (a b : option jsstring) : option jsstring :=
  match a with
  | Some x => Some x
  | None => b
  end.

(** Lines 161 to 166: the range a dependency is resolved with. *)
Definition dependencyRange (self depName : jsstring) (pkg : Manifest) : option jsstring :=
  if (eqs self (str "arquero") || eqs self (str "@uwdata/mosaic-core")
      || eqs self (str "@duckdb/duckdb-wasm"))
     && eqs depName (str "apache-arrow")
  then Some (str "latest")
  else if eqs self (str "@uwdata/mosaic-core") && eqs depName (str "@duckdb/duckdb-wasm")
  then Some (str "1.28.0")
  else orElse (lookupRange (dependencies pkg) depName)
         (orElse (lookupRange (devDependencies pkg) depName)
                 (lookupRange (peerDependencies pkg) depName)).

(** The specifier handed to [resolveNpmImport] on line 168. *)
Definition dependencySpecifier (depName range depPath : jsstring) : jsstring :=
  depName ++ at_sign :: range ++ slash :: depPath.

(** The loop of lines 159 to 169. *)
Fixpoint resolveDependencies (root self : jsstring) (pkg : Manifest)
    (dependencies : list jsstring) (resolutions : gmap jsstring jsstring)
    : M (gmap jsstring jsstring) :=
  match dependencies with
  | [] => ret resolutions
  | dependency :: rest =>
      let dep := parseNpmSpecifier (sliceFrom npmPrefixLength dependency) in
      let depPath := default (str "+esm") (path dep) in
      match dependencyRange self (name dep) pkg with
      | None => resolveDependencies root self pkg rest resolutions
      | Some range =>
          let* resolved := resolveNpmImport root (dependencySpecifier (name dep) range depPath) in
          resolveDependencies root self pkg rest (<[dependency := resolved]> resolutions)
      end
  end.

(** Lines 174 and 175: the cache path of a specifier, before it is made
    relative. *)
Definition resolvedSpecifier (resolutions : gmap jsstring jsstring) (specifier : jsstring) : jsstring :=
  match resolutions !! specifier with
  | Some resolved => resolved
  | None =>
      str "/_npm/" ++ sliceFrom npmPrefixLength specifier
      ++ (if endsWith (str "/+esm") specifier then str ".js" else [])
  end.

(** Lines 172 to 177: the returned function. *)
Definition dependencyResolver (path : jsstring) (resolutions : gmap jsstring jsstring)
    (specifier : jsstring) : jsstring :=
  if negb (startsWith (str "/npm/") specifier) then specifier
  else ext_relativePath E path (resolvedSpecifier resolutions specifier).

Definition manifestPath (self : NpmSpecifier) : jsstring :=
  str "/_npm/" ++ name self ++ at_sign :: template (range self) ++ str "/package.json".

(** Lines 152 to 170: the resolution map of a module. *)
Definition getResolutions (root path : jsstring) (body : Program) : M (gmap jsstring jsstring) :=
  fun st =>
    let self := parseNpmSpecifier (resolveNpmSpecifier path) in
    let dependencies := findDependencies root path st body in
    if 0 <? length dependencies then
      (let* pkgPath := populateNpmCache root (manifestPath self) in
       let* pkg := (fun st' => (ext_readManifest E pkgPath, st')) in
       resolveDependencies root (name self) pkg dependencies ∅) st
    else (Ok ∅, st).

Definition getDependencyResolver (root path input : jsstring) : M (jsstring -> jsstring) :=
  match ext_parseProgram E input with
  | Throw e => throw e
  | Ok body =>
      let* resolutions := getResolutions root path body in
      ret (dependencyResolver path resolutions)
  end.

End Npm.

(** ** Vocabulary of the statements *)

(** The string literal a node offers to the rewriting callbacks, if any. *)
Definition rewritableLiteral (node : Node) : option StringLiteral :=
  match node with
  | ImportDeclaration source => isStringLiteral (Some source)
  | ImportExpression source => isStringLiteral (Some source)
  | ExportAllDeclaration source => isStringLiteral (Some source)
  | ExportNamedDeclaration source => isStringLiteral source
  | CallExpression imr args => if imr then isStringLiteral (args !! 0) else None
  | OtherNode => None
  end.

Definition rewritableLiterals (body : Program) : list StringLiteral :=
  omap rewritableLiteral body.

(** [resolve] gives the literal a new value. *)
Definition changes (resolve : jsstring -> jsstring) (l : StringLiteral) : bool :=
  negb (eqs (lit_value l) (resolve (lit_value l))).

(** The text [s] with the range from [start] to [end_] replaced. *)
Definition replaceRange (start end_ : nat) (value s : jsstring) : jsstring :=
  take start s ++ value ++ drop end_ s.

(** The text [s] with one literal replaced by its JSON-quoted new value. *)
Definition replaceLiteral (resolve : jsstring -> jsstring) (l : StringLiteral) (s : jsstring) : jsstring :=
  replaceRange (lit_start l) (lit_end l) (JSON_stringify (resolve (lit_value l))) s.

(** Literals in source order: non-empty ranges, one after the other, from
    [from] on and within [bound]. *)
Fixpoint disjointRanges (from bound : nat) (lits : list StringLiteral) : Prop :=
  match lits with
  | [] => True
  | l :: rest =>
      from <= lit_start l /\ lit_start l < lit_end l /\ lit_end l <= bound
      /\ disjointRanges (lit_end l) bound rest
  end.

Definition editOf (resolve : jsstring -> jsstring) (l : StringLiteral) : Edit :=
  mkEdit (lit_start l) (lit_end l) (JSON_stringify (resolve (lit_value l))).

Definition startsBefore (a b : Edit) : Prop := edit_start a < edit_start b.

(** The edits recorded for a list of literals, in the order given. *)
Definition insertAll (resolve : jsstring -> jsstring) (lits : list StringLiteral)
    (edits : list Edit) : list Edit :=
  fold_left (fun eds l => insertEdit (editOf resolve l) eds) lits edits.

(** The specification's words for the final step, "strips a trailing
    sourceMappingURL comment line": the comment is removed only when it is
    the last line of the text. *)
Fixpoint stripTrailingSourceMappingURL (lineStart : bool) (s : jsstring) : jsstring :=
  match s with
  | [] => []
  | c :: rest =>
      if lineStart && startsWith sourceMappingPrefix s
         && forallb (fun d => negb (isLineTerminator d)) (removelast s)
      then []
      else c :: stripTrailingSourceMappingURL (isLineTerminator c) rest
  end.

(** ** Interleavings of calls and settlements *)

(** Between two suspension points the code runs without interruption, so a
    run of the process is a sequence of these actions: a caller enters one
    of the two functions, or the response of a pending request arrives and
    the body of its promise runs to its end. *)
Inductive Action :=
| CallPopulate (root path : jsstring)
| SettlePopulate (promise : PopulateRequest)
| CallVersion (root : jsstring) (specifier : NpmSpecifier)
| SettleVersion (promise : VersionRequest).

(** Only a pending promise, which is in its registry, can settle. *)
Definition enabled (a : Action) (st : State) : Prop :=
  match a with
  | SettlePopulate promise => npmRequests st !! pr_path promise = Some promise
  | SettleVersion promise => npmVersionRequests st !! vr_href promise = Some promise
  | _ => True
  end.

Definition perform (E : Externals) (a : Action) (st : State) : State :=
  match a with
  | CallPopulate root path => snd (populateNpmCache_call E root path st)
  | SettlePopulate promise => snd (populateNpmCache_settle E promise st)
  | CallVersion root specifier => snd (resolveNpmVersion_call E root specifier st)
  | SettleVersion promise => snd (resolveNpmVersion_settle E promise st)
  end.

(** A process that has just started: nothing cached in memory, nothing
    pending; the disk is arbitrary. *)
Definition initial (st : State) : Prop :=
  npmVersionCache st = None /\ npmVersionRequests st = ∅ /\ npmRequests st = ∅
  /\ settled st = ∅.

Inductive reachable (E : Externals) : State -> Prop :=
| reachable_initial st : initial st -> reachable E st
| reachable_step st a : reachable E st -> enabled a st -> reachable E (perform E a st).

(** Runs of actions. *)
Fixpoint performAll (E : Externals) (actions : list Action) (st : State) : State :=
  match actions with
  | [] => st
  | a :: rest => performAll E rest (perform E a st)
  end.

Fixpoint allEnabled (E : Externals) (actions : list Action) (st : State) : Prop :=
  match actions with
  | [] => True
  | a :: rest => enabled a st /\ allEnabled E rest (perform E a st)
  end.

(** The bookkeeping of promises is coherent: a registered promise sits under
    its own key, is not settled, and shares its identity with no other
    registered promise; identities not yet handed out are not settled. *)
Record consistent (st : State) : Prop := mkConsistent {
  populate_keyed : forall k p, npmRequests st !! k = Some p -> pr_path p = k;
  populate_pending : forall k p, npmRequests st !! k = Some p -> settled st !! pr_id p = None;
  version_keyed : forall k p, npmVersionRequests st !! k = Some p -> vr_href p = k;
  version_pending : forall k p, npmVersionRequests st !! k = Some p -> settled st !! vr_id p = None;
  populate_ids : forall k1 k2 p1 p2,
    npmRequests st !! k1 = Some p1 -> npmRequests st !! k2 = Some p2 ->
    pr_id p1 = pr_id p2 -> k1 = k2;
  version_ids : forall k1 k2 p1 p2,
    npmVersionRequests st !! k1 = Some p1 -> npmVersionRequests st !! k2 = Some p2 ->
    vr_id p1 = vr_id p2 -> k1 = k2;
  cross_ids : forall k1 k2 p1 p2,
    npmRequests st !! k1 = Some p1 -> npmVersionRequests st !! k2 = Some p2 ->
    pr_id p1 <> vr_id p2;
  populate_bound : forall k p, npmRequests st !! k = Some p -> pr_id p < nextPromise st;
  version_bound : forall k p, npmVersionRequests st !! k = Some p -> vr_id p < nextPromise st;
  settled_bound : forall id r, settled st !! id = Some r -> id < nextPromise st
}.

Definition isFetch (e : Event) : bool :=
  match e with
  | Fetch _ => true
  | _ => false
  end.

(** The requests sent so far. *)
Definition fetches (st : State) : list Event := List.filter isFetch (log st).

(** Every version of an index list is an exact version. *)
Definition exactVersions (versions : list (option jsstring)) : Prop :=
  Forall (fun v => exists s, v = Some s /\ isExactVersion s = true) versions.

Definition exactIndex (cache : VersionIndex) : Prop :=
  forall key versions, indexGet cache key = Some versions -> exactVersions versions.

(** A list of the index is in the order [rsort] left it (a one-element
    list is sorted as it is). *)
Definition rsorted (E : Externals) (versions : list (option jsstring)) : Prop :=
  (exists l, ext_rsort E l = Ok versions) \/ (exists v, versions = [v]).

Definition rsortedIndex (E : Externals) (cache : VersionIndex) : Prop :=
  forall key versions, indexGet cache key = Some versions -> rsorted E versions.

(** Every list of the index in memory is in the order [rsort] left it. *)
Definition sortedState (E : Externals) (st : State) : Prop :=
  forall cache, npmVersionCache st = Some (Ok cache) -> rsortedIndex E cache.

(** The registry only ever answers with an exact version. *)
Definition remoteExact (E : Externals) : Prop :=
  forall href, truthy (resp_version (ext_fetch E href)) = true ->
               isExactVersion (template (resp_version (ext_fetch E href))) = true.

(** Sorting neither invents nor alters versions. *)
Definition rsortKeepsExact (E : Externals) : Prop :=
  forall l l', ext_rsort E l = Ok l' -> exactVersions l -> exactVersions l'.

(** The index, as it is or as the disk would initialise it, holds exact
    versions only, and so do the lists captured by pending lookups. *)
Definition exactState (E : Externals) (root : jsstring) (st : State) : Prop :=
  (forall cache st1, getVersionCache E root st = (Ok cache, st1) -> exactIndex cache)
  /\ (forall href p vs, npmVersionRequests st !! href = Some p ->
                        vr_versions p = Some vs -> exactVersions vs).

Definition pathOrDefault (parsed : NpmSpecifier) : jsstring :=
  match path parsed with
  | Some p => p
  | None => defaultPath (name parsed)
  end.

(** [p] is the cache path of [specifier] at some exact version. *)
Definition exactCachePath (specifier p : jsstring) : Prop :=
  exists v, isExactVersion v = true
    /\ p = str "/_npm/" ++ name (parseNpmSpecifier specifier) ++ at_sign :: v ++ slash
           :: replaceSuffix (str "+esm") (str "+esm.js") (pathOrDefault (parseNpmSpecifier specifier)).

(** Position [i] of [s] starts a line: it is the start of the text (when
    the text itself starts a line) or follows a line terminator. *)
Definition lineStartAt (lineStart : bool) (s : jsstring) (i : nat) : Prop :=
  (i = 0 /\ lineStart = true)
  \/ (exists c, 0 < i /\ s !! (i - 1) = Some c /\ isLineTerminator c = true).

(** ** A sample project, for the worked examples *)

Module Sample.

Definition root : jsstring := str "/project".

(** A module with one CDN import and one unrelated string literal. *)
Definition plainSource : jsstring :=
  str "import '/npm/d3@7/+esm'; const s = 'unrelated';".

Definition plainImport : StringLiteral := mkLiteral 7 23 (str "/npm/d3@7/+esm").

Definition plainBody : Program :=
  [ImportDeclaration (StringLit plainImport); OtherNode].

(** A module that starts with its source-map comment. *)
Definition commentFirst : jsstring :=
  str "//# sourceMappingURL=a.map" ++ 10%N :: str "let a = 1;" ++ [10%N].

(** The module of arquero: it imports Arrow and one of its own files. *)
Definition arqueroPath : jsstring := str "/_npm/arquero@5.0.0/+esm.js".

Definition arqueroSource : jsstring :=
  str "import '/npm/apache-arrow@12/+esm'; import '/npm/arquero@5.0.0/dist/x.js';".

Definition arrowImport : StringLiteral := mkLiteral 7 34 (str "/npm/apache-arrow@12/+esm").
Definition selfImport : StringLiteral := mkLiteral 43 73 (str "/npm/arquero@5.0.0/dist/x.js").

Definition arqueroBody : Program :=
  [ImportDeclaration (StringLit arrowImport); ImportDeclaration (StringLit selfImport)].

Definition parseProgram (input : jsstring) : Result Program :=
  if eqs input plainSource then Ok plainBody
  else if eqs input arqueroSource then Ok arqueroBody
  else if eqs input commentFirst then Ok [OtherNode]
  else Throw SyntaxError.

(** The manifest of arquero declares an older Arrow. *)
Definition manifest : Manifest :=
  mkManifest (Some {[ str "apache-arrow" := str "^11.0.0" ]}) None None.

(** A range is satisfied by the versions it is a dotted prefix of. *)
Definition satisfies (version : option jsstring) (range : jsstring) : bool :=
  match version with
  | Some v => eqs v range || startsWith (range ++ str ".") v
  | None => false
  end.

(** Segments joined by a slash, a segment's own leading slash dropped. *)
Definition joinPaths (parts : list jsstring) : jsstring :=
  match parts with
  | [] => str "."
  | first :: rest =>
      join slash (first :: map (fun p => if startsWith (str "/") p then drop 1 p else p) rest)
  end.

Definition dirname (p : jsstring) : jsstring := join slash (removelast (split slash p)).

Definition cacheDir : jsstring := str "/project/.observablehq/cache/_npm".

Definition readdir (dir : jsstring) : Result (list jsstring) :=
  if eqs dir cacheDir then Ok [str "d3@7.8.5"; str "@observablehq"]
  else if eqs dir (str "/project/.observablehq/cache/_npm/@observablehq") then Ok [str "plot@0.6.11"]
  else Throw (SystemError (str "ENOENT")).

(** The registry answers every lookup with the same version; the CDN
    serves every file. *)
Definition fetch (href : jsstring) : Response :=
  if startsWith (str "https://data.jsdelivr.com/") href
  then mkResponse true (Some (str "13.0.0"))
  else mkResponse true None.

Definition externals : Externals :=
  {| ext_join := joinPaths;
     ext_dirname := dirname;
     ext_parseProgram := parseProgram;
     ext_relativePath := fun _ target => target;
     ext_satisfies := satisfies;
     ext_rsort := fun versions => Ok versions;
     ext_readdir := readdir;
     ext_fetch := fetch;
     ext_persist := fun _ _ => Ok tt;
     ext_readManifest := fun _ => Ok manifest |}.

(** The same project before anything was cached. *)
Definition freshExternals : Externals :=
  {| ext_join := joinPaths;
     ext_dirname := dirname;
     ext_parseProgram := parseProgram;
     ext_relativePath := fun _ target => target;
     ext_satisfies := satisfies;
     ext_rsort := fun versions => Ok versions;
     ext_readdir := fun _ => Throw (SystemError (str "ENOENT"));
     ext_fetch := fetch;
     ext_persist := fun _ _ => Ok tt;
     ext_readManifest := fun _ => Ok manifest |}.

(** A process that has just started, on an empty disk. *)
Definition start : State := mkState ∅ None ∅ ∅ ∅ 0 [].

(** The same process once the module of d3 is on disk. *)
Definition d3Path : jsstring := str "/_npm/d3@7.8.5/+esm.js".

Definition cached : State :=
  mkState {[ str "/project/.observablehq/cache/_npm/d3@7.8.5/+esm.js" ]} None ∅ ∅ ∅ 0 [].

(** A resolver for the plain module. *)
Definition resolve (specifier : jsstring) : jsstring :=
  if startsWith (str "/npm/") specifier then str "../d3@7.8.5/+esm.js" else specifier.

End Sample.

(** * Further code of the module *)

(** A specifier as the grammar has it: a name with no [@] after its first
    unit and no [/] (exactly one when it is scoped), a range that is absent
    or a non-empty text with no [/], a path that is absent or non-empty. *)
Definition wellFormedSpecifier (s : NpmSpecifier) : Prop :=
  name s <> []
  /\ indexOf at_sign 1 (name s) = (-1)%Z
  /\ length (split slash (name s)) = (if startsWith (str "@") (name s) then 2 else 1)
  /\ match range s with
     | Some r => r <> [] /\ length (split slash r) = 1
     | None => True
     end
  /\ match path s with
     | Some p => p <> []
     | None => True
     end.

(** The directory whose presence marks a dependency as already resolved
    (line 147). *)
Definition dependencyDirectory (E : Externals) (root value : jsstring) : jsstring :=
  let dep := parseNpmSpecifier (sliceFrom npmPrefixLength value) in
  ext_join E [root; str ".observablehq"; str "cache"; str "_npm";
              name dep ++ at_sign :: template (range dep)].

(** A literal value that [findImportSource] adds to the set. *)
Definition unresolvedImport (E : Externals) (root self : jsstring) (st : State)
    (value : jsstring) : Prop :=
  startsWith (str "/npm/") value = true
  /\ name (parseNpmSpecifier (sliceFrom npmPrefixLength value)) <> self
  /\ existsSync st (dependencyDirectory E root value) = false.

(** The range [resolveNpmImport] resolves: the one of the specifier, or the
    pinned default of the package (lines 241 to 245). *)
Definition rangeOrDefault (parsed : NpmSpecifier) : option jsstring :=
  match range parsed with
  | Some r => Some r
  | None => defaultRange (name parsed)
  end.

(** The range line 161 finds for a dependency as written in the source. *)
Definition rangeOfDependency (self : jsstring) (pkg : Manifest) (dependency : jsstring)
    : option jsstring :=
  dependencyRange self (name (parseNpmSpecifier (sliceFrom npmPrefixLength dependency))) pkg.

(** The list line 229 stores for a name: the versions the call found in the
    index with the new version added, sorted; the new version alone when
    the index had no list. *)
Definition extendedVersions (E : Externals) (versions : option (list (option jsstring)))
    (version : jsstring) : Result (list (option jsstring)) :=
  match versions with
  | Some versions => ext_rsort E (versions ++ [Some version])
  | None => Ok [Some version]
  end.

(** The directory line 230 creates for a resolved version. *)
Definition versionDirectory (E : Externals) (root name version : jsstring) : jsstring :=
  ext_join E [root; str ".observablehq"; str "cache"; str "_npm";
              formatNpmSpecifier (mkSpecifier name (Some version) None)].

Definition isReaddir (e : Event) : bool :=
  match e with
  | Readdir _ => true
  | _ => false
  end.

(** The directory listings made so far. *)
Definition readdirs (st : State) : list Event := List.filter isReaddir (log st).

(** The specifiers the loop of lines 186 to 200 records, in the order it
    records them: one for each entry, and for an entry that starts with [@]
    one for each of its subentries; the loop ends at the first directory
    that cannot be listed. *)
Fixpoint scannedSpecifiers (E : Externals) (cacheDir : jsstring) (entries : list jsstring)
    : list NpmSpecifier :=
  match entries with
  | [] => []
  | entry :: rest =>
      if startsWith (str "@") entry then
        match ext_readdir E (ext_join E [cacheDir; entry]) with
        | Ok subentries =>
            map (fun subentry => parseNpmSpecifier (entry ++ slash :: subentry)) subentries
            ++ scannedSpecifiers E cacheDir rest
        | Throw _ => []
        end
      else parseNpmSpecifier entry :: scannedSpecifiers E cacheDir rest
  end.

(** The ranges of the specifiers of one name, in their order. *)
Definition versionsOf (key : jsstring) (specs : list NpmSpecifier) : list (option jsstring) :=
  map range (List.filter (fun spec => eqs (name spec) key) specs).

(** ** [resolveNpmImports] *)

(** A code unit with the letters A to Z in lower case: the case folding of
    the flag [i] for a pattern of ASCII letters, which no code unit outside
    ASCII matches. *)
Definition lowerUnit (c : N) : N := if ((65 <=? c) && (c <=? 90))%N then (c + 32)%N else c.

(** [/\.(m|c)?js$/i.test(path)]. *)
Definition isJavaScriptPath (path : jsstring) : bool :=
  let lowered := map lowerUnit path in
  endsWith (str ".js") lowered || endsWith (str ".mjs") lowered || endsWith (str ".cjs") lowered.

Section Imports.

(** The references [findImports] returns; javascript/imports.js is not part
    of this file. *)
Context {ImportReference : Type}.

(** What line 268 onwards reads from outside: the text of a cached file and
    the imports [findImports] finds in a parsed program. *)
Record ImportExternals := mkImportExternals {
  ext_readFile : jsstring -> Result jsstring;
  ext_findImports : Program -> jsstring -> jsstring -> Result (list ImportReference)
}.

(** The state of the module with [npmImportsCache], whose promises never
    reject and are kept here by their value, and the warnings written to
    the console, each with the path and the error it reports. *)
Record ImportsState := mkImportsState {
  npmState : State;
  npmImportsCache : gmap jsstring (list ImportReference);
  warnings : list (jsstring * Error)
}.

Variable E : Externals.
Variable F : ImportExternals.

(** Lines 267 to 272: the body of the [try]. *)
Definition readImports (root path : jsstring) : M (list ImportReference) :=
  let* filePath := populateNpmCache E root path in
  if negb (isJavaScriptPath path) then ret []
  else
    fun st =>
      match ext_readFile F filePath with
      | Throw e => (Throw e, st)
      | Ok source =>
          match ext_parseProgram E source with
          | Throw e => (Throw e, st)
          | Ok body => (ext_findImports F body path source, st)
          end
      end.

(** [await resolveNpmImports(root, path)] with nothing else interleaved. *)
Definition resolveNpmImports (root path : jsstring) (s : ImportsState)
    : Result (list ImportReference) * ImportsState :=
  if negb (startsWith (str "/_npm/") path)
  then (Throw (ErrorMsg (str "invalid npm path: " ++ path)), s)
  else
    match npmImportsCache s !! path with
    | Some imports => (Ok imports, s)
    | None =>
        match readImports root path (npmState s) with
        | (Ok imports, st) =>
            (Ok imports, mkImportsState st (<[path := imports]> (npmImportsCache s)) (warnings s))
        | (Throw e, st) =>
            (Ok [], mkImportsState st (<[path := []]> (npmImportsCache s))
                      (warnings s ++ [(path, e)]))
        end
    end.

(** A run of calls, each awaited before the next. *)
Fixpoint resolveAll (calls : list (jsstring * jsstring)) (s : ImportsState) : ImportsState :=
  match calls with
  | [] => s
  | (root, path) :: rest => resolveAll rest (snd (resolveNpmImports root path s))
  end.

End Imports.

Arguments ImportExternals : clear implicits.
Arguments ImportsState : clear implicits.

(** Further scenarios of the sample project. *)
Module Scenario.

(** A module with a relative import only. *)
Definition relativeSource : jsstring := str "import './x.js';".

Definition relativeImport : StringLiteral := mkLiteral 7 15 (str "./x.js").

Definition relativeBody : Program := [ImportDeclaration (StringLit relativeImport)].

Definition parseProgram (input : jsstring) : Result Program :=
  if eqs input relativeSource then Ok relativeBody else Sample.parseProgram input.

Definition externals : Externals :=
  {| ext_join := Sample.joinPaths;
     ext_dirname := Sample.dirname;
     ext_parseProgram := parseProgram;
     ext_relativePath := fun _ target => target;
     ext_satisfies := Sample.satisfies;
     ext_rsort := fun versions => Ok versions;
     ext_readdir := Sample.readdir;
     ext_fetch := Sample.fetch;
     ext_persist := fun _ _ => Ok tt;
     ext_readManifest := fun _ => Ok Sample.manifest |}.

(** The project without a network: every request is refused. *)
Definition offline : Externals :=
  {| ext_join := Sample.joinPaths;
     ext_dirname := Sample.dirname;
     ext_parseProgram := parseProgram;
     ext_relativePath := fun _ target => target;
     ext_satisfies := Sample.satisfies;
     ext_rsort := fun versions => Ok versions;
     ext_readdir := fun _ => Throw (SystemError (str "ENOENT"));
     ext_fetch := fun _ => mkResponse false None;
     ext_persist := fun _ _ => Ok tt;
     ext_readManifest := fun _ => Ok Sample.manifest |}.

(** A registry that knows two major versions of every package. *)
Definition registry (href : jsstring) : Response :=
  if endsWith (str "?specifier=1") href then mkResponse true (Some (str "1.9.0"))
  else mkResponse true (Some (str "2.0.0")).

Definition twoMajors : Externals :=
  {| ext_join := Sample.joinPaths;
     ext_dirname := Sample.dirname;
     ext_parseProgram := parseProgram;
     ext_relativePath := fun _ target => target;
     ext_satisfies := Sample.satisfies;
     ext_rsort := fun versions => Ok versions;
     ext_readdir := fun _ => Throw (SystemError (str "ENOENT"));
     ext_fetch := registry;
     ext_persist := fun _ _ => Ok tt;
     ext_readManifest := fun _ => Ok Sample.manifest |}.

(** A process whose index is built and empty. *)
Definition indexed : State := mkState ∅ (Some (Ok [])) ∅ ∅ ∅ 0 [].

(** A process whose index could not be built. *)
Definition broken : State :=
  mkState ∅ (Some (Throw (SystemError (str "EACCES")))) ∅ ∅ ∅ 0 [].

(** Cached files all hold the plain module; the imports found are the
    values of its literals. *)
Definition files : ImportExternals jsstring :=
  {| ext_readFile := fun _ => Ok Sample.plainSource;
     ext_findImports := fun body _ _ => Ok (map lit_value (rewritableLiterals body)) |}.

Definition noImports : ImportsState jsstring := mkImportsState Sample.start ∅ [].

Definition stylesheet : jsstring := str "/_npm/katex@0.16.9/dist/katex.min.css".

(** Ranges that name a major version. *)
Definition d3Major : NpmSpecifier := mkSpecifier (str "d3") (Some (str "7")) None.
Definition firstMajor : NpmSpecifier := mkSpecifier (str "pkg") (Some (str "1")) None.
Definition secondMajor : NpmSpecifier := mkSpecifier (str "pkg") (Some (str "2")) None.

End Scenario.

(** * Properties *)

(** ** Strings *)


Lemma split_nonempty sep s : exists p ps, split sep s = p :: ps.
Proof.
  destruct s as [|c s]; simpl; [eauto|].
  destruct (N.eqb c sep); [eauto|].
  destruct (split sep s); eauto.
Qed.

Lemma join_cons sep p q qs : join sep (p :: q :: qs) = p ++ sep :: join sep (q :: qs).
Proof. reflexivity. Qed.

Lemma join_split sep s : join sep (split sep s) = s.
Proof.
  induction s as [|c s IH]; simpl; [done|].
  destruct (N.eqb_spec c sep) as [->|Hne].
  - destruct (split_nonempty sep s) as (p & ps & Hs).
    rewrite Hs in IH |- *. rewrite join_cons, IH. done.
  - destruct (split sep s) as [|p ps] eqn:Hs.
    + destruct (split_nonempty sep s) as (p & ps & Hs'). congruence.
    + destruct ps as [|q qs]; simpl in *; by rewrite <- IH.
Qed.

Lemma find_unit_Some c s k :
  find_unit c s = Some k -> take k s ++ c :: drop (S k) s = s.
Proof.
  revert k. induction s as [|d s IH]; intros k; simpl; [done|].
  destruct (N.eqb_spec d c) as [->|Hne].
  - intros [= <-]. done.
  - destruct (find_unit c s) as [j|]; simpl; [|done].
    intros [= <-]. simpl. by rewrite IH.
Qed.

Lemma indexOf_range c from s : indexOf c from s = (-1)%Z \/ (Z.of_nat from <= indexOf c from s)%Z.
Proof. unfold indexOf. destruct (find_unit c (drop from s)); [right; lia | by left]. Qed.

Lemma indexOf_found c from s (r : Z) :
  indexOf c from s = r -> (0 <= r)%Z ->
  take (Z.to_nat r) s ++ c :: drop (Z.to_nat r + 1) s = s.
Proof.
  unfold indexOf. destruct (find_unit c (drop from s)) as [k|] eqn:Hk; [|lia].
  intros <- _. rewrite Nat2Z.id.
  apply find_unit_Some in Hk.
  rewrite <- (take_drop from s) at 3. rewrite <- Hk.
  rewrite <- take_take_drop, <- app_assoc. f_equal. f_equal. f_equal.
  rewrite drop_drop. f_equal. lia.
Qed.

Lemma startsWith_at s : startsWith (str "@") s = true <-> exists s', s = at_sign :: s'.
Proof.
  change (str "@") with [at_sign].
  destruct s as [|c s]; cbn [startsWith].
  - split; [done | intros [? ?]; done].
  - rewrite andb_true_r, N.eqb_eq. split.
    + intros <-. eauto.
    + intros [s' [= -> ->]]. done.
Qed.


(** ** Specifiers *)

Lemma parse_unscoped text p ps :
  startsWith (str "@") text = false -> split slash text = p :: ps ->
  parseNpmSpecifier text =
  let ranged := indexOf at_sign 1 p in
  {| name := if (0 <? ranged)%Z then slice 0 (Z.to_nat ranged) p else p;
     range := if (0 <? ranged)%Z then Some (sliceFrom (Z.to_nat ranged + 1) p) else None;
     path := if (0 <? length ps) then Some (join slash ps) else None |}.
Proof. intros Hat Hs. unfold parseNpmSpecifier. rewrite Hat, Hs. reflexivity. Qed.

Lemma parse_scoped_alone text p :
  startsWith (str "@") text = true -> split slash text = [p] ->
  parseNpmSpecifier text =
  let namerange := p ++ [slash] in
  let ranged := indexOf at_sign 1 namerange in
  {| name := if (0 <? ranged)%Z then slice 0 (Z.to_nat ranged) namerange else namerange;
     range := if (0 <? ranged)%Z then Some (sliceFrom (Z.to_nat ranged + 1) namerange) else None;
     path := None |}.
Proof. intros Hat Hs. unfold parseNpmSpecifier. rewrite Hat, Hs. reflexivity. Qed.

Lemma parse_scoped_full text p q qs :
  startsWith (str "@") text = true -> split slash text = p :: q :: qs ->
  parseNpmSpecifier text =
  let namerange := p ++ slash :: q in
  let ranged := indexOf at_sign 1 namerange in
  {| name := if (0 <? ranged)%Z then slice 0 (Z.to_nat ranged) namerange else namerange;
     range := if (0 <? ranged)%Z then Some (sliceFrom (Z.to_nat ranged + 1) namerange) else None;
     path := if (0 <? length qs) then Some (join slash qs) else None |}.
Proof. intros Hat Hs. unfold parseNpmSpecifier. rewrite Hat, Hs. reflexivity. Qed.

(** Name and range put back together give the name-and-range segment. *)
Lemma name_at_range namerange :
  (0 <? indexOf at_sign 1 namerange)%Z = true ->
  slice 0 (Z.to_nat (indexOf at_sign 1 namerange)) namerange
  ++ at_sign :: sliceFrom (Z.to_nat (indexOf at_sign 1 namerange) + 1) namerange = namerange.
Proof.
  intros H%Z.ltb_lt. unfold slice, sliceFrom. rewrite Nat.sub_0_r. simpl drop at 1.
  apply (indexOf_found at_sign 1); [done | lia].
Qed.

Lemma truthy_Some x : truthy x = true -> exists s, x = Some s /\ s <> [].
Proof. destruct x as [[|c s]|]; simpl; try done. eauto. Qed.

Lemma format_parts nm r p :
  r <> [] -> p <> [] ->
  formatNpmSpecifier (mkSpecifier nm (Some r) (Some p)) = nm ++ at_sign :: r ++ slash :: p.
Proof.
  intros Hr Hp. unfold formatNpmSpecifier. simpl.
  destruct r; [done|]. destruct p; [done|]. reflexivity.
Qed.


Lemma indexOf_not_positive c s :
  (0 <? indexOf c 1 s)%Z = false <-> indexOf c 1 s = (-1)%Z.
Proof.
  rewrite Z.ltb_ge. destruct (indexOf_range c 1 s) as [->|H]; [done|]. lia.
Qed.


Arguments str : simpl never.
Arguments startsWith : simpl never.
Arguments endsWith : simpl never.
Arguments isExactVersion : simpl never.
Arguments parseNpmSpecifier : simpl never.

Lemma eqs_true a b : eqs a b = true <-> a = b.
Proof. unfold eqs. apply bool_decide_eq_true. Qed.

Lemma eqs_false a b : eqs a b = false <-> a <> b.
Proof. unfold eqs. apply bool_decide_eq_false. Qed.

Lemma eqs_refl a : eqs a a = true.
Proof. by apply eqs_true. Qed.

(** ** The version index *)

Lemma indexGet_indexSet cache key value key' :
  indexGet (indexSet cache key value) key'
  = if eqs key key' then Some value else indexGet cache key'.
Proof.
  induction cache as [|[k v] cache IH]; simpl.
  - done.
  - destruct (eqs k key) eqn:Hk; simpl.
    + apply eqs_true in Hk as ->. by destruct (eqs key key').
    + rewrite IH. destruct (eqs k key') eqn:Hk'; [|done].
      apply eqs_true in Hk' as ->.
      destruct (eqs key key') eqn:Hkk; [|done].
      apply eqs_true in Hkk as ->. by rewrite eqs_refl in Hk.
Qed.

Lemma indexGet_key cache key versions :
  indexGet cache key = Some versions -> key ∈ map fst cache.
Proof.
  induction cache as [|[k v] cache IH]; simpl; [done|].
  destruct (eqs k key) eqn:Hk.
  - apply eqs_true in Hk as ->. intros _. by left.
  - intros H. right. by apply IH.
Qed.

Section Index.

Variable E : Externals.

Lemma sortIndex_rsorted todo acc cache :
  sortIndex E todo acc = Ok cache ->
  (forall key versions, indexGet acc key = Some versions ->
     rsorted E versions \/ key ∈ map fst todo) ->
  rsortedIndex E cache.
Proof.
  revert acc. induction todo as [|[key value] todo IH]; intros acc; simpl.
  - intros [= <-] Hacc k v Hk. destruct (Hacc k v Hk) as [?|Hin]; [done|].
    by apply elem_of_nil in Hin.
  - destruct (ext_rsort E value) as [sorted|e] eqn:Hsort; [|done].
    intros Hs Hacc. apply (IH _ Hs). intros k v.
    rewrite indexGet_indexSet. destruct (eqs key k) eqn:Hk.
    + intros [= <-]. left. left. eauto.
    + intros Hget. destruct (Hacc k v Hget) as [?|Hin]; [by left|].
      right. apply elem_of_cons in Hin as [->|?]; [|done].
      apply eqs_false in Hk. done.
Qed.

Lemma initializeNpmVersionCache_rsorted root cache evs :
  initializeNpmVersionCache E root = (Ok cache, evs) -> rsortedIndex E cache.
Proof.
  unfold initializeNpmVersionCache.
  set (scan := match ext_readdir E _ with Ok _ => _ | Throw _ => _ end).
  destruct scan as [[failure c] evs'].
  assert (forall r, (sortIndex E c c, evs') = (Ok cache, r) -> rsortedIndex E cache) as Hsort.
  { intros r [= Hs _]. apply (sortIndex_rsorted _ _ _ Hs).
    intros k v Hk. right. by eapply indexGet_key. }
  destruct failure as [e|]; [|by apply Hsort].
  destruct (isEnoent e); simpl; [by apply Hsort|done].
Qed.

(** ENOENT on the cache directory itself. *)
Lemma initializeNpmVersionCache_missing root :
  ext_readdir E (ext_join E [root; str ".observablehq"; str "cache"; str "_npm"])
  = Throw (SystemError (str "ENOENT")) ->
  initializeNpmVersionCache E root
  = (Ok [], [Readdir (ext_join E [root; str ".observablehq"; str "cache"; str "_npm"])]).
Proof. intros H. unfold initializeNpmVersionCache. rewrite H. reflexivity. Qed.

Lemma initializeNpmVersionCache_rethrows root e :
  ext_readdir E (ext_join E [root; str ".observablehq"; str "cache"; str "_npm"]) = Throw e ->
  isEnoent e = false ->
  initializeNpmVersionCache E root
  = (Throw e, [Readdir (ext_join E [root; str ".observablehq"; str "cache"; str "_npm"])]).
Proof. intros H He. unfold initializeNpmVersionCache. rewrite H. simpl. by rewrite He. Qed.

Lemma scanEntries_failure cacheDir entries cache evs e cache' evs' :
  scanEntries E cacheDir entries cache evs = (Some e, cache', evs') ->
  exists entry, entry ∈ entries /\ startsWith (str "@") entry = true
    /\ ext_readdir E (ext_join E [cacheDir; entry]) = Throw e.
Proof.
  revert cache evs. induction entries as [|entry entries IH]; intros cache evs; simpl; [done|].
  destruct (startsWith (str "@") entry) eqn:Hat.
  - destruct (ext_readdir E (ext_join E [cacheDir; entry])) as [subs|e'] eqn:Hr.
    + intros H. destruct (IH _ _ H) as (en & Hin & ? & ?). exists en. split; [by right|done].
    + intros [= -> _ _]. exists entry. split; [by left|done].
  - intros H. destruct (IH _ _ H) as (en & Hin & ? & ?). exists en. split; [by right|done].
Qed.

Lemma initializeNpmVersionCache_rethrows_nested root entries e cache evs :
  let cacheDir := ext_join E [root; str ".observablehq"; str "cache"; str "_npm"] in
  ext_readdir E cacheDir = Ok entries ->
  scanEntries E cacheDir entries [] [Readdir cacheDir] = (Some e, cache, evs) ->
  isEnoent e = false ->
  initializeNpmVersionCache E root = (Throw e, evs).
Proof.
  intros cacheDir Hr Hs He. unfold initializeNpmVersionCache. fold cacheDir.
  rewrite Hr, Hs. simpl. by rewrite He.
Qed.

End Index.

(** ** Rewriting *)

Section Rewrite.

Variable resolve : jsstring -> jsstring.

Lemma rewriteVisit_literal sm node :
  rewriteVisit resolve sm node =
  match rewritableLiteral node with
  | Some l => if changes resolve l
              then mkSourcemap (sm_input sm) (insertEdit (editOf resolve l) (sm_edits sm))
              else sm
  | None => sm
  end.
Proof.
  unfold rewriteVisit, rewritableLiteral, rewriteImport, rewriteImportMetaResolve,
    rewriteImportSource, changes, replaceLeft, editOf.
  destruct node as [[]|[]|[]|[[]|]|[] [|[] args]|]; simpl; done.
Qed.

Lemma fold_rewriteVisit body sm :
  fold_left (rewriteVisit resolve) body sm =
  mkSourcemap (sm_input sm)
    (insertAll resolve (filter (fun l => changes resolve l = true) (rewritableLiterals body)) (sm_edits sm)).
Proof.
  revert sm. induction body as [|node body IH]; intros sm; simpl.
  - by destruct sm.
  - rewrite IH, rewriteVisit_literal. unfold rewritableLiterals. simpl.
    destruct (rewritableLiteral node) as [l|]; simpl; [|done].
    destruct (changes resolve l) eqn:Hc.
    + rewrite filter_cons_True by done. done.
    + rewrite filter_cons_False by (by rewrite Hc). done.
Qed.

Lemma insertEdit_perm e edits : insertEdit e edits ≡ₚ e :: edits.
Proof.
  induction edits as [|e' edits IH]; simpl; [done|].
  destruct (edit_start e' <? edit_start e); [|done].
  rewrite IH. apply Permutation_swap.
Qed.

Lemma insertAll_perm lits edits :
  insertAll resolve lits edits ≡ₚ map (editOf resolve) lits ++ edits.
Proof.
  revert edits. induction lits as [|l lits IH]; intros edits; simpl; [done|].
  unfold insertAll in *. simpl. rewrite IH, insertEdit_perm.
  by rewrite Permutation_middle.
Qed.

Lemma insertEdit_sorted e edits :
  StronglySorted startsBefore edits ->
  Forall (fun e' => edit_start e' <> edit_start e) edits ->
  StronglySorted startsBefore (insertEdit e edits).
Proof.
  induction edits as [|e' edits IH]; simpl; intros Hs Hne.
  - repeat constructor.
  - apply StronglySorted_inv in Hs as [Hs Hall].
    apply Forall_cons in Hne as [Hne1 Hne].
    destruct (Nat.ltb_spec (edit_start e') (edit_start e)).
    + constructor; [by apply IH|].
      rewrite insertEdit_perm. by constructor.
    + constructor; [by constructor|].
      assert (startsBefore e e') by (unfold startsBefore; lia).
      constructor; [done|].
      eapply Forall_impl; [exact Hall|]. unfold startsBefore in *. simpl. lia.
Qed.

Lemma insertAll_sorted lits edits :
  StronglySorted startsBefore edits ->
  NoDup (map edit_start (map (editOf resolve) lits ++ edits)) ->
  StronglySorted startsBefore (insertAll resolve lits edits).
Proof.
  revert edits. induction lits as [|l lits IH]; intros edits Hs Hnd; simpl; [done|].
  unfold insertAll in *. simpl. simpl in Hnd. apply NoDup_cons in Hnd as [Hnotin Hnd].
  apply IH.
  - apply insertEdit_sorted; [done|].
    apply Forall_forall. intros e' He' Heq. apply Hnotin.
    rewrite map_app. apply elem_of_app. right.
    change (lit_start l) with (edit_start (editOf resolve l)). rewrite <- Heq.
    by apply list_elem_of_fmap_2.
  - rewrite !map_app in *. rewrite insertEdit_perm. simpl.
    rewrite <- Permutation_middle. apply NoDup_cons. split; [|done].
    done.
Qed.

Lemma disjointRanges_after from bound lits :
  disjointRanges from bound lits -> Forall (fun l => from <= lit_start l) lits.
Proof.
  revert from. induction lits as [|l lits IH]; intros from; simpl; [constructor|].
  intros (H1 & H2 & H3 & H4). constructor; [done|].
  eapply Forall_impl; [by apply IH|]. simpl. lia.
Qed.

Lemma disjointRanges_sorted from bound lits :
  disjointRanges from bound lits ->
  StronglySorted startsBefore (map (editOf resolve) lits).
Proof.
  revert from. induction lits as [|l lits IH]; intros from; simpl; [constructor|].
  intros (H1 & H2 & H3 & H4). constructor; [by eapply IH|].
  apply Forall_map. eapply Forall_impl; [by eapply disjointRanges_after|].
  unfold startsBefore. simpl. lia.
Qed.

Lemma sorted_NoDup edits :
  StronglySorted startsBefore edits -> NoDup (map edit_start edits).
Proof.
  induction 1 as [|e edits Hs IH Hall]; simpl; constructor; [|done].
  intros Hin. apply list_elem_of_fmap in Hin as (e' & Heq & He').
  rewrite Forall_forall in Hall. specialize (Hall _ He'). unfold startsBefore in Hall. lia.
Qed.

Lemma startsBefore_antisym : AntiSymm eq startsBefore.
Proof. intros a b. unfold startsBefore. lia. Qed.

Lemma applyEdits_replace input from lits :
  disjointRanges from (length input) lits -> from <= length input ->
  take from input ++ applyEdits input from (map (editOf resolve) lits)
  = fold_right (replaceLiteral resolve) input lits.
Proof.
  revert from. induction lits as [|l lits IH]; intros from; simpl.
  - intros _ _. apply take_drop.
  - intros (H1 & H2 & H3 & H4) Hb.
    rewrite <- (IH (lit_end l)) by (done || lia).
    unfold replaceLiteral, replaceRange.
    rewrite take_app_le by (rewrite length_take; lia).
    rewrite take_take, Nat.min_l by lia.
    rewrite drop_app_length' by (rewrite length_take; lia).
    rewrite app_assoc. f_equal.
    destruct (Nat.ltb_spec from (lit_start l)).
    + unfold slice. rewrite take_take_drop. f_equal. lia.
    + rewrite app_nil_r. f_equal. lia.
Qed.

Lemma rewriteProgram_splices body input lits :
  lits ≡ₚ filter (fun l => changes resolve l = true) (rewritableLiterals body) ->
  disjointRanges 0 (length input) lits ->
  rewriteProgram body input resolve
  = stripSourceMappingURL true (fold_right (replaceLiteral resolve) input lits).
Proof.
  intros Hperm Hdis. unfold rewriteProgram. rewrite fold_rewriteVisit. f_equal.
  unfold sourcemapToString. simpl.
  rewrite <- (applyEdits_replace input 0 lits) by (done || lia). simpl. f_equal.
  apply (@StronglySorted_unique _ startsBefore startsBefore_antisym).
  - apply insertAll_sorted; [constructor|]. rewrite app_nil_r.
    rewrite <- Hperm. apply sorted_NoDup. by eapply disjointRanges_sorted.
  - by eapply disjointRanges_sorted.
  - rewrite insertAll_perm, app_nil_r. by rewrite Hperm.
Qed.

End Rewrite.

(** ** The source-map comment *)

Lemma lineStartAt_cons ls c s i :
  lineStartAt ls (c :: s) (S i) -> lineStartAt (isLineTerminator c) s i.
Proof.
  intros [[? _]|(d & _ & Hd & Ht)]; [lia|].
  destruct i as [|i].
  - left. simpl in Hd. by injection Hd as ->.
  - right. exists d. replace (S (S i) - 1) with (S i) in Hd by lia.
    replace (S i - 1) with i by lia. split; [lia|]. split; done.
Qed.

Lemma lineStartAt_cons_inv ls c s i :
  lineStartAt (isLineTerminator c) s i -> lineStartAt ls (c :: s) (S i).
Proof.
  intros [[-> Hc]|(d & Hi & Hd & Ht)]; right.
  - exists c. split; [lia|]. split; done.
  - exists d. split; [lia|]. split; [|done].
    destruct i as [|i]; [lia|].
    replace (S (S i) - 1) with (S i) by lia.
    replace (S i - 1) with i in Hd by lia. done.
Qed.

Lemma stripSourceMappingURL_first ls s n :
  lineStartAt ls s n ->
  startsWith sourceMappingPrefix (drop n s) = true ->
  (forall i, i < n -> lineStartAt ls s i -> startsWith sourceMappingPrefix (drop i s) = false) ->
  stripSourceMappingURL ls s = take n s ++ dropLine (drop (n + length sourceMappingPrefix) s).
Proof.
  revert ls n. induction s as [|c s IH]; intros ls n Hn Hp Hfirst.
  - rewrite drop_nil in Hp. done.
  - destruct n as [|n].
    + destruct Hn as [[_ ->]|(d & ? & _)]; [|lia].
      simpl drop in Hp. cbn [stripSourceMappingURL]. rewrite Hp. done.
    + cbn [stripSourceMappingURL].
      destruct (ls && startsWith sourceMappingPrefix (c :: s)) eqn:Hhere.
      * apply andb_true_iff in Hhere as [-> Hhere].
        pose proof (Hfirst 0) as H0. simpl drop in H0.
        rewrite H0 in Hhere; [done|lia|by left].
      * simpl. f_equal. apply IH.
        -- by eapply lineStartAt_cons.
        -- done.
        -- intros i Hi Hl. apply (Hfirst (S i)); [lia|]. by apply lineStartAt_cons_inv.
Qed.

Lemma stripSourceMappingURL_none ls s :
  (forall i, lineStartAt ls s i -> startsWith sourceMappingPrefix (drop i s) = false) ->
  stripSourceMappingURL ls s = s.
Proof.
  revert ls. induction s as [|c s IH]; intros ls Hnone; [done|].
  cbn [stripSourceMappingURL].
  destruct (ls && startsWith sourceMappingPrefix (c :: s)) eqn:Hhere.
  - apply andb_true_iff in Hhere as [-> Hhere].
    pose proof (Hnone 0) as H0. simpl drop in H0.
    rewrite H0 in Hhere; [done|by left].
  - f_equal. apply IH. intros i Hl. apply (Hnone (S i)). by apply lineStartAt_cons_inv.
Qed.

(** ** Version resolution *)

Lemma isExactVersion_nonempty s : isExactVersion s = true -> s <> [].
Proof. by destruct s. Qed.

Lemma isExactVersion_truthy s : isExactVersion s = true -> truthy (Some s) = true.
Proof. by destruct s. Qed.

(** The test of line 214 accepts every version of the form
    major.minor.patch, with an optional pre-release or build suffix. *)
Lemma span_digits digits tail :
  forallb isDigit digits = true ->
  match tail with [] => True | c :: _ => isDigit c = false end ->
  span isDigit (digits ++ tail) = (digits, tail).
Proof.
  intros Hd Ht. induction digits as [|d digits IH]; simpl.
  - destruct tail as [|c tail]; [done|]. simpl. by rewrite Ht.
  - simpl in Hd. apply andb_true_iff in Hd as [Hd1 Hd2]. rewrite Hd1, IH; done.
Qed.

Lemma isExactVersion_semver major minor patch suffix :
  major <> [] -> minor <> [] -> patch <> [] ->
  forallb isDigit major = true -> forallb isDigit minor = true ->
  forallb isDigit patch = true ->
  match suffix with
  | [] => True
  | c :: rest => (c = 45%N \/ c = 43%N)
                 /\ forallb (fun d => negb (isLineTerminator d)) rest = true
  end ->
  isExactVersion (major ++ 46%N :: minor ++ 46%N :: patch ++ suffix) = true.
Proof.
  intros H1 H2 H3 D1 D2 D3 Hs. unfold isExactVersion.
  rewrite (span_digits major) by done.
  destruct major as [|m major]; [done|]. cbn [N.eqb Pos.eqb andb].
  rewrite (span_digits minor) by done.
  destruct minor as [|n minor]; [done|]. cbn [N.eqb Pos.eqb andb].
  rewrite (span_digits patch).
  - destruct patch as [|p patch]; [done|].
    destruct suffix as [|c rest]; [done|]. destruct Hs as [[-> | ->] ->]; done.
  - done.
  - destruct suffix as [|c rest]; [done|]. by destruct Hs as [[-> | ->] _].
Qed.

Section Version.

Variable E : Externals.

Lemma getVersionCache_set root st cache :
  npmVersionCache st = Some cache -> getVersionCache E root st = (cache, st).
Proof. intros H. unfold getVersionCache. by rewrite H. Qed.

Lemma getVersionCache_unset root st :
  npmVersionCache st = None ->
  getVersionCache E root st
  = (fst (initializeNpmVersionCache E root),
     setVersionCache (fst (initializeNpmVersionCache E root))
       (emit (snd (initializeNpmVersionCache E root)) st)).
Proof.
  intros H. unfold getVersionCache. rewrite H.
  by destruct (initializeNpmVersionCache E root).
Qed.

Lemma initializeNpmVersionCache_events root :
  Forall (fun e => isFetch e = false) (snd (initializeNpmVersionCache E root)).
Proof.
  unfold initializeNpmVersionCache.
  set (cacheDir := ext_join E _).
  assert (forall entries cache evs,
            Forall (fun e => isFetch e = false) evs ->
            Forall (fun e => isFetch e = false) (snd (scanEntries E cacheDir entries cache evs)))
    as Hscan.
  { induction entries as [|entry entries IH]; intros cache evs Hevs; cbn [scanEntries]; [done|].
    destruct (startsWith (str "@") entry); [|by apply IH].
    destruct (ext_readdir E (ext_join E [cacheDir; entry])).
    - apply IH. apply Forall_app. split; [done|]. by repeat constructor.
    - simpl. apply Forall_app. split; [done|]. by repeat constructor. }
  destruct (ext_readdir E cacheDir) as [entries|e].
  - specialize (Hscan entries [] [Readdir cacheDir]).
    destruct (scanEntries E cacheDir entries [] [Readdir cacheDir]) as [[failure c] evs].
    simpl in Hscan.
    assert (Forall (fun e => isFetch e = false) evs) by (apply Hscan; by repeat constructor).
    destruct failure as [e|]; [destruct (isEnoent e)|]; done.
  - destruct (isEnoent e); simpl; by repeat constructor.
Qed.

Lemma filter_no_fetch evs :
  Forall (fun e => isFetch e = false) evs -> List.filter isFetch evs = [].
Proof.
  induction 1 as [|e evs He _ IH]; simpl; [done|]. by rewrite He.
Qed.

Lemma getVersionCache_fetches root st :
  fetches (snd (getVersionCache E root st)) = fetches st.
Proof.
  unfold getVersionCache. destruct (npmVersionCache st); [done|].
  pose proof (initializeNpmVersionCache_events root) as Hev.
  destruct (initializeNpmVersionCache E root) as [r evs]. simpl in *.
  unfold fetches. simpl. rewrite List.filter_app, (filter_no_fetch _ Hev). apply app_nil_r.
Qed.

(** Tier 1. *)
Lemma resolveNpmVersion_call_exact root specifier version st :
  range specifier = Some version -> isExactVersion version = true ->
  resolveNpmVersion_call E root specifier st = (Now (Ok (Some version)), st).
Proof.
  intros Hr Hex. unfold resolveNpmVersion_call. rewrite Hr. simpl template.
  by rewrite (isExactVersion_truthy _ Hex), Hex.
Qed.

(** Tier 2. *)
Lemma resolveNpmVersion_call_cached root specifier st cache st1 versions version :
  truthy (range specifier) && isExactVersion (template (range specifier)) = false ->
  getVersionCache E root st = (Ok cache, st1) ->
  indexGet cache (name specifier) = Some versions ->
  find (fun v => negb (truthy (range specifier))
                 || ext_satisfies E v (template (range specifier))) versions = Some version ->
  resolveNpmVersion_call E root specifier st = (Now (Ok version), st1).
Proof.
  intros Hne Hc Hv Hf. unfold resolveNpmVersion_call.
  rewrite Hne, Hc, Hv. unfold scanVersions. by rewrite Hf.
Qed.

(** Tier 3: nothing cached satisfies the range. *)
Lemma resolveNpmVersion_call_remote root specifier st cache st1 :
  truthy (range specifier) && isExactVersion (template (range specifier)) = false ->
  getVersionCache E root st = (Ok cache, st1) ->
  scanVersions E (indexGet cache (name specifier)) (range specifier) = None ->
  let href := resolvedHref (name specifier) (range specifier) in
  match npmVersionRequests st1 !! href with
  | Some promise => resolveNpmVersion_call E root specifier st = (Awaits promise, st1)
  | None =>
      let promise := mkVersionRequest (nextPromise st1) root specifier href
                       (indexGet cache (name specifier)) in
      exists st2,
        resolveNpmVersion_call E root specifier st = (Awaits promise, st2)
        /\ log st2 = log st1 ++ [Fetch href]
        /\ npmVersionRequests st2 = <[href := promise]> (npmVersionRequests st1)
        /\ npmVersionCache st2 = npmVersionCache st1
        /\ disk st2 = disk st1
  end.
Proof.
  intros Hne Hc Hs href. unfold resolveNpmVersion_call.
  rewrite Hne, Hc, Hs. fold href.
  destruct (npmVersionRequests st1 !! href) as [promise|]; [done|].
  simpl. eexists. split; [reflexivity|]. simpl. done.
Qed.

End Version.


(** ** Bookkeeping of promises *)

Lemma consistent_ext st st' :
  npmRequests st' = npmRequests st -> npmVersionRequests st' = npmVersionRequests st ->
  settled st' = settled st -> nextPromise st' = nextPromise st ->
  consistent st -> consistent st'.
Proof.
  intros H1 H2 H3 H4 []. constructor; rewrite ?H1, ?H2, ?H3, ?H4; done.
Qed.

Lemma initial_consistent st : initial st -> consistent st.
Proof.
  intros (_ & Hv & Hp & Hs). constructor; rewrite ?Hv, ?Hp, ?Hs; intros *;
    rewrite ?lookup_empty; done.
Qed.

(** Registering a fresh populate promise. *)
Lemma consistent_register_populate st st' path p :
  consistent st ->
  npmRequests st !! path = None ->
  pr_path p = path -> pr_id p = nextPromise st ->
  npmRequests st' = <[path := p]> (npmRequests st) ->
  npmVersionRequests st' = npmVersionRequests st ->
  settled st' = settled st -> nextPromise st' = S (nextPromise st) ->
  consistent st'.
Proof.
  intros [Hpk Hpp Hvk Hvp Hpi Hvi Hci Hpb Hvb Hsb] Hnone Hpath Hid H1 H2 H3 H4.
  assert (settled st !! nextPromise st = None) as Hfresh.
  { destruct (settled st !! nextPromise st) eqn:Hs; [|done].
    apply Hsb in Hs. lia. }
  constructor; rewrite ?H1, ?H2, ?H3, ?H4.
  - intros k q. rewrite lookup_insert. case_decide; [intros [= <-]; congruence | eauto].
  - intros k q. rewrite lookup_insert. case_decide; [intros [= <-]; congruence | eauto].
  - eauto.
  - eauto.
  - intros k1 k2 p1 p2. rewrite !lookup_insert.
    repeat case_decide; subst; try done.
    + intros [= <-] Hq Heq. apply Hpb in Hq. lia.
    + intros Hq [= <-] Heq. apply Hpb in Hq. lia.
    + eauto.
  - eauto.
  - intros k1 k2 p1 p2. rewrite lookup_insert. case_decide; [|eauto].
    intros [= <-] Hq. apply Hvb in Hq. lia.
  - intros k q. rewrite lookup_insert. case_decide.
    + intros [= <-]. lia.
    + intros Hq. apply Hpb in Hq. lia.
  - intros k q Hq. apply Hvb in Hq. lia.
  - intros id r Hr. apply Hsb in Hr. lia.
Qed.

Lemma consistent_register_version st st' href p :
  consistent st ->
  npmVersionRequests st !! href = None ->
  vr_href p = href -> vr_id p = nextPromise st ->
  npmVersionRequests st' = <[href := p]> (npmVersionRequests st) ->
  npmRequests st' = npmRequests st ->
  settled st' = settled st -> nextPromise st' = S (nextPromise st) ->
  consistent st'.
Proof.
  intros [Hpk Hpp Hvk Hvp Hpi Hvi Hci Hpb Hvb Hsb] Hnone Hpath Hid H1 H2 H3 H4.
  assert (settled st !! nextPromise st = None) as Hfresh.
  { destruct (settled st !! nextPromise st) eqn:Hs; [|done].
    apply Hsb in Hs. lia. }
  constructor; rewrite ?H1, ?H2, ?H3, ?H4.
  - eauto.
  - eauto.
  - intros k q. rewrite lookup_insert. case_decide; [intros [= <-]; congruence | eauto].
  - intros k q. rewrite lookup_insert. case_decide; [intros [= <-]; congruence | eauto].
  - eauto.
  - intros k1 k2 p1 p2. rewrite !lookup_insert.
    repeat case_decide; subst; try done.
    + intros [= <-] Hq Heq. apply Hvb in Hq. lia.
    + intros Hq [= <-] Heq. apply Hvb in Hq. lia.
    + eauto.
  - intros k1 k2 p1 p2 Hq. rewrite lookup_insert. case_decide; [|eauto].
    intros [= <-]. apply Hpb in Hq. lia.
  - intros k q Hq. apply Hpb in Hq. lia.
  - intros k q. rewrite lookup_insert. case_decide.
    + intros [= <-]. lia.
    + intros Hq. apply Hvb in Hq. lia.
  - intros id r Hr. apply Hsb in Hr. lia.
Qed.

Lemma consistent_settle_populate st st' p r :
  consistent st ->
  npmRequests st !! pr_path p = Some p ->
  npmRequests st' = delete (pr_path p) (npmRequests st) ->
  npmVersionRequests st' = npmVersionRequests st ->
  settled st' = <[pr_id p := r]> (settled st) -> nextPromise st' = nextPromise st ->
  consistent st'.
Proof.
  intros [Hpk Hpp Hvk Hvp Hpi Hvi Hci Hpb Hvb Hsb] Hp H1 H2 H3 H4.
  constructor; rewrite ?H1, ?H2, ?H3, ?H4.
  - intros k q. rewrite lookup_delete. case_decide; [done|eauto].
  - intros k q. rewrite lookup_delete. case_decide; [done|]. intros Hq.
    rewrite lookup_insert_ne; [eauto|]. intros Heq. eauto.
  - eauto.
  - intros k q Hq. rewrite lookup_insert_ne; [eauto|].
    intros Heq. by eapply Hci.
  - intros k1 k2 p1 p2. rewrite !lookup_delete. repeat case_decide; try done. eauto.
  - eauto.
  - intros k1 k2 p1 p2. rewrite lookup_delete. case_decide; [done|eauto].
  - intros k q. rewrite lookup_delete. case_decide; [done|eauto].
  - eauto.
  - intros id r'. rewrite lookup_insert. case_decide; [|eauto].
    intros _. subst. eauto.
Qed.

Lemma consistent_settle_version st st' p r :
  consistent st ->
  npmVersionRequests st !! vr_href p = Some p ->
  npmVersionRequests st' = delete (vr_href p) (npmVersionRequests st) ->
  npmRequests st' = npmRequests st ->
  settled st' = <[vr_id p := r]> (settled st) -> nextPromise st' = nextPromise st ->
  consistent st'.
Proof.
  intros [Hpk Hpp Hvk Hvp Hpi Hvi Hci Hpb Hvb Hsb] Hp H1 H2 H3 H4.
  constructor; rewrite ?H1, ?H2, ?H3, ?H4.
  - eauto.
  - intros k q Hq. rewrite lookup_insert_ne; [eauto|].
    intros Heq. symmetry in Heq. by eapply Hci.
  - intros k q. rewrite lookup_delete. case_decide; [done|eauto].
  - intros k q. rewrite lookup_delete. case_decide; [done|]. intros Hq.
    rewrite lookup_insert_ne; [eauto|]. intros Heq. eauto.
  - eauto.
  - intros k1 k2 p1 p2. rewrite !lookup_delete. repeat case_decide; try done. eauto.
  - intros k1 k2 p1 p2 Hq. rewrite lookup_delete. case_decide; [done|eauto].
  - eauto.
  - intros k q. rewrite lookup_delete. case_decide; [done|eauto].
  - intros id r'. rewrite lookup_insert. case_decide; [|eauto].
    intros _. subst. eauto.
Qed.


Section Coalescing.

Variable E : Externals.

(** ** What a call of [populateNpmCache] does *)

Lemma populateNpmCache_call_invalid root path st :
  startsWith (str "/_npm/") path = false ->
  populateNpmCache_call E root path st
  = (Now (Throw (ErrorMsg (str "invalid npm path: " ++ path))), st).
Proof. intros H. unfold populateNpmCache_call. by rewrite H. Qed.

Lemma populateNpmCache_call_cached root path st :
  startsWith (str "/_npm/") path = true ->
  existsSync st (cacheFilePath E root path) = true ->
  populateNpmCache_call E root path st = (Now (Ok (cacheFilePath E root path)), st).
Proof. intros H Hx. unfold populateNpmCache_call. by rewrite H, Hx. Qed.

Lemma populateNpmCache_call_pending root path st promise :
  startsWith (str "/_npm/") path = true ->
  existsSync st (cacheFilePath E root path) = false ->
  npmRequests st !! path = Some promise ->
  populateNpmCache_call E root path st = (Awaits promise, st).
Proof. intros H Hx Hp. unfold populateNpmCache_call. by rewrite H, Hx, Hp. Qed.

Lemma populateNpmCache_call_new root path st :
  startsWith (str "/_npm/") path = true ->
  existsSync st (cacheFilePath E root path) = false ->
  npmRequests st !! path = None ->
  let href := str "https://cdn.jsdelivr.net/npm/" ++ resolveNpmSpecifier path in
  let promise := mkPopulateRequest (nextPromise st) root path (cacheFilePath E root path) href in
  exists st',
    populateNpmCache_call E root path st = (Awaits promise, st')
    /\ log st' = log st ++ [Fetch href]
    /\ npmRequests st' = <[path := promise]> (npmRequests st)
    /\ npmVersionRequests st' = npmVersionRequests st
    /\ settled st' = settled st
    /\ nextPromise st' = S (nextPromise st)
    /\ disk st' = disk st
    /\ npmVersionCache st' = npmVersionCache st.
Proof.
  intros H Hx Hp href promise. unfold populateNpmCache_call. rewrite H, Hx, Hp. simpl.
  eexists. split; [reflexivity|]. simpl. done.
Qed.

(** A call while a request for the path is pending sends nothing. *)
Lemma populateNpmCache_call_coalesces root path st promise :
  npmRequests st !! path = Some promise ->
  snd (populateNpmCache_call E root path st) = st.
Proof.
  intros Hp. unfold populateNpmCache_call.
  destruct (startsWith (str "/_npm/") path); [|done]. simpl.
  destruct (existsSync st (cacheFilePath E root path)); [done|]. by rewrite Hp.
Qed.

(** ** What the settlement of a populate promise does *)

Lemma populateNpmCache_settle_effect promise st :
  let '(outcome, st') := populateNpmCache_settle E promise st in
  npmRequests st' = delete (pr_path promise) (npmRequests st)
  /\ npmVersionRequests st' = npmVersionRequests st
  /\ settled st' = <[pr_id promise := outcome]> (settled st)
  /\ nextPromise st' = nextPromise st
  /\ npmVersionCache st' = npmVersionCache st
  /\ fetches st' = fetches st.
Proof.
  unfold populateNpmCache_settle.
  destruct (resp_ok (ext_fetch E (pr_href promise))); simpl; [|done].
  destruct (ext_persist E (pr_root promise) (pr_path promise)); simpl.
  - repeat split. unfold fetches. simpl. rewrite !List.filter_app. simpl. by rewrite !app_nil_r.
  - repeat split. unfold fetches. simpl. rewrite !List.filter_app. simpl. by rewrite !app_nil_r.
Qed.

(** ** What a call of [resolveNpmVersion] does *)

Lemma getVersionCache_bookkeeping root st :
  let st' := snd (getVersionCache E root st) in
  npmRequests st' = npmRequests st /\ npmVersionRequests st' = npmVersionRequests st
  /\ settled st' = settled st /\ nextPromise st' = nextPromise st /\ disk st' = disk st.
Proof.
  unfold getVersionCache. destruct (npmVersionCache st); [done|].
  by destruct (initializeNpmVersionCache E root).
Qed.

Lemma resolveNpmVersion_call_effect root specifier st :
  let '(r, st') := resolveNpmVersion_call E root specifier st in
  npmRequests st' = npmRequests st /\ settled st' = settled st /\ disk st' = disk st
  /\ ((npmVersionRequests st' = npmVersionRequests st /\ nextPromise st' = nextPromise st
       /\ fetches st' = fetches st
       /\ match r with
          | Now _ => True
          | Awaits promise =>
              npmVersionRequests st
              !! resolvedHref (name specifier) (range specifier) = Some promise
          end)
      \/ (exists promise,
            r = Awaits promise
            /\ npmVersionRequests st !! resolvedHref (name specifier) (range specifier) = None
            /\ vr_href promise = resolvedHref (name specifier) (range specifier)
            /\ vr_id promise = nextPromise st
            /\ npmVersionRequests st'
               = <[resolvedHref (name specifier) (range specifier) := promise]>
                   (npmVersionRequests st)
            /\ nextPromise st' = S (nextPromise st)
            /\ fetches st'
               = fetches st ++ [Fetch (resolvedHref (name specifier) (range specifier))])).
Proof.
  unfold resolveNpmVersion_call.
  destruct (truthy (range specifier) && isExactVersion (template (range specifier))).
  { repeat split. left. done. }
  pose proof (getVersionCache_bookkeeping root st) as (B1 & B2 & B3 & B4 & B5).
  pose proof (getVersionCache_fetches E root st) as Bf.
  destruct (getVersionCache E root st) as [[cache|e] st1]; simpl in *.
  2:{ repeat split; try done. left. done. }
  destruct (scanVersions E (indexGet cache (name specifier)) (range specifier)).
  { repeat split; try done. left. done. }
  destruct (npmVersionRequests st1 !! _) as [promise|] eqn:Hreg.
  { repeat split; try done. left. rewrite <- B2. done. }
  simpl. repeat split; try done. right. eexists. split; [reflexivity|]. simpl.
  rewrite <- B2, <- B4. repeat split; try done.
  unfold fetches in *. simpl. rewrite List.filter_app, Bf. done.
Qed.

Lemma resolveNpmVersion_settle_effect promise st :
  let '(outcome, st') := resolveNpmVersion_settle E promise st in
  npmVersionRequests st' = delete (vr_href promise) (npmVersionRequests st)
  /\ npmRequests st' = npmRequests st
  /\ settled st' = <[vr_id promise := outcome]> (settled st)
  /\ nextPromise st' = nextPromise st
  /\ fetches st' = fetches st.
Proof.
  unfold resolveNpmVersion_settle.
  destruct (resp_ok (ext_fetch E (vr_href promise))); simpl; [|done].
  destruct (truthy (resp_version (ext_fetch E (vr_href promise)))); simpl; [|done].
  destruct (match vr_versions promise with Some _ => _ | None => _ end); simpl; [|done].
  unfold cacheSet. destruct (npmVersionCache st) as [[cache|e]|]; simpl;
    (repeat split; unfold fetches; simpl; rewrite ?List.filter_app; simpl; by rewrite ?app_nil_r).
Qed.

(** ** The bookkeeping stays coherent *)

Lemma perform_consistent a st :
  consistent st -> enabled a st -> consistent (perform E a st).
Proof.
  intros Hc Hen. destruct a as [root path|promise|root specifier|promise]; simpl in *.
  - unfold populateNpmCache_call.
    destruct (startsWith (str "/_npm/") path) eqn:Hv; [|done]. simpl.
    destruct (existsSync st (cacheFilePath E root path)) eqn:Hx; [done|].
    destruct (npmRequests st !! path) eqn:Hp; [done|]. simpl.
    eapply (consistent_register_populate st _ path); try done; done.
  - pose proof (populateNpmCache_settle_effect promise st) as Heff.
    destruct (populateNpmCache_settle E promise st) as [outcome st'].
    destruct Heff as (H1 & H2 & H3 & H4 & _). simpl.
    by eapply consistent_settle_populate.
  - pose proof (resolveNpmVersion_call_effect root specifier st) as Heff.
    destruct (resolveNpmVersion_call E root specifier st) as [r st'].
    destruct Heff as (H1 & H2 & _ & [(H3 & H4 & _)|(p & _ & Hn & Hh & Hi & H3 & H4 & _)]); simpl.
    + by eapply consistent_ext.
    + by eapply consistent_register_version.
  - pose proof (resolveNpmVersion_settle_effect promise st) as Heff.
    destruct (resolveNpmVersion_settle E promise st) as [outcome st'].
    destruct Heff as (H1 & H2 & H3 & H4 & _). simpl.
    by eapply consistent_settle_version.
Qed.

Lemma reachable_consistent st : reachable E st -> consistent st.
Proof.
  induction 1 as [st Hi|st a _ IH Hen]; [by apply initial_consistent|by apply perform_consistent].
Qed.

End Coalescing.


Section Stability.

Variable E : Externals.

Lemma allEnabled_consistent actions st :
  consistent st -> allEnabled E actions st -> consistent (performAll E actions st).
Proof.
  revert st. induction actions as [|a actions IH]; intros st Hc; simpl; [done|].
  intros [Hen Hrest]. apply IH; [by apply perform_consistent|done].
Qed.

(** A pending populate promise stays registered until it settles. *)
Lemma populate_registered_step a st path promise :
  enabled a st -> a <> SettlePopulate promise ->
  npmRequests st !! path = Some promise ->
  npmRequests (perform E a st) !! path = Some promise.
Proof.
  intros Hen Hne Hreg. destruct a as [root path'|promise'|root specifier|promise']; simpl in *.
  - unfold populateNpmCache_call.
    destruct (startsWith (str "/_npm/") path'); [|done]. simpl.
    destruct (existsSync st (cacheFilePath E root path')); [done|].
    destruct (npmRequests st !! path') eqn:Hp; [done|]. simpl.
    rewrite lookup_insert_ne; [done|]. intros ->. congruence.
  - pose proof (populateNpmCache_settle_effect E promise' st) as Heff.
    destruct (populateNpmCache_settle E promise' st) as [outcome st']. simpl.
    destruct Heff as (-> & _). simpl.
    rewrite lookup_delete_ne; [done|]. intros Heq. rewrite Heq in Hen. congruence.
  - pose proof (resolveNpmVersion_call_effect E root specifier st) as Heff.
    destruct (resolveNpmVersion_call E root specifier st) as [r st']. simpl.
    destruct Heff as (-> & _). done.
  - pose proof (resolveNpmVersion_settle_effect E promise' st) as Heff.
    destruct (resolveNpmVersion_settle E promise' st) as [outcome st']. simpl.
    destruct Heff as (_ & -> & _). done.
Qed.

Lemma populate_registered actions st path promise :
  allEnabled E actions st -> SettlePopulate promise ∉ actions ->
  npmRequests st !! path = Some promise ->
  npmRequests (performAll E actions st) !! path = Some promise.
Proof.
  revert st. induction actions as [|a actions IH]; intros st; simpl; [done|].
  intros [Hen Hrest] Hnot Hreg. apply not_elem_of_cons in Hnot as [Hne Hnot].
  apply IH; [done|done|]. apply populate_registered_step; done.
Qed.

(** A pending version promise stays registered until it settles. *)
Lemma version_registered_step a st href promise :
  enabled a st -> a <> SettleVersion promise ->
  npmVersionRequests st !! href = Some promise ->
  npmVersionRequests (perform E a st) !! href = Some promise.
Proof.
  intros Hen Hne Hreg. destruct a as [root path'|promise'|root specifier|promise']; simpl in *.
  - unfold populateNpmCache_call.
    destruct (startsWith (str "/_npm/") path'); [|done]. simpl.
    destruct (existsSync st (cacheFilePath E root path')); [done|].
    destruct (npmRequests st !! path') eqn:Hp; done.
  - pose proof (populateNpmCache_settle_effect E promise' st) as Heff.
    destruct (populateNpmCache_settle E promise' st) as [outcome st']. simpl.
    destruct Heff as (_ & -> & _). done.
  - pose proof (resolveNpmVersion_call_effect E root specifier st) as Heff.
    destruct (resolveNpmVersion_call E root specifier st) as [r st']. simpl.
    destruct Heff as (_ & _ & _ & [(-> & _)|(p & _ & Hn & _ & _ & -> & _)]); simpl; [done|].
    rewrite lookup_insert_ne; [done|]. intros Heq. rewrite Heq in Hn. congruence.
  - pose proof (resolveNpmVersion_settle_effect E promise' st) as Heff.
    destruct (resolveNpmVersion_settle E promise' st) as [outcome st']. simpl.
    destruct Heff as (-> & _). simpl.
    rewrite lookup_delete_ne; [done|]. intros Heq. rewrite Heq in Hen. congruence.
Qed.

Lemma version_registered actions st href promise :
  allEnabled E actions st -> SettleVersion promise ∉ actions ->
  npmVersionRequests st !! href = Some promise ->
  npmVersionRequests (performAll E actions st) !! href = Some promise.
Proof.
  revert st. induction actions as [|a actions IH]; intros st; simpl; [done|].
  intros [Hen Hrest] Hnot Hreg. apply not_elem_of_cons in Hnot as [Hne Hnot].
  apply IH; [done|done|]. apply version_registered_step; done.
Qed.

(** The outcome of a settled promise never changes. *)
Lemma settled_step a st id r :
  consistent st -> enabled a st ->
  settled st !! id = Some r -> settled (perform E a st) !! id = Some r.
Proof.
  intros Hc Hen Hs. destruct a as [root path'|promise'|root specifier|promise']; simpl in *.
  - unfold populateNpmCache_call.
    destruct (startsWith (str "/_npm/") path'); [|done]. simpl.
    destruct (existsSync st (cacheFilePath E root path')); [done|].
    destruct (npmRequests st !! path') eqn:Hp; done.
  - pose proof (populateNpmCache_settle_effect E promise' st) as Heff.
    destruct (populateNpmCache_settle E promise' st) as [outcome st']. simpl.
    destruct Heff as (_ & _ & -> & _). simpl.
    rewrite lookup_insert_ne; [done|]. intros Heq.
    apply (populate_pending _ Hc) in Hen. congruence.
  - pose proof (resolveNpmVersion_call_effect E root specifier st) as Heff.
    destruct (resolveNpmVersion_call E root specifier st) as [r' st']. simpl.
    destruct Heff as (_ & -> & _). done.
  - pose proof (resolveNpmVersion_settle_effect E promise' st) as Heff.
    destruct (resolveNpmVersion_settle E promise' st) as [outcome st']. simpl.
    destruct Heff as (_ & _ & -> & _). simpl.
    rewrite lookup_insert_ne; [done|]. intros Heq.
    apply (version_pending _ Hc) in Hen. congruence.
Qed.

Lemma settled_stable actions st id r :
  consistent st -> allEnabled E actions st ->
  settled st !! id = Some r -> settled (performAll E actions st) !! id = Some r.
Proof.
  revert st. induction actions as [|a actions IH]; intros st Hc; simpl; [done|].
  intros [Hen Hrest] Hs. apply IH; [by apply perform_consistent|done|].
  by apply settled_step.
Qed.

End Stability.

(** ** Exact versions *)

Section Exact.

Variable E : Externals.
Variable root : jsstring.
Hypothesis remote_exact : remoteExact E.
Hypothesis rsort_exact : rsortKeepsExact E.

Lemma getVersionCache_fst st st' :
  npmVersionCache st' = npmVersionCache st ->
  fst (getVersionCache E root st') = fst (getVersionCache E root st).
Proof.
  intros H. unfold getVersionCache. rewrite H.
  destruct (npmVersionCache st); [done|]. by destruct (initializeNpmVersionCache E root).
Qed.

Lemma getVersionCache_after st :
  npmVersionCache (snd (getVersionCache E root st)) = Some (fst (getVersionCache E root st)).
Proof.
  unfold getVersionCache. destruct (npmVersionCache st) eqn:H; [done|].
  by destruct (initializeNpmVersionCache E root).
Qed.

Lemma exactState_ext st st' :
  npmVersionCache st' = npmVersionCache st ->
  npmVersionRequests st' = npmVersionRequests st ->
  exactState E root st -> exactState E root st'.
Proof.
  intros H1 H2 [Hc Hr]. split.
  - intros cache st1 Hg. pose proof (getVersionCache_fst st st' H1) as Hf.
    rewrite Hg in Hf. simpl in Hf.
    destruct (getVersionCache E root st) as [r st2] eqn:Hg2. simpl in Hf. subst r.
    by eapply Hc.
  - rewrite H2. done.
Qed.

Lemma exactState_cached st cache :
  exactState E root st -> fst (getVersionCache E root st) = Ok cache -> exactIndex cache.
Proof.
  intros [Hc _] Hf. destruct (getVersionCache E root st) as [r st1] eqn:Hg.
  simpl in Hf. subst r. by eapply Hc.
Qed.

Lemma scanVersions_exact cache nm range version :
  exactIndex cache -> scanVersions E (indexGet cache nm) range = Some version ->
  exists s, version = Some s /\ isExactVersion s = true.
Proof.
  intros Hex. unfold scanVersions. destruct (indexGet cache nm) as [versions|] eqn:Hg; [|done].
  intros Hf. apply find_some in Hf as [Hin _].
  specialize (Hex _ _ Hg). unfold exactVersions in Hex. rewrite Forall_forall in Hex.
  apply Hex. by apply list_elem_of_In.
Qed.

Lemma resolveNpmVersion_settle_outcome promise st version st' :
  resolveNpmVersion_settle E promise st = (Ok version, st') ->
  isExactVersion version = true.
Proof.
  unfold resolveNpmVersion_settle.
  destruct (resp_ok (ext_fetch E (vr_href promise))); simpl; [|done].
  destruct (truthy (resp_version (ext_fetch E (vr_href promise)))) eqn:Ht; simpl; [|done].
  destruct (match vr_versions promise with Some _ => _ | None => _ end); simpl; [|done].
  intros [= <- _]. by apply remote_exact.
Qed.

(** The call keeps the state exact. *)
Lemma resolveNpmVersion_call_exactState specifier st :
  exactState E root st ->
  exactState E root (snd (resolveNpmVersion_call E root specifier st)).
Proof.
  intros Hex. unfold resolveNpmVersion_call.
  destruct (truthy (range specifier) && isExactVersion (template (range specifier))); [done|].
  pose proof (getVersionCache_after st) as Hafter.
  pose proof (getVersionCache_bookkeeping E root st) as (_ & B2 & _).
  assert (exactState E root (snd (getVersionCache E root st))) as Hex1.
  { destruct Hex as [Hc Hr]. split.
    - intros cache st1. unfold getVersionCache at 1. rewrite Hafter.
      intros [= Hf _]. by eapply exactState_cached.
    - rewrite B2. done. }
  destruct (getVersionCache E root st) as [[cache|e] st1] eqn:Hg; simpl in *; [|done].
  destruct (scanVersions E (indexGet cache (name specifier)) (range specifier)); [done|].
  destruct (npmVersionRequests st1 !! _) as [promise|] eqn:Hreg; [done|]. simpl.
  destruct Hex1 as [Hc1 Hr1]. split.
  - intros cache' st2. unfold getVersionCache. simpl. rewrite Hafter.
    intros [= <- _]. eapply exactState_cached; [exact Hex|]. by rewrite Hg.
  - simpl. intros href p vs. rewrite lookup_insert. case_decide; [|by eauto].
    intros [= <-]. simpl. intros Hv.
    assert (exactIndex cache) as Hcache by (eapply exactState_cached; [exact Hex|by rewrite Hg]).
    by eapply Hcache.
Qed.

Lemma exactVersions_snoc versions version :
  exactVersions versions -> isExactVersion version = true ->
  exactVersions (versions ++ [Some version]).
Proof.
  intros Hv He. apply Forall_app. split; [done|]. constructor; [eauto|constructor].
Qed.

(** The settlement of a registered promise keeps the state exact. *)
Lemma resolveNpmVersion_settle_exactState promise st :
  exactState E root st ->
  npmVersionRequests st !! vr_href promise = Some promise ->
  exactState E root (snd (resolveNpmVersion_settle E promise st)).
Proof.
  intros Hex Hreg.
  assert (forall st1, npmVersionCache st1 = npmVersionCache st ->
            npmVersionRequests st1 = delete (vr_href promise) (npmVersionRequests st) ->
            exactState E root st1) as Hsame.
  { intros st1 H1 H2. destruct Hex as [Hc Hr]. split.
    - intros cache st2 Hg. pose proof (getVersionCache_fst st st1 H1) as Hf.
      rewrite Hg in Hf. simpl in Hf.
      destruct (getVersionCache E root st) as [r st3] eqn:Hg2. simpl in Hf. subst r.
      by eapply Hc.
    - rewrite H2. intros href p vs. rewrite lookup_delete. case_decide; [done|by eauto]. }
  unfold resolveNpmVersion_settle.
  destruct (resp_ok (ext_fetch E (vr_href promise))); simpl; [|by apply Hsame].
  destruct (truthy (resp_version (ext_fetch E (vr_href promise)))) eqn:Ht; simpl;
    [|by apply Hsame].
  set (version := template (resp_version (ext_fetch E (vr_href promise)))).
  assert (isExactVersion version = true) as Hv by (by apply remote_exact).
  destruct (match vr_versions promise with Some _ => _ | None => _ end) as [sorted|e] eqn:Hsort;
    simpl; [|by apply Hsame].
  assert (exactVersions sorted) as Hsorted.
  { destruct (vr_versions promise) as [versions|] eqn:Hvs.
    - eapply rsort_exact; [exact Hsort|]. apply exactVersions_snoc; [|done].
      destruct Hex as [_ Hr]. by eapply Hr.
    - injection Hsort as <-. constructor; [eauto|constructor]. }
  unfold cacheSet. destruct (npmVersionCache st) as [[cache|e]|] eqn:Hcache; simpl.
  - destruct Hex as [Hc Hr]. split.
    + intros cache' st2. unfold getVersionCache. simpl. intros [= <- _].
      intros key versions. rewrite indexGet_indexSet.
      destruct (eqs _ key); [by intros [= <-]|].
      eapply (Hc cache st). unfold getVersionCache. by rewrite Hcache.
    + simpl. intros href p vs. rewrite lookup_delete. case_decide; [done|by eauto].
  - by apply Hsame.
  - by apply Hsame.
Qed.

(** One resolution, run to its end. *)
Lemma resolveNpmVersion_exact specifier st :
  consistent st -> exactState E root st ->
  let '(r, st') := resolveNpmVersion E root specifier st in
  consistent st' /\ exactState E root st'
  /\ forall version, r = Ok version -> exists s, version = Some s /\ isExactVersion s = true.
Proof.
  intros Hc Hex. unfold resolveNpmVersion.
  pose proof (perform_consistent E (CallVersion root specifier) st Hc I) as Hc1.
  pose proof (resolveNpmVersion_call_exactState specifier st Hex) as Hex1.
  pose proof (resolveNpmVersion_call_effect E root specifier st) as Heff.
  simpl in Hc1.
  assert (forall version : option jsstring,
            fst (resolveNpmVersion_call E root specifier st) = Now (Ok version) ->
            exists s, version = Some s /\ isExactVersion s = true) as Hnow.
  { unfold resolveNpmVersion_call.
    destruct (truthy (range specifier) && isExactVersion (template (range specifier))) eqn:Hx.
    - simpl. intros version [= <-]. apply andb_true_iff in Hx as [Ht Hx].
      destruct (range specifier) as [r|]; [|done]. eauto.
    - destruct (getVersionCache E root st) as [[cache|e] st1] eqn:Hg; [|done].
      destruct (scanVersions E (indexGet cache (name specifier)) (range specifier)) eqn:Hs.
      + simpl. intros version [= <-]. eapply scanVersions_exact; [|exact Hs].
        eapply exactState_cached; [exact Hex|by rewrite Hg].
      + by destruct (npmVersionRequests st1 !! _). }
  destruct (resolveNpmVersion_call E root specifier st) as [[r|promise] st1]; simpl in *.
  { split; [done|]. split; [done|]. intros version ->. by apply Hnow. }
  assert (npmVersionRequests st1 !! vr_href promise = Some promise) as Hreg.
  { destruct Heff as (_ & _ & _ & [(H3 & _ & _ & Hr)|(p & [= <-] & _ & Hh & _ & H3 & _)]).
    - rewrite H3. pose proof (version_keyed _ Hc _ _ Hr) as Hk. by rewrite Hk.
    - rewrite H3, Hh. apply lookup_insert_eq. }
  unfold awaitVersion. rewrite (version_pending _ Hc1 _ _ Hreg).
  pose proof (perform_consistent E (SettleVersion promise) st1 Hc1 Hreg) as Hc2.
  pose proof (resolveNpmVersion_settle_exactState promise st1 Hex1 Hreg) as Hex2.
  simpl in Hc2.
  destruct (resolveNpmVersion_settle E promise st1) as [[version|e] st2] eqn:Hset; simpl in *.
  - split; [done|]. split; [done|]. intros v [= <-]. eexists. split; [done|].
    by eapply resolveNpmVersion_settle_outcome.
  - done.
Qed.

Lemma resolveNpmImport_exact specifier st :
  consistent st -> exactState E root st ->
  let '(r, st') := resolveNpmImport E root specifier st in
  consistent st' /\ exactState E root st'
  /\ forall p, r = Ok p -> exactCachePath specifier p.
Proof.
  intros Hc Hex. unfold resolveNpmImport, bind, ret.
  set (spec := mkSpecifier _ _ _).
  pose proof (resolveNpmVersion_exact spec st Hc Hex) as Hv.
  destruct (resolveNpmVersion E root spec st) as [[version|e] st1]; [|by destruct Hv as (? & ? & _)].
  destruct Hv as (Hc1 & Hex1 & Hv). split; [done|]. split; [done|].
  intros p [= <-]. destruct (Hv version eq_refl) as (s & -> & Hs).
  exists s. split; [done|]. reflexivity.
Qed.

End Exact.


Section Resolver.

Variable E : Externals.
Variable root : jsstring.
Hypothesis remote_exact : remoteExact E.
Hypothesis rsort_exact : rsortKeepsExact E.

Lemma populateNpmCache_preserves path st :
  consistent st -> exactState E root st ->
  let st' := snd (populateNpmCache E root path st) in
  consistent st' /\ exactState E root st'.
Proof.
  intros Hc Hex. unfold populateNpmCache.
  pose proof (perform_consistent E (CallPopulate root path) st Hc I) as Hc1. simpl in Hc1.
  assert (exactState E root (snd (populateNpmCache_call E root path st))) as Hex1.
  { unfold populateNpmCache_call.
    destruct (startsWith (str "/_npm/") path); [|done]. simpl.
    destruct (existsSync st (cacheFilePath E root path)); [done|].
    destruct (npmRequests st !! path); [done|]. simpl.
    by eapply exactState_ext; [| |exact Hex]. }
  assert (forall promise, fst (populateNpmCache_call E root path st) = Awaits promise ->
            npmRequests (snd (populateNpmCache_call E root path st)) !! pr_path promise
            = Some promise) as Hreg.
  { unfold populateNpmCache_call.
    destruct (startsWith (str "/_npm/") path); [|done]. simpl.
    destruct (existsSync st (cacheFilePath E root path)); [done|].
    destruct (npmRequests st !! path) as [p|] eqn:Hp; simpl.
    - intros promise [= <-]. by rewrite (populate_keyed _ Hc _ _ Hp).
    - intros promise [= <-]. simpl. apply lookup_insert_eq. }
  destruct (populateNpmCache_call E root path st) as [[r|promise] st1]; simpl in *; [done|].
  specialize (Hreg promise eq_refl).
  unfold awaitPopulate. rewrite (populate_pending _ Hc1 _ _ Hreg).
  pose proof (perform_consistent E (SettlePopulate promise) st1 Hc1 Hreg) as Hc2. simpl in Hc2.
  split; [done|].
  pose proof (populateNpmCache_settle_effect E promise st1) as Heff.
  destruct (populateNpmCache_settle E promise st1) as [outcome st2]. simpl.
  destruct Heff as (_ & H2 & _ & _ & H5 & _).
  by eapply exactState_ext; [| |exact Hex1].
Qed.

Lemma resolveDependencies_exact self pkg dependencies resolutions st :
  consistent st -> exactState E root st ->
  (forall key p, resolutions !! key = Some p -> exists specifier, exactCachePath specifier p) ->
  let '(r, st') := resolveDependencies E root self pkg dependencies resolutions st in
  consistent st' /\ exactState E root st'
  /\ forall resolutions', r = Ok resolutions' ->
       forall key p, resolutions' !! key = Some p -> exists specifier, exactCachePath specifier p.
Proof.
  revert resolutions st. induction dependencies as [|dependency rest IH];
    intros resolutions st Hc Hex Hres; cbn [resolveDependencies].
  - unfold ret. split; [done|]. split; [done|]. by intros ? [= <-].
  - destruct (dependencyRange self _ pkg) as [range|]; [|by apply IH].
    unfold bind.
    pose proof (resolveNpmImport_exact E root remote_exact rsort_exact
                  (dependencySpecifier
                     (name (parseNpmSpecifier (sliceFrom npmPrefixLength dependency))) range
                     (default (str "+esm")
                        (path (parseNpmSpecifier (sliceFrom npmPrefixLength dependency)))))
                  st Hc Hex) as Himp.
    destruct (resolveNpmImport E root _ st) as [[resolved|e] st1].
    + destruct Himp as (Hc1 & Hex1 & Hp). apply IH; [done|done|].
      intros key p. rewrite lookup_insert. case_decide; [|by eauto].
      intros [= <-]. eexists. by apply Hp.
    + destruct Himp as (Hc1 & Hex1 & _). done.
Qed.

Lemma getResolutions_exact path body st :
  consistent st -> exactState E root st ->
  let '(r, st') := getResolutions E root path body st in
  consistent st' /\ exactState E root st'
  /\ forall resolutions, r = Ok resolutions ->
       forall key p, resolutions !! key = Some p -> exists specifier, exactCachePath specifier p.
Proof.
  intros Hc Hex. unfold getResolutions.
  destruct (0 <? length (findDependencies E root path st body)).
  2:{ split; [done|]. split; [done|]. intros ? [= <-] key p. by rewrite lookup_empty. }
  unfold bind.
  pose proof (populateNpmCache_preserves
                (manifestPath (parseNpmSpecifier (resolveNpmSpecifier path))) st Hc Hex)
    as [Hc1 Hex1].
  destruct (populateNpmCache E root _ st) as [[pkgPath|e] st1]; simpl in *; [|done].
  destruct (ext_readManifest E pkgPath) as [pkg|e]; [|done].
  apply resolveDependencies_exact; [done|done|].
  intros key p. by rewrite lookup_empty.
Qed.

End Resolver.

(** ** Dependencies *)

Section Dependencies.

Variable E : Externals.

Lemma findImportSource_self root self st source dependencies value :
  value ∈ findImportSource E root self st source dependencies ->
  value ∈ dependencies
  \/ (startsWith (str "/npm/") value = true
      /\ name (parseNpmSpecifier (sliceFrom npmPrefixLength value)) <> self).
Proof.
  unfold findImportSource.
  destruct (startsWith (str "/npm/") (lit_value source)) eqn:Hp; [|by left].
  destruct (eqs _ self) eqn:Hs; [by left|].
  destruct (existsSync st _); [by left|].
  unfold setAdd. case_bool_decide; [by left|].
  intros [Hin|Hin%list_elem_of_singleton]%elem_of_app; [by left|]. subst value.
  right. split; [done|]. by apply eqs_false.
Qed.

Lemma findVisit_self root self st dependencies node value :
  value ∈ findVisit E root self st dependencies node ->
  value ∈ dependencies
  \/ (startsWith (str "/npm/") value = true
      /\ name (parseNpmSpecifier (sliceFrom npmPrefixLength value)) <> self).
Proof.
  unfold findVisit, findImport, findImportMetaResolve.
  destruct node as [[]|[]|[]|[[]|]|[] [|[] args]|]; simpl;
    first [apply findImportSource_self | by left].
Qed.

Lemma fold_findVisit_self root self st body dependencies value :
  value ∈ fold_left (findVisit E root self st) body dependencies ->
  value ∈ dependencies
  \/ (startsWith (str "/npm/") value = true
      /\ name (parseNpmSpecifier (sliceFrom npmPrefixLength value)) <> self).
Proof.
  revert dependencies. induction body as [|node body IH]; intros dependencies; simpl; [by left|].
  intros [Hin|?]%IH; [|by right]. by apply findVisit_self in Hin.
Qed.

(** The pairs of the override table. *)
Lemma dependencyRange_arrow self pkg :
  self = str "arquero" \/ self = str "@uwdata/mosaic-core" \/ self = str "@duckdb/duckdb-wasm" ->
  dependencyRange self (str "apache-arrow") pkg = Some (str "latest").
Proof. intros [-> | [-> | ->]]; reflexivity. Qed.

Lemma dependencyRange_duckdb pkg :
  dependencyRange (str "@uwdata/mosaic-core") (str "@duckdb/duckdb-wasm") pkg
  = Some (str "1.28.0").
Proof. reflexivity. Qed.

Lemma resolveDependencies_cons root self pkg dependency rest resolutions range :
  dependencyRange self (name (parseNpmSpecifier (sliceFrom npmPrefixLength dependency))) pkg
  = Some range ->
  resolveDependencies E root self pkg (dependency :: rest) resolutions
  = (let dep := parseNpmSpecifier (sliceFrom npmPrefixLength dependency) in
     let* resolved := resolveNpmImport E root
                        (dependencySpecifier (name dep) range (default (str "+esm") (path dep))) in
     resolveDependencies E root self pkg rest (<[dependency := resolved]> resolutions)).
Proof. intros H. cbn [resolveDependencies]. by rewrite H. Qed.

End Dependencies.

(** ** Sorted index lists *)

Section Sorted.

Variable E : Externals.

Lemma getVersionCache_sorted root st cache st1 :
  sortedState E st -> getVersionCache E root st = (Ok cache, st1) ->
  rsortedIndex E cache /\ sortedState E st1.
Proof.
  intros Hs. unfold getVersionCache. destruct (npmVersionCache st) as [r|] eqn:Hc.
  - intros [= -> <-]. split; [by apply Hs|done].
  - destruct (initializeNpmVersionCache E root) as [r evs] eqn:Hi.
    intros [= -> <-]. apply initializeNpmVersionCache_rsorted in Hi.
    split; [done|]. intros cache'. simpl. by intros [= <-].
Qed.

Lemma perform_sorted a st : sortedState E st -> sortedState E (perform E a st).
Proof.
  intros Hs. destruct a as [root path|promise|root specifier|promise]; simpl.
  - unfold populateNpmCache_call.
    destruct (startsWith (str "/_npm/") path); [|done]. simpl.
    destruct (existsSync st (cacheFilePath E root path)); [done|].
    destruct (npmRequests st !! path); done.
  - pose proof (populateNpmCache_settle_effect E promise st) as Heff.
    destruct (populateNpmCache_settle E promise st) as [outcome st']. simpl.
    destruct Heff as (_ & _ & _ & _ & H5 & _). unfold sortedState. by rewrite H5.
  - unfold resolveNpmVersion_call.
    destruct (truthy (range specifier) && isExactVersion (template (range specifier))); [done|].
    destruct (getVersionCache E root st) as [[cache|e] st1] eqn:Hg.
    + destruct (getVersionCache_sorted root st cache st1 Hs Hg) as [_ Hs1].
      destruct (scanVersions E _ _); [done|].
      destruct (npmVersionRequests st1 !! _); done.
    + simpl. unfold getVersionCache in Hg. destruct (npmVersionCache st) as [r|] eqn:Hc.
      * by injection Hg as -> <-.
      * destruct (initializeNpmVersionCache E root) as [r evs].
        injection Hg as -> <-. intros cache. simpl. done.
  - unfold resolveNpmVersion_settle.
    destruct (resp_ok (ext_fetch E (vr_href promise))); simpl; [|done].
    destruct (truthy (resp_version (ext_fetch E (vr_href promise)))); simpl; [|done].
    destruct (match vr_versions promise with Some _ => _ | None => _ end) as [sorted|e] eqn:Hsort;
      simpl; [|done].
    assert (rsorted E sorted) as Hsorted.
    { destruct (vr_versions promise); [left; eauto|]. injection Hsort as <-. right. eauto. }
    unfold cacheSet. destruct (npmVersionCache st) as [[cache|e]|] eqn:Hc; simpl; try done.
    intros cache'. simpl. intros [= <-] key versions. rewrite indexGet_indexSet.
    destruct (eqs _ key); [by intros [= <-]|]. by apply Hs.
Qed.

Lemma reachable_sorted st : reachable E st -> sortedState E st.
Proof.
  induction 1 as [st (Hi & _)|st a _ IH Hen]; [|by apply perform_sorted].
  intros cache. by rewrite Hi.
Qed.

(** A call sends a request only in the third tier. *)
Lemma resolveNpmVersion_call_sends root specifier st :
  fetches (snd (resolveNpmVersion_call E root specifier st)) <> fetches st ->
  truthy (range specifier) && isExactVersion (template (range specifier)) = false
  /\ exists cache st1,
       getVersionCache E root st = (Ok cache, st1)
       /\ scanVersions E (indexGet cache (name specifier)) (range specifier) = None
       /\ npmVersionRequests st1 !! resolvedHref (name specifier) (range specifier) = None.
Proof.
  unfold resolveNpmVersion_call.
  destruct (truthy (range specifier) && isExactVersion (template (range specifier))); [done|].
  pose proof (getVersionCache_fetches E root st) as Hf.
  destruct (getVersionCache E root st) as [[cache|e] st1]; simpl in *; [|done].
  destruct (scanVersions E _ _) eqn:Hscan; [done|].
  destruct (npmVersionRequests st1 !! _) eqn:Hreg; [done|].
  intros _. split; [done|]. exists cache, st1. done.
Qed.

End Sorted.

(** * The statements of the specification *)

(** ** Specifiers *)

(** C2 (amended).  Formatting the parse of a text gives the text back
    whenever the parse yields a range and a path that are both non-empty
    strings.  (A range or a path that is present but empty is dropped by
    [formatNpmSpecifier], which tests their truthiness.) *)
Theorem formatNpmSpecifier_parseNpmSpecifier (text : jsstring) :
  truthy (range (parseNpmSpecifier text)) = true ->
  truthy (path (parseNpmSpecifier text)) = true ->
  formatNpmSpecifier (parseNpmSpecifier text) = text.
Proof.
  destruct (split_nonempty slash text) as (p & ps & Hs).
  pose proof (join_split slash text) as Hj. rewrite Hs in Hj.
  destruct (startsWith (str "@") text) eqn:Hat.
  - destruct ps as [|q qs].
    + rewrite (parse_scoped_alone _ _ Hat Hs). simpl. done.
    + rewrite (parse_scoped_full _ _ _ _ Hat Hs). cbv zeta.
      destruct (0 <? indexOf at_sign 1 (p ++ slash :: q))%Z eqn:Hr; [|done].
      destruct qs as [|q' qs']; [done|].
      change (0 <? length (q' :: qs')) with true. cbn [range path].
      intros [r [[= <-] Hne]]%truthy_Some [pa [[= <-] Hpne]]%truthy_Some.
      rewrite format_parts by done.
      rewrite app_comm_cons, app_assoc, name_at_range by done.
      rewrite <- Hj. rewrite !join_cons. by rewrite <- app_assoc.
  - rewrite (parse_unscoped _ _ _ Hat Hs). cbv zeta.
    destruct (0 <? indexOf at_sign 1 p)%Z eqn:Hr; [|done].
    destruct ps as [|q qs]; [done|].
    change (0 <? length (q :: qs)) with true. cbn [range path].
    intros [r [[= <-] Hne]]%truthy_Some [pa [[= <-] Hpne]]%truthy_Some.
    rewrite format_parts by done.
    rewrite app_comm_cons, app_assoc, name_at_range by done.
    by rewrite <- Hj.
Qed.

Lemma formatNpmSpecifier_parseNpmSpecifier_witness :
  truthy (range (parseNpmSpecifier (str "@scope/pkg@^1.2.3/dist/x.js"))) = true
  /\ truthy (path (parseNpmSpecifier (str "@scope/pkg@^1.2.3/dist/x.js"))) = true
  /\ formatNpmSpecifier (parseNpmSpecifier (str "@scope/pkg@^1.2.3/dist/x.js"))
     = str "@scope/pkg@^1.2.3/dist/x.js".
Proof.
  split; [reflexivity|]. split; [reflexivity|].
  apply formatNpmSpecifier_parseNpmSpecifier; reflexivity.
Defined.

(** C2 as stated fails: the parse of [foo@/bar] has all three fields (its
    range is the empty string), and formatting it gives [foo/bar]. *)
Lemma formatNpmSpecifier_drops_empty_range :
  ~ (forall text,
       is_Some (range (parseNpmSpecifier text)) ->
       is_Some (path (parseNpmSpecifier text)) ->
       formatNpmSpecifier (parseNpmSpecifier text) = text).
Proof.
  intros H. specialize (H (str "foo@/bar")).
  assert (parseNpmSpecifier (str "foo@/bar") = mkSpecifier (str "foo") (Some []) (Some (str "bar")))
    as Hp by reflexivity.
  rewrite Hp in H. simpl in H.
  specialize (H (ltac:(eexists; reflexivity)) (ltac:(eexists; reflexivity))).
  vm_compute in H. discriminate H.
Qed.

(** When the parse is the input as a bare name. *)
Lemma parseNpmSpecifier_name_only_iff (text : jsstring) :
  parseNpmSpecifier text = mkSpecifier text None None
  <-> indexOf at_sign 1 text = (-1)%Z
      /\ length (split slash text) = (if startsWith (str "@") text then 2 else 1).
Proof.
  destruct (split_nonempty slash text) as (p & ps & Hs).
  pose proof (join_split slash text) as Hj. rewrite Hs in Hj. rewrite Hs.
  destruct (startsWith (str "@") text) eqn:Hat.
  - destruct ps as [|q qs].
    + rewrite (parse_scoped_alone _ _ Hat Hs). cbv zeta. simpl in Hj. subst p.
      split; [|intros [_ [=]]].
      destruct (0 <? indexOf at_sign 1 (text ++ [slash]))%Z; [done|].
      intros [= Heq]. apply (f_equal length) in Heq. rewrite length_app in Heq. simpl in Heq. lia.
    + rewrite (parse_scoped_full _ _ _ _ Hat Hs). cbv zeta.
      destruct qs as [|q' qs'].
      * simpl in Hj. rewrite Hj. change (0 <? length []) with false. cbv iota.
        destruct (0 <? indexOf at_sign 1 text)%Z eqn:Hr.
        -- split; [done|]. intros [Hi _]. apply indexOf_not_positive in Hi. congruence.
        -- split; [|done]. intros _. split; [by apply indexOf_not_positive|done].
      * change (0 <? length (q' :: qs')) with true. cbv iota.
        split; [by destruct (0 <? _)%Z|]. intros [_ [=]].
  - rewrite (parse_unscoped _ _ _ Hat Hs). cbv zeta.
    destruct ps as [|q qs].
    + simpl in Hj. subst p. change (0 <? length []) with false. cbv iota.
      destruct (0 <? indexOf at_sign 1 text)%Z eqn:Hr.
      * split; [done|]. intros [Hi _]. apply indexOf_not_positive in Hi. congruence.
      * split; [|done]. intros _. split; [by apply indexOf_not_positive|done].
    + change (0 <? length (q :: qs)) with true. cbv iota.
      split; [by destruct (0 <? _)%Z|]. intros [_ [=]].
Qed.


(** C9 (amended).  [parseNpmSpecifier] is a total function: no operation in
    it can raise on a string.  For an input with no [@] after its first unit
    and no [/] (exactly one [/] when it starts with [@]) it returns the
    input as the name, with range and path absent. *)
Theorem parseNpmSpecifier_name_only (text : jsstring) :
  indexOf at_sign 1 text = (-1)%Z ->
  length (split slash text) = (if startsWith (str "@") text then 2 else 1) ->
  parseNpmSpecifier text = mkSpecifier text None None.
Proof. intros Hat Hslash. by apply parseNpmSpecifier_name_only_iff. Qed.

Lemma parseNpmSpecifier_name_only_witness :
  indexOf at_sign 1 (str "lodash") = (-1)%Z
  /\ length (split slash (str "lodash")) = (if startsWith (str "@") (str "lodash") then 2 else 1)
  /\ parseNpmSpecifier (str "lodash") = mkSpecifier (str "lodash") None None.
Proof.
  split; [reflexivity|]. split; [reflexivity|].
  apply parseNpmSpecifier_name_only; reflexivity.
Defined.

(** C9 as stated fails on malformed inputs: a lone slash gets an empty name
    and an empty path, and a name followed by a bare [@] gets an empty
    range; neither result is the input as a bare name. *)
Lemma parseNpmSpecifier_malformed_not_name_only :
  parseNpmSpecifier (str "/") = mkSpecifier [] None (Some [])
  /\ parseNpmSpecifier (str "/") <> mkSpecifier (str "/") None None
  /\ parseNpmSpecifier (str "foo@") = mkSpecifier (str "foo") (Some []) None
  /\ parseNpmSpecifier (str "foo@") <> mkSpecifier (str "foo@") None None.
Proof. repeat split; vm_compute; congruence. Qed.

Example parse_scoped_example :
  parseNpmSpecifier (str "@scope/pkg@^1.2.3/dist/x.js")
  = mkSpecifier (str "@scope/pkg") (Some (str "^1.2.3")) (Some (str "dist/x.js")).
Proof. reflexivity. Qed.

Example parse_bare_example :
  parseNpmSpecifier (str "lodash") = mkSpecifier (str "lodash") None None.
Proof. reflexivity. Qed.

(** ** Rewriting *)

(** C1 (amended).  For a source that parses, [rewriteNpmImports] returns the
    input in which exactly the string literals that are the source of an
    import, export-from or dynamic import, or the first argument of an
    [import.meta.resolve] call, and that [resolve] gives a new value, are
    replaced by the JSON-quoted new value, every other unit unchanged; from
    that text the first line (trailing or not) that begins with the
    source-map comment prefix is then removed, up to the end of the line and
    one line feed, and nothing is removed when no line begins with it.
    [lits] are the changed literals in source order. *)
Theorem rewriteNpmImports_replaces_literals
    (parseProgram : jsstring -> Result Program) (input : jsstring)
    (resolve : jsstring -> jsstring) (body : Program) (lits : list StringLiteral) :
  parseProgram input = Ok body ->
  lits ≡ₚ filter (fun l => changes resolve l = true) (rewritableLiterals body) ->
  disjointRanges 0 (length input) lits ->
  rewriteNpmImports parseProgram input resolve
  = Ok (stripSourceMappingURL true (fold_right (replaceLiteral resolve) input lits))
  /\ (forall s n,
        lineStartAt true s n ->
        startsWith sourceMappingPrefix (drop n s) = true ->
        (forall i, i < n -> lineStartAt true s i ->
                   startsWith sourceMappingPrefix (drop i s) = false) ->
        stripSourceMappingURL true s
        = take n s ++ dropLine (drop (n + length sourceMappingPrefix) s))
  /\ (forall s,
        (forall i, lineStartAt true s i -> startsWith sourceMappingPrefix (drop i s) = false) ->
        stripSourceMappingURL true s = s).
Proof.
  intros Hparse Hperm Hdis. split; [|split].
  - unfold rewriteNpmImports. rewrite Hparse. f_equal.
    by apply rewriteProgram_splices.
  - intros s n. apply stripSourceMappingURL_first.
  - intros s. apply stripSourceMappingURL_none.
Qed.

Lemma rewriteNpmImports_replaces_literals_witness :
  Sample.parseProgram Sample.plainSource = Ok Sample.plainBody
  /\ [Sample.plainImport]
     ≡ₚ filter (fun l => changes Sample.resolve l = true) (rewritableLiterals Sample.plainBody)
  /\ disjointRanges 0 (length Sample.plainSource) [Sample.plainImport]
  /\ rewriteNpmImports Sample.parseProgram Sample.plainSource Sample.resolve
     = Ok (str "import " ++ 34%N :: str "../d3@7.8.5/+esm.js"
           ++ 34%N :: str "; const s = 'unrelated';").
Proof.
  assert (Sample.parseProgram Sample.plainSource = Ok Sample.plainBody) as H1 by reflexivity.
  assert ([Sample.plainImport]
          ≡ₚ filter (fun l => changes Sample.resolve l = true)
               (rewritableLiterals Sample.plainBody)) as H2 by (vm_compute; reflexivity).
  assert (disjointRanges 0 (length Sample.plainSource) [Sample.plainImport]) as H3
    by (vm_compute; repeat split; lia).
  split; [exact H1|]. split; [exact H2|]. split; [exact H3|].
  rewrite (proj1 (rewriteNpmImports_replaces_literals
                    Sample.parseProgram Sample.plainSource Sample.resolve
                    Sample.plainBody [Sample.plainImport] H1 H2 H3)).
  reflexivity.
Defined.

(** C1 as stated fails: a source-map comment that is the first line of the
    module, not a trailing one, is removed as well. *)
Lemma rewriteNpmImports_strips_leading_comment :
  rewriteNpmImports Sample.parseProgram Sample.commentFirst id
  = Ok (str "let a = 1;" ++ [10%N])
  /\ stripTrailingSourceMappingURL true Sample.commentFirst = Sample.commentFirst
  /\ rewriteNpmImports Sample.parseProgram Sample.commentFirst id
     <> Ok (stripTrailingSourceMappingURL true Sample.commentFirst).
Proof. repeat split; vm_compute; congruence. Qed.

(** ** The cache on disk *)

(** C5.  When the file of a path is on disk already, [populateNpmCache]
    returns its path at once and leaves the whole state as it is: nothing is
    logged, so nothing is fetched; a second call returns the same path. *)
Theorem populateNpmCache_cached (E : Externals) (root path : jsstring) (st : State) :
  startsWith (str "/_npm/") path = true ->
  existsSync st (cacheFilePath E root path) = true ->
  populateNpmCache_call E root path st = (Now (Ok (cacheFilePath E root path)), st)
  /\ populateNpmCache E root path st = (Ok (cacheFilePath E root path), st)
  /\ (let* first := populateNpmCache E root path in populateNpmCache E root path) st
     = (Ok (cacheFilePath E root path), st).
Proof.
  intros Hv Hx.
  pose proof (populateNpmCache_call_cached E root path st Hv Hx) as Hcall.
  assert (populateNpmCache E root path st = (Ok (cacheFilePath E root path), st)) as Hrun
    by (unfold populateNpmCache; by rewrite Hcall).
  split; [done|]. split; [done|]. unfold bind. by rewrite Hrun.
Qed.

Lemma populateNpmCache_cached_witness :
  startsWith (str "/_npm/") Sample.d3Path = true
  /\ existsSync Sample.cached (cacheFilePath Sample.externals Sample.root Sample.d3Path) = true
  /\ populateNpmCache Sample.externals Sample.root Sample.d3Path Sample.cached
     = (Ok (str "/project/.observablehq/cache/_npm/d3@7.8.5/+esm.js"), Sample.cached).
Proof.
  assert (startsWith (str "/_npm/") Sample.d3Path = true) as H1 by reflexivity.
  assert (existsSync Sample.cached (cacheFilePath Sample.externals Sample.root Sample.d3Path)
          = true) as H2 by (vm_compute; reflexivity).
  split; [exact H1|]. split; [exact H2|].
  exact (proj1 (proj2 (populateNpmCache_cached Sample.externals Sample.root Sample.d3Path
                         Sample.cached H1 H2))).
Defined.

(** ** The version index *)

(** C10.  When the cache directory does not exist, the index is empty and
    the first resolution goes on to the registry; a failure of [readdir]
    other than ENOENT, on the cache directory or on the directory of a
    scope, is rethrown. *)
Theorem initializeNpmVersionCache_enoent (E : Externals) (root : jsstring) :
  let cacheDir := ext_join E [root; str ".observablehq"; str "cache"; str "_npm"] in
  (ext_readdir E cacheDir = Throw (SystemError (str "ENOENT")) ->
     initializeNpmVersionCache E root = (Ok [], [Readdir cacheDir])
     /\ forall st specifier,
          npmVersionCache st = None ->
          truthy (range specifier) && isExactVersion (template (range specifier)) = false ->
          npmVersionRequests st !! resolvedHref (name specifier) (range specifier) = None ->
          exists promise st',
            resolveNpmVersion_call E root specifier st = (Awaits promise, st')
            /\ log st' = log st ++ [Readdir cacheDir;
                                    Fetch (resolvedHref (name specifier) (range specifier))])
  /\ (forall e, ext_readdir E cacheDir = Throw e -> isEnoent e = false ->
                initializeNpmVersionCache E root = (Throw e, [Readdir cacheDir]))
  /\ (forall entries e cache evs,
        ext_readdir E cacheDir = Ok entries ->
        scanEntries E cacheDir entries [] [Readdir cacheDir] = (Some e, cache, evs) ->
        isEnoent e = false ->
        initializeNpmVersionCache E root = (Throw e, evs)).
Proof.
  intros cacheDir. split; [|split].
  - intros Hr. pose proof (initializeNpmVersionCache_missing E root Hr) as Hinit.
    split; [exact Hinit|]. intros st specifier Hnone Hne Hreg.
    pose proof (getVersionCache_unset E root st Hnone) as Hg. rewrite Hinit in Hg. simpl in Hg.
    pose proof (resolveNpmVersion_call_remote E root specifier st _ _ Hne Hg eq_refl) as Hcall.
    simpl in Hcall. rewrite Hreg in Hcall. destruct Hcall as (st2 & Hcall & Hlog & _).
    eexists _, st2. split; [exact Hcall|]. rewrite Hlog. simpl. by rewrite <- app_assoc.
  - intros e. apply initializeNpmVersionCache_rethrows.
  - intros entries e cache evs. apply initializeNpmVersionCache_rethrows_nested.
Qed.

Lemma initializeNpmVersionCache_enoent_witness :
  ext_readdir Sample.freshExternals Sample.cacheDir = Throw (SystemError (str "ENOENT"))
  /\ initializeNpmVersionCache Sample.freshExternals Sample.root
     = (Ok [], [Readdir Sample.cacheDir]).
Proof.
  assert (ext_readdir Sample.freshExternals
            (ext_join Sample.freshExternals
               [Sample.root; str ".observablehq"; str "cache"; str "_npm"])
          = Throw (SystemError (str "ENOENT"))) as H by reflexivity.
  split; [exact H|].
  exact (proj1 (proj1 (initializeNpmVersionCache_enoent Sample.freshExternals Sample.root) H)).
Defined.

(** ** Version resolution *)



(** ** Dependencies *)

(** C8.  Every member of the dependency set of a module is a CDN specifier
    whose package name differs from the module's own: a self-reference is
    never added, so it never triggers the loading of the manifest or a
    resolution. *)
Theorem dependencies_exclude_self (E : Externals) (root path : jsstring) (st : State)
    (body : Program) (value : jsstring) :
  value ∈ findDependencies E root path st body ->
  startsWith (str "/npm/") value = true
  /\ name (parseNpmSpecifier (sliceFrom npmPrefixLength value))
     <> name (parseNpmSpecifier (resolveNpmSpecifier path)).
Proof.
  unfold findDependencies. intros [Hin|?]%fold_findVisit_self; [|done].
  by apply elem_of_nil in Hin.
Qed.

Lemma dependencies_exclude_self_witness :
  findDependencies Sample.externals Sample.root Sample.arqueroPath Sample.start Sample.arqueroBody
  = [str "/npm/apache-arrow@12/+esm"]
  /\ name (parseNpmSpecifier (sliceFrom npmPrefixLength (str "/npm/apache-arrow@12/+esm")))
     <> name (parseNpmSpecifier (resolveNpmSpecifier Sample.arqueroPath)).
Proof.
  assert (findDependencies Sample.externals Sample.root Sample.arqueroPath Sample.start
            Sample.arqueroBody = [str "/npm/apache-arrow@12/+esm"]) as H
    by (vm_compute; reflexivity).
  split; [exact H|].
  apply (dependencies_exclude_self Sample.externals Sample.root Sample.arqueroPath Sample.start
           Sample.arqueroBody).
  rewrite H. apply list_elem_of_here.
Defined.



(** The scenario from end to end: the module of arquero imports Arrow at 12,
    its manifest declares [^11.0.0], and the registry is asked for
    [latest]. *)
Example arquero_scenario :
  let '(resolutions, st) :=
    getResolutions Sample.externals Sample.root Sample.arqueroPath Sample.arqueroBody
      Sample.start in
  resolutions = Ok {[ str "/npm/apache-arrow@12/+esm" := str "/_npm/apache-arrow@13.0.0/+esm.js" ]}
  /\ fetches st
     = [Fetch (str "https://cdn.jsdelivr.net/npm/arquero@5.0.0/package.json");
        Fetch (str "https://data.jsdelivr.com/v1/packages/npm/apache-arrow/resolved?specifier=latest")].
Proof. vm_compute. split; reflexivity. Qed.

(** ** Cache paths *)


Lemma sample_remoteExact : remoteExact Sample.freshExternals.
Proof.
  intros href. simpl. unfold Sample.fetch.
  destruct (startsWith (str "https://data.jsdelivr.com/") href); simpl; [reflexivity|done].
Qed.

Lemma sample_rsortKeepsExact : rsortKeepsExact Sample.freshExternals.
Proof. intros l l'. simpl. by intros [= <-]. Qed.

Lemma sample_start_consistent : consistent Sample.start.
Proof. apply initial_consistent. by repeat split. Qed.

Lemma sample_start_exactState : exactState Sample.freshExternals Sample.root Sample.start.
Proof.
  split.
  - intros cache st1. vm_compute. intros [= <- _]. intros key versions. done.
  - intros href p vs. simpl. by rewrite lookup_empty.
Qed.



(** ** Coalescing *)



(** Two concurrent calls for the module of d3: one request. *)
Example two_calls_one_fetch :
  let '(first, st1) :=
    populateNpmCache_call Sample.externals Sample.root Sample.d3Path Sample.start in
  let '(second, st2) :=
    populateNpmCache_call Sample.externals Sample.root Sample.d3Path st1 in
  first = second
  /\ fetches st2 = [Fetch (str "https://cdn.jsdelivr.net/npm/d3@7.8.5/+esm")].
Proof. vm_compute. split; reflexivity. Qed.

(** * Further properties of the code *)

Lemma split_app sep a b : split sep (a ++ sep :: b) = split sep a ++ split sep b.
Proof.
  induction a as [|c a IH]; simpl.
  - by rewrite N.eqb_refl.
  - destruct (N.eqb c sep); [by rewrite IH|].
    rewrite IH. destruct (split_nonempty sep a) as (p & ps & ->). done.
Qed.

Lemma split_single sep s : length (split sep s) = 1 -> split sep s = [s].
Proof.
  intros Hl. pose proof (join_split sep s) as Hj.
  destruct (split sep s) as [|p [|q qs]]; simpl in *; try done. by subst.
Qed.

Lemma split_pair sep s :
  length (split sep s) = 2 -> exists a b, split sep s = [a; b] /\ s = a ++ sep :: b.
Proof.
  intros Hl. pose proof (join_split sep s) as Hj.
  destruct (split sep s) as [|a [|b [|c cs]]]; simpl in *; try done. eauto.
Qed.

Lemma split_pair_parts sep a b :
  split sep (a ++ sep :: b) = [a; b] -> split sep a = [a] /\ split sep b = [b].
Proof.
  rewrite split_app. intros Hab.
  assert (length (split sep a) = 1 /\ length (split sep b) = 1) as [Ha Hb].
  { apply (f_equal length) in Hab. rewrite length_app in Hab. simpl in Hab.
    destruct (split_nonempty sep a) as (a1 & as' & Ha1).
    destruct (split_nonempty sep b) as (b1 & bs' & Hb1).
    rewrite Ha1, Hb1 in *. simpl in *. lia. }
  split; by apply split_single.
Qed.

Lemma split_single_app sep a b :
  split sep a = [a] -> split sep b = [b] -> split sep (a ++ b) = [a ++ b].
Proof.
  revert b. induction a as [|c a IH]; intros b; simpl; [done|].
  destruct (N.eqb c sep); [done|].
  destruct (split_nonempty sep a) as (p & ps & Hs). rewrite Hs.
  intros [= -> ->] Hb. by rewrite (IH b Hs Hb).
Qed.

Lemma split_single_cons sep c s :
  c <> sep -> split sep s = [s] -> split sep (c :: s) = [c :: s].
Proof.
  intros Hne Hs. simpl. rewrite Hs. by destruct (N.eqb_spec c sep).
Qed.

Lemma find_unit_app_None c a b :
  find_unit c a = None -> find_unit c (a ++ b) = (fun k => length a + k) <$> find_unit c b.
Proof.
  induction a as [|d a IH]; simpl.
  - intros _. by destruct (find_unit c b).
  - destruct (N.eqb d c); [done|].
    destruct (find_unit c a); [done|]. intros _. rewrite IH by done.
    by destruct (find_unit c b).
Qed.

Lemma indexOf_absent_app c nm r :
  nm <> [] -> indexOf c 1 nm = (-1)%Z ->
  indexOf c 1 (nm ++ c :: r) = Z.of_nat (length nm).
Proof.
  destruct nm as [|d nm]; [done|]. intros _. unfold indexOf. simpl.
  rewrite !drop_0.
  destruct (find_unit c nm) eqn:Hf; [lia|]. intros _.
  rewrite find_unit_app_None by done. simpl. rewrite N.eqb_refl. simpl. f_equal. lia.
Qed.

Lemma indexOf_absent_nil c nm :
  indexOf c 1 nm = (-1)%Z -> (0 <? indexOf c 1 nm)%Z = false.
Proof. intros ->. done. Qed.

Lemma startsWith_app_nonempty p s t :
  s <> [] -> length p = 1 -> startsWith p (s ++ t) = startsWith p s.
Proof.
  destruct p as [|a [|b p]]; try done. destruct s as [|c s]; [done|]. intros _ _.
  unfold startsWith. simpl. done.
Qed.

(** The name-and-range segment is split back into name and range. *)
Lemma namerange_split nm (r : option jsstring) :
  nm <> [] -> indexOf at_sign 1 nm = (-1)%Z ->
  match r with Some r => r <> [] | None => True end ->
  let namerange := nm ++ match r with Some r => at_sign :: r | None => [] end in
  (if (0 <? indexOf at_sign 1 namerange)%Z
   then slice 0 (Z.to_nat (indexOf at_sign 1 namerange)) namerange else namerange) = nm
  /\ (if (0 <? indexOf at_sign 1 namerange)%Z
      then Some (sliceFrom (Z.to_nat (indexOf at_sign 1 namerange) + 1) namerange) else None) = r.
Proof.
  intros Hne Hat Hr. destruct r as [r|]; cbv zeta.
  - rewrite indexOf_absent_app by done.
    assert (0 < length nm) by (destruct nm; [done|simpl; lia]).
    replace (0 <? Z.of_nat (length nm))%Z with true by (symmetry; apply Z.ltb_lt; lia).
    rewrite Nat2Z.id. unfold slice, sliceFrom. rewrite Nat.sub_0_r, drop_0.
    split.
    + by rewrite take_app_length.
    + f_equal. rewrite drop_app_add. done.
  - rewrite app_nil_r. by rewrite (indexOf_absent_nil _ _ Hat).
Qed.

(** Parsing undoes formatting: a well-formed specifier, formatted and parsed
    again, comes back field by field. *)
Theorem parseNpmSpecifier_formatNpmSpecifier (s : NpmSpecifier) :
  wellFormedSpecifier s -> parseNpmSpecifier (formatNpmSpecifier s) = s.
Proof.
  destruct s as [nm r p]. unfold wellFormedSpecifier. simpl.
  intros (Hne & Hat & Hslash & Hr & Hp).
  set (rangeText := match r with Some r => at_sign :: r | None => [] end).
  set (pathText := match p with Some p => slash :: p | None => [] end).
  assert (formatNpmSpecifier (mkSpecifier nm r p) = nm ++ rangeText ++ pathText) as Hfmt.
  { unfold formatNpmSpecifier, rangeText, pathText. simpl.
    destruct r as [[|c r]|]; [by destruct Hr| |]; destruct p as [[|d p]|]; done. }
  assert (split slash rangeText = [rangeText]) as Hrs.
  { unfold rangeText. destruct r as [r|]; [|done]. destruct Hr as [_ Hr].
    apply split_single_cons; [done|by apply split_single]. }
  assert (match r with Some r => r <> [] | None => True end) as Hr' by (destruct r; tauto).
  destruct (namerange_split nm r Hne Hat Hr') as [Hname Hrange]. fold rangeText in Hname, Hrange.
  assert (startsWith (str "@") (formatNpmSpecifier (mkSpecifier nm r p))
          = startsWith (str "@") nm) as Hstart.
  { rewrite Hfmt. by apply startsWith_app_nonempty. }
  assert ((if 0 <? length (match p with Some p => split slash p | None => [] end)
           then Some (join slash (match p with Some p => split slash p | None => [] end))
           else None) = p) as Hpath.
  { destruct p as [p|]; [|done]. destruct (split_nonempty slash p) as (q & qs & Hq).
    pose proof (join_split slash p) as Hj. rewrite Hq in *. simpl length. by rewrite Hj. }
  destruct (startsWith (str "@") nm) eqn:Hscoped.
  - destruct (split_pair slash nm Hslash) as (a & b & Hab & ->).
    destruct (split_pair_parts slash a b Hab) as [Ha Hb].
    assert (split slash (formatNpmSpecifier (mkSpecifier (a ++ slash :: b) r p))
            = a :: (b ++ rangeText) :: match p with Some p => split slash p | None => [] end)
      as Hsplit.
    { rewrite Hfmt. rewrite <- app_assoc. simpl. rewrite split_app, Ha. simpl. f_equal.
      unfold pathText. destruct p as [p|].
      - rewrite app_assoc, split_app. by rewrite (split_single_app _ _ _ Hb Hrs).
      - rewrite app_nil_r. by rewrite (split_single_app _ _ _ Hb Hrs). }
    rewrite (parse_scoped_full _ _ _ _ Hstart Hsplit). cbv zeta.
    replace (a ++ slash :: b ++ rangeText) with ((a ++ slash :: b) ++ rangeText)
      by (by rewrite <- app_assoc).
    by rewrite Hname, Hrange, Hpath.
  - assert (split slash nm = [nm]) as Hn by (by apply split_single).
    assert (split slash (formatNpmSpecifier (mkSpecifier nm r p))
            = (nm ++ rangeText) :: match p with Some p => split slash p | None => [] end)
      as Hsplit.
    { rewrite Hfmt. unfold pathText. destruct p as [p|].
      - rewrite app_assoc, split_app. by rewrite (split_single_app _ _ _ Hn Hrs).
      - rewrite app_nil_r. by rewrite (split_single_app _ _ _ Hn Hrs). }
    rewrite (parse_unscoped _ _ _ Hstart Hsplit). cbv zeta.
    by rewrite Hname, Hrange, Hpath.
Qed.

Lemma parseNpmSpecifier_formatNpmSpecifier_witness :
  wellFormedSpecifier (mkSpecifier (str "@scope/pkg") (Some (str "^1.2.3")) (Some (str "dist/x.js")))
  /\ parseNpmSpecifier
       (formatNpmSpecifier
          (mkSpecifier (str "@scope/pkg") (Some (str "^1.2.3")) (Some (str "dist/x.js"))))
     = mkSpecifier (str "@scope/pkg") (Some (str "^1.2.3")) (Some (str "dist/x.js")).
Proof.
  assert (wellFormedSpecifier
            (mkSpecifier (str "@scope/pkg") (Some (str "^1.2.3")) (Some (str "dist/x.js")))) as H
    by (repeat split; vm_compute; congruence).
  split; [exact H|]. exact (parseNpmSpecifier_formatNpmSpecifier _ H).
Defined.

Lemma startsWith_app p t : startsWith p (p ++ t) = true.
Proof. induction p as [|a p IH]; [by destruct t|]. unfold startsWith. simpl. fold startsWith.
  by rewrite N.eqb_refl, IH. Qed.

Lemma startsWith_inv p s : startsWith p s = true -> s = p ++ drop (length p) s.
Proof.
  revert s. induction p as [|a p IH]; intros s; [done|].
  destruct s as [|b s]; [done|]. unfold startsWith. fold startsWith.
  intros [H1 H2]%andb_true_iff. apply N.eqb_eq in H1 as ->. simpl. f_equal. by apply IH.
Qed.

Lemma endsWith_app t p : endsWith p (t ++ p) = true.
Proof. unfold endsWith. rewrite rev_app_distr. apply startsWith_app. Qed.

Lemma endsWith_inv p s : endsWith p s = true -> s = take (length s - length p) s ++ p.
Proof.
  unfold endsWith. intros H%startsWith_inv.
  apply (f_equal (@rev N)) in H. rewrite rev_involutive, rev_app_distr, rev_involutive in H.
  rewrite length_rev in H.
  remember (rev (drop (length p) (rev s))) as t eqn:Ht. clear Ht. subst s.
  rewrite length_app, Nat.add_sub, take_app_length. done.
Qed.

Lemma startsWith_app_cases p x y :
  startsWith p (x ++ y) = true ->
  startsWith p x = true \/ (length x < length p /\ startsWith x p = true).
Proof.
  revert x. induction p as [|a p IH]; intros x; [by left|].
  destruct x as [|c x]; [intros _; right; split; [simpl; lia|done]|].
  simpl app. unfold startsWith. fold startsWith.
  intros [Hac Hrest]%andb_true_iff. apply N.eqb_eq in Hac as ->.
  destruct (IH _ Hrest) as [Hl|[Hlen Hr]].
  - left. by rewrite N.eqb_refl.
  - right. split; [simpl; lia|]. by rewrite N.eqb_refl.
Qed.

Lemma endsWith_app_cases suffix a b :
  endsWith suffix (a ++ b) = true ->
  endsWith suffix b = true \/ (length b < length suffix /\ endsWith b suffix = true).
Proof.
  unfold endsWith. rewrite rev_app_distr. intros H%startsWith_app_cases.
  by rewrite !length_rev in H.
Qed.

Lemma replaceSuffix_app suffix by_ t :
  replaceSuffix suffix by_ (t ++ suffix) = t ++ by_.
Proof.
  unfold replaceSuffix. rewrite endsWith_app, length_app.
  rewrite take_app_length'; [done|lia].
Qed.

Lemma replaceSuffix_none suffix by_ s :
  endsWith suffix s = false -> replaceSuffix suffix by_ s = s.
Proof. intros H. unfold replaceSuffix. by rewrite H. Qed.

Lemma resolveNpmSpecifier_cache_path rest :
  resolveNpmSpecifier (str "/_npm/" ++ rest)
  = replaceSuffix (str "/+esm.js") (str "/+esm") rest.
Proof.
  unfold resolveNpmSpecifier. rewrite startsWith_app. by rewrite drop_app_length.
Qed.

(** The cache path built by [resolveNpmImport] is read back as the
    specifier it was built from. *)
Theorem resolveNpmSpecifier_inverts_cache_path (nameVersion p : jsstring) :
  endsWith (str "/+esm") (slash :: p) = true
  \/ (endsWith (str "+esm") p = false /\ endsWith (str "/+esm.js") (slash :: p) = false) ->
  resolveNpmSpecifier
    (str "/_npm/" ++ nameVersion ++ slash :: replaceSuffix (str "+esm") (str "+esm.js") p)
  = nameVersion ++ slash :: p.
Proof.
  intros Hp. rewrite resolveNpmSpecifier_cache_path.
  destruct Hp as [Hesm|[Hplain Hjs]].
  - apply endsWith_inv in Hesm.
    destruct (take (length (slash :: p) - length (str "/+esm")) (slash :: p)) as [|c T].
    + assert (p = str "+esm") as -> by (injection Hesm as Hp; exact Hp).
      change (replaceSuffix (str "+esm") (str "+esm.js") (str "+esm")) with (str "+esm.js").
      change (nameVersion ++ slash :: str "+esm.js") with (nameVersion ++ str "/+esm.js").
      rewrite replaceSuffix_app. reflexivity.
    + assert (p = T ++ str "/+esm") as -> by (injection Hesm as _ Hp; exact Hp).
      change (T ++ str "/+esm") with (T ++ [slash] ++ str "+esm").
      rewrite (app_assoc T). rewrite replaceSuffix_app.
      replace (nameVersion ++ slash :: (T ++ [slash]) ++ str "+esm.js")
        with ((nameVersion ++ slash :: T) ++ str "/+esm.js").
      2:{ change (str "/+esm.js") with ([slash] ++ str "+esm.js").
          rewrite <- ?app_assoc. simpl. by rewrite <- ?app_assoc. }
      rewrite replaceSuffix_app. change (str "/+esm") with ([slash] ++ str "+esm").
      rewrite <- ?app_assoc. simpl. by rewrite <- ?app_assoc.
  - rewrite (replaceSuffix_none _ _ p Hplain).
    apply replaceSuffix_none.
    destruct (endsWith (str "/+esm.js") (nameVersion ++ slash :: p)) eqn:He; [|done].
    apply endsWith_app_cases in He as [He|[Hshort He]]; [congruence|].
    exfalso. apply endsWith_inv in He.
    set (t := take (length (str "/+esm.js") - length (slash :: p)) (str "/+esm.js")) in He.
    assert (t <> []) as Ht.
    { intros Hnil. apply (f_equal length) in He. rewrite Hnil in He.
      change (length (str "/+esm.js")) with 8 in He, Hshort. simpl in He, Hshort. lia. }
    clearbody t.
    destruct t as [|c t]; [done|].
    do 8 (destruct t as [|? t]; [vm_compute in He; discriminate He|]).
    vm_compute in He; discriminate He.
Qed.

Lemma resolveNpmSpecifier_inverts_cache_path_witness :
  endsWith (str "/+esm") (slash :: str "+esm") = true
  /\ resolveNpmSpecifier (str "/_npm/d3@7.8.5/+esm.js") = str "d3@7.8.5/+esm".
Proof.
  assert (endsWith (str "/+esm") (slash :: str "+esm") = true) as H by reflexivity.
  split; [exact H|].
  exact (resolveNpmSpecifier_inverts_cache_path (str "d3@7.8.5") (str "+esm") (or_introl H)).
Defined.

Lemma populateNpmCache_call_href E root path st :
  startsWith (str "/_npm/") path = true ->
  existsSync st (cacheFilePath E root path) = false ->
  npmRequests st !! path = None ->
  fetches (snd (populateNpmCache_call E root path st))
  = fetches st ++ [Fetch (str "https://cdn.jsdelivr.net/npm/" ++ resolveNpmSpecifier path)].
Proof.
  intros Hv Hx Hn.
  destruct (populateNpmCache_call_new E root path st Hv Hx Hn) as (st' & -> & Hlog & _).
  simpl. unfold fetches. by rewrite Hlog, List.filter_app.
Qed.

(** The prefix swap of the returned function and [resolveNpmSpecifier] undo
    each other, so the file behind the swapped path is fetched from the CDN
    under the specifier as the module wrote it. *)
Theorem fallback_path_fetches_specifier (E : Externals) (resolutions : gmap jsstring jsstring)
    (s : jsstring) :
  resolutions !! (str "/npm/" ++ s) = None ->
  endsWith (str "/+esm") s = true
  \/ (endsWith (str "/+esm") (str "/npm/" ++ s) = false
      /\ endsWith (str "/+esm.js") s = false) ->
  let cachePath := resolvedSpecifier resolutions (str "/npm/" ++ s) in
  startsWith (str "/_npm/") cachePath = true
  /\ resolveNpmSpecifier cachePath = s
  /\ forall root st,
       existsSync st (cacheFilePath E root cachePath) = false ->
       npmRequests st !! cachePath = None ->
       fetches (snd (populateNpmCache_call E root cachePath st))
       = fetches st ++ [Fetch (str "https://cdn.jsdelivr.net/npm/" ++ s)].
Proof.
  intros Hnone Hs cachePath.
  assert (cachePath = str "/_npm/" ++ s
                      ++ (if endsWith (str "/+esm") (str "/npm/" ++ s) then str ".js" else []))
    as Hpath.
  { unfold cachePath, resolvedSpecifier. rewrite Hnone. unfold sliceFrom, npmPrefixLength.
    by rewrite (drop_app_length (str "/npm/") s). }
  assert (startsWith (str "/_npm/") cachePath = true) as Hstart
    by (rewrite Hpath; apply startsWith_app).
  assert (resolveNpmSpecifier cachePath = s) as Hback.
  { rewrite Hpath, resolveNpmSpecifier_cache_path.
    destruct Hs as [Hesm|[Hno Hjs]].
    - apply endsWith_inv in Hesm.
      set (t := take (length s - length (str "/+esm")) s) in Hesm.
      assert (endsWith (str "/+esm") (str "/npm/" ++ s) = true) as ->
        by (rewrite Hesm, app_assoc; apply endsWith_app).
      rewrite Hesm at 1. rewrite <- app_assoc.
      change (str "/+esm" ++ str ".js") with (str "/+esm.js").
      by rewrite replaceSuffix_app.
    - rewrite Hno, app_nil_r. by apply replaceSuffix_none. }
  split; [exact Hstart|]. split; [exact Hback|].
  intros root st Hx Hn. rewrite (populateNpmCache_call_href E root cachePath st Hstart Hx Hn).
  by rewrite Hback.
Qed.

Lemma fallback_path_fetches_specifier_witness :
  (∅ : gmap jsstring jsstring) !! (str "/npm/" ++ str "d3@7.8.5/+esm") = None
  /\ endsWith (str "/+esm") (str "d3@7.8.5/+esm") = true
  /\ resolveNpmSpecifier (resolvedSpecifier ∅ (str "/npm/" ++ str "d3@7.8.5/+esm"))
     = str "d3@7.8.5/+esm".
Proof.
  assert ((∅ : gmap jsstring jsstring) !! (str "/npm/" ++ str "d3@7.8.5/+esm") = None) as H1
    by reflexivity.
  assert (endsWith (str "/+esm") (str "d3@7.8.5/+esm") = true) as H2 by reflexivity.
  split; [exact H1|]. split; [exact H2|].
  exact (proj1 (proj2 (fallback_path_fetches_specifier Sample.externals ∅ (str "d3@7.8.5/+esm")
                         H1 (or_introl H2)))).
Defined.

Lemma rewriteProgram_unchanged body input resolve :
  (forall l, l ∈ rewritableLiterals body -> resolve (lit_value l) = lit_value l) ->
  rewriteProgram body input resolve = stripSourceMappingURL true input.
Proof.
  intros Hfix. unfold rewriteProgram. rewrite fold_rewriteVisit.
  assert (filter (fun l => changes resolve l = true) (rewritableLiterals body) = []) as ->.
  { induction (rewritableLiterals body) as [|l ls IH]; [done|].
    rewrite filter_cons_False.
    - apply IH. intros l' Hl'. apply Hfix. by right.
    - unfold changes. rewrite (Hfix l) by (by left). by rewrite eqs_refl. }
  reflexivity.
Qed.



(** A module with no CDN import is stored as it was fetched, the source-map
    comment apart, whatever the resolution map holds. *)
Theorem rewriteNpmImports_without_cdn_imports (E : Externals) (path input : jsstring)
    (resolutions : gmap jsstring jsstring) (body : Program) :
  ext_parseProgram E input = Ok body ->
  (forall l, l ∈ rewritableLiterals body -> startsWith (str "/npm/") (lit_value l) = false) ->
  rewriteNpmImports (ext_parseProgram E) input (dependencyResolver E path resolutions)
  = Ok (stripSourceMappingURL true input).
Proof.
  intros Hparse Hplain. unfold rewriteNpmImports. rewrite Hparse. f_equal.
  apply rewriteProgram_unchanged.
  intros l Hl. unfold dependencyResolver. by rewrite (Hplain l Hl).
Qed.

Lemma rewriteNpmImports_without_cdn_imports_witness :
  ext_parseProgram Scenario.externals Scenario.relativeSource = Ok Scenario.relativeBody
  /\ (forall l, l ∈ rewritableLiterals Scenario.relativeBody ->
        startsWith (str "/npm/") (lit_value l) = false)
  /\ rewriteNpmImports (ext_parseProgram Scenario.externals) Scenario.relativeSource
       (dependencyResolver Scenario.externals Sample.arqueroPath
          {[ str "/npm/apache-arrow@12/+esm" := str "/_npm/apache-arrow@13.0.0/+esm.js" ]})
     = Ok Scenario.relativeSource.
Proof.
  assert (ext_parseProgram Scenario.externals Scenario.relativeSource
          = Ok Scenario.relativeBody) as H1 by reflexivity.
  assert (forall l, l ∈ rewritableLiterals Scenario.relativeBody ->
            startsWith (str "/npm/") (lit_value l) = false) as H2.
  { intros l Hl. apply list_elem_of_singleton in Hl. subst l. reflexivity. }
  split; [exact H1|]. split; [exact H2|].
  exact (rewriteNpmImports_without_cdn_imports Scenario.externals Sample.arqueroPath
           Scenario.relativeSource _ Scenario.relativeBody H1 H2).
Defined.

Section Find.

Variable E : Externals.
Variables root self : jsstring.
Variable st : State.

Lemma findImportSource_cases l deps :
  (unresolvedImport E root self st (lit_value l)
   /\ findImportSource E root self st l deps = setAdd (lit_value l) deps)
  \/ (~ unresolvedImport E root self st (lit_value l)
      /\ findImportSource E root self st l deps = deps).
Proof.
  unfold findImportSource, unresolvedImport, dependencyDirectory.
  destruct (startsWith (str "/npm/") (lit_value l)); [|right; split; [by intros [? _]|done]].
  destruct (eqs _ self) eqn:Hs.
  { right. split; [|done]. intros (_ & Hne & _). by apply eqs_true in Hs. }
  apply eqs_false in Hs.
  destruct (existsSync st _) eqn:Hx.
  - right. split; [|done]. by intros (_ & _ & ?).
  - left. done.
Qed.

Lemma findVisit_literal deps node :
  findVisit E root self st deps node
  = match rewritableLiteral node with
    | Some l => findImportSource E root self st l deps
    | None => deps
    end.
Proof.
  unfold findVisit, rewritableLiteral, findImport, findImportMetaResolve.
  destruct node as [[]|[]|[]|[[]|]|[] [|[] args]|]; simpl; done.
Qed.

Lemma fold_findVisit body deps :
  fold_left (findVisit E root self st) body deps
  = fold_left (fun d l => findImportSource E root self st l d) (rewritableLiterals body) deps.
Proof.
  revert deps. induction body as [|node body IH]; intros deps; [done|].
  simpl. rewrite IH, findVisit_literal. unfold rewritableLiterals. simpl.
  by destruct (rewritableLiteral node).
Qed.

Lemma elem_of_setAdd value v set : value ∈ setAdd v set <-> value = v \/ value ∈ set.
Proof.
  unfold setAdd. case_bool_decide.
  - split; [by right|]. by intros [->|?].
  - rewrite elem_of_app, list_elem_of_singleton. tauto.
Qed.

Lemma NoDup_setAdd v set : NoDup set -> NoDup (setAdd v set).
Proof.
  intros Hnd. unfold setAdd. case_bool_decide; [done|].
  apply NoDup_app. split; [done|]. split; [|apply NoDup_singleton].
  intros x Hx Hv%list_elem_of_singleton. by subst.
Qed.

Lemma fold_findImportSource_elem lits deps value :
  value ∈ fold_left (fun d l => findImportSource E root self st l d) lits deps
  <-> value ∈ deps
      \/ exists l, l ∈ lits /\ lit_value l = value /\ unresolvedImport E root self st value.
Proof.
  revert deps. induction lits as [|l lits IH]; intros deps; simpl.
  - split; [by left|]. intros [?|(l & Hl & _)]; [done|]. by apply elem_of_nil in Hl.
  - rewrite IH. destruct (findImportSource_cases l deps) as [[Hq ->]|[Hq ->]].
    + rewrite elem_of_setAdd. split.
      * intros [[->|?]|(l' & Hl' & ? & ?)].
        -- right. exists l. split; [by left|done].
        -- by left.
        -- right. exists l'. split; [by right|done].
      * intros [?|(l' & [->|Hl']%elem_of_cons & Hv & Hu)].
        -- left. by right.
        -- left. by left.
        -- right. eauto.
    + split.
      * intros [?|(l' & Hl' & ? & ?)]; [by left|]. right. exists l'. split; [by right|done].
      * intros [?|(l' & [->|Hl']%elem_of_cons & Hv & Hu)]; [by left| |right; eauto].
        subst value. done.
Qed.

Lemma fold_findImportSource_NoDup lits deps :
  NoDup deps -> NoDup (fold_left (fun d l => findImportSource E root self st l d) lits deps).
Proof.
  revert deps. induction lits as [|l lits IH]; intros deps Hnd; [done|]. simpl. apply IH.
  destruct (findImportSource_cases l deps) as [[_ ->]|[_ ->]]; [by apply NoDup_setAdd|done].
Qed.

End Find.

(** The dependency set of a module is exactly the set of its import
    literals that name the CDN, another package and a version directory
    that is not on disk; it holds each of them once. *)
Theorem findDependencies_characterised (E : Externals) (root path : jsstring) (st : State)
    (body : Program) :
  let self := name (parseNpmSpecifier (resolveNpmSpecifier path)) in
  (forall value,
     value ∈ findDependencies E root path st body
     <-> exists l, l ∈ rewritableLiterals body /\ lit_value l = value
                   /\ unresolvedImport E root self st value)
  /\ NoDup (findDependencies E root path st body).
Proof.
  intros self. unfold findDependencies. fold self. rewrite fold_findVisit. split.
  - intros value. rewrite fold_findImportSource_elem. split.
    + intros [Hin|?]; [by apply elem_of_nil in Hin|done].
    + by right.
  - apply fold_findImportSource_NoDup. constructor.
Qed.

Lemma findDependencies_nil E root path st body :
  (forall l, l ∈ rewritableLiterals body ->
     ~ unresolvedImport E root (name (parseNpmSpecifier (resolveNpmSpecifier path))) st
         (lit_value l)) ->
  findDependencies E root path st body = [].
Proof.
  intros Hnone. destruct (findDependencies E root path st body) as [|v deps] eqn:Hd; [done|].
  exfalso.
  assert (v ∈ findDependencies E root path st body) as Hin by (rewrite Hd; by left).
  unfold findDependencies in Hin. rewrite fold_findVisit, fold_findImportSource_elem in Hin.
  destruct Hin as [Hin|(l & Hl & <- & Hu)]; [by apply elem_of_nil in Hin|].
  by apply (Hnone l).
Qed.

(** A module all of whose CDN imports are self-references or already on
    disk is given its resolver without any effect: no manifest is loaded,
    nothing is fetched, and every CDN specifier is only swapped to the cache
    prefix. *)
Theorem getDependencyResolver_nothing_to_resolve (E : Externals) (root path input : jsstring)
    (st : State) (body : Program) :
  ext_parseProgram E input = Ok body ->
  (forall l, l ∈ rewritableLiterals body ->
     ~ unresolvedImport E root (name (parseNpmSpecifier (resolveNpmSpecifier path))) st
         (lit_value l)) ->
  getDependencyResolver E root path input st = (Ok (dependencyResolver E path ∅), st).
Proof.
  intros Hparse Hnone. unfold getDependencyResolver. rewrite Hparse.
  unfold bind, getResolutions. by rewrite (findDependencies_nil _ _ _ _ _ Hnone).
Qed.

Lemma getDependencyResolver_nothing_to_resolve_witness :
  ext_parseProgram Scenario.externals Scenario.relativeSource = Ok Scenario.relativeBody
  /\ (forall l, l ∈ rewritableLiterals Scenario.relativeBody ->
        ~ unresolvedImport Scenario.externals Sample.root
            (name (parseNpmSpecifier (resolveNpmSpecifier Sample.arqueroPath))) Sample.start
            (lit_value l))
  /\ getDependencyResolver Scenario.externals Sample.root Sample.arqueroPath
       Scenario.relativeSource Sample.start
     = (Ok (dependencyResolver Scenario.externals Sample.arqueroPath ∅), Sample.start).
Proof.
  assert (ext_parseProgram Scenario.externals Scenario.relativeSource
          = Ok Scenario.relativeBody) as H1 by reflexivity.
  assert (forall l, l ∈ rewritableLiterals Scenario.relativeBody ->
            ~ unresolvedImport Scenario.externals Sample.root
                (name (parseNpmSpecifier (resolveNpmSpecifier Sample.arqueroPath)))
                Sample.start (lit_value l)) as H2.
  { intros l Hl. apply list_elem_of_singleton in Hl. subst l. intros [Hcdn _].
    vm_compute in Hcdn. discriminate Hcdn. }
  split; [exact H1|]. split; [exact H2|].
  exact (getDependencyResolver_nothing_to_resolve Scenario.externals Sample.root
           Sample.arqueroPath Scenario.relativeSource Sample.start Scenario.relativeBody H1 H2).
Defined.

Lemma resolveDependencies_domain E root self pkg deps res0 st res st' :
  resolveDependencies E root self pkg deps res0 st = (Ok res, st') ->
  forall key,
    is_Some (res !! key)
    <-> is_Some (res0 !! key)
        \/ (key ∈ deps /\ is_Some (rangeOfDependency self pkg key)).
Proof.
  revert res0 st. induction deps as [|d deps IH]; intros res0 st; cbn [resolveDependencies].
  - intros [= <- _] key. split; [by left|]. intros [?|[Hin _]]; [done|].
    by apply elem_of_nil in Hin.
  - destruct (dependencyRange self _ pkg) as [rng|] eqn:Hr.
    + unfold bind. destruct (resolveNpmImport E root _ st) as [[resolved|e] st1]; [|done].
      intros Hrun key. rewrite (IH _ _ Hrun key). rewrite lookup_insert.
      case_decide as Hk.
      * subst d. split; [|intros _; left; eauto].
        intros _. right. split; [by left|]. unfold rangeOfDependency. rewrite Hr. eauto.
      * split.
        -- intros [?|[Hin Hs]]; [by left|]. right. split; [by right|done].
        -- intros [?|[[->|Hin]%elem_of_cons Hs]]; [by left|done|]. right. done.
    + intros Hrun key. rewrite (IH _ _ Hrun key). split.
      * intros [?|[Hin Hs]]; [by left|]. right. split; [by right|done].
      * intros [?|[[->|Hin]%elem_of_cons Hs]]; [by left| |by right].
        unfold rangeOfDependency in Hs. rewrite Hr in Hs. by destruct Hs.
Qed.



(** A specifier whose range, given or pinned by default, is an exact
    version is resolved on the spot: the cache path is spelled out from the
    specifier and the state is left untouched. *)
Theorem resolveNpmImport_exact_range (E : Externals) (root specifier version : jsstring)
    (st : State) :
  rangeOrDefault (parseNpmSpecifier specifier) = Some version ->
  isExactVersion version = true ->
  resolveNpmImport E root specifier st
  = (Ok (str "/_npm/" ++ name (parseNpmSpecifier specifier) ++ at_sign :: version ++ slash
         :: replaceSuffix (str "+esm") (str "+esm.js")
              (pathOrDefault (parseNpmSpecifier specifier))), st).
Proof.
  intros Hr Hex. unfold resolveNpmImport, bind, ret, resolveNpmVersion. cbv zeta.
  unfold rangeOrDefault in Hr. rewrite Hr.
  rewrite (resolveNpmVersion_call_exact E root
             (mkSpecifier (name (parseNpmSpecifier specifier)) (Some version) None)
             version st eq_refl Hex).
  reflexivity.
Qed.

Lemma resolveNpmImport_exact_range_witness :
  rangeOrDefault (parseNpmSpecifier (str "@duckdb/duckdb-wasm")) = Some (str "1.28.0")
  /\ isExactVersion (str "1.28.0") = true
  /\ resolveNpmImport Sample.externals Sample.root (str "@duckdb/duckdb-wasm") Sample.start
     = (Ok (str "/_npm/@duckdb/duckdb-wasm@1.28.0/+esm.js"), Sample.start).
Proof.
  assert (rangeOrDefault (parseNpmSpecifier (str "@duckdb/duckdb-wasm"))
          = Some (str "1.28.0")) as H1 by reflexivity.
  assert (isExactVersion (str "1.28.0") = true) as H2 by reflexivity.
  split; [exact H1|]. split; [exact H2|].
  exact (resolveNpmImport_exact_range Sample.externals Sample.root (str "@duckdb/duckdb-wasm")
           (str "1.28.0") Sample.start H1 H2).
Defined.

Section PopulateRun.

Variable E : Externals.

Lemma consistent_fresh st : consistent st -> settled st !! nextPromise st = None.
Proof.
  intros Hc. destruct (settled st !! nextPromise st) eqn:Hs; [|done].
  apply (settled_bound _ Hc) in Hs. lia.
Qed.

(** A first call for a path, run to its end. *)
Lemma populateNpmCache_run_new root path st :
  consistent st ->
  startsWith (str "/_npm/") path = true ->
  existsSync st (cacheFilePath E root path) = false ->
  npmRequests st !! path = None ->
  exists st1,
    populateNpmCache_call E root path st
    = (Awaits (mkPopulateRequest (nextPromise st) root path (cacheFilePath E root path)
                 (str "https://cdn.jsdelivr.net/npm/" ++ resolveNpmSpecifier path)), st1)
    /\ populateNpmCache E root path st
       = populateNpmCache_settle E
           (mkPopulateRequest (nextPromise st) root path (cacheFilePath E root path)
              (str "https://cdn.jsdelivr.net/npm/" ++ resolveNpmSpecifier path)) st1
    /\ log st1 = log st
                 ++ [Fetch (str "https://cdn.jsdelivr.net/npm/" ++ resolveNpmSpecifier path)]
    /\ disk st1 = disk st
    /\ npmRequests st1
       = <[path := mkPopulateRequest (nextPromise st) root path (cacheFilePath E root path)
                     (str "https://cdn.jsdelivr.net/npm/" ++ resolveNpmSpecifier path)]>
           (npmRequests st).
Proof.
  intros Hc Hv Hx Hn.
  destruct (populateNpmCache_call_new E root path st Hv Hx Hn)
    as (st1 & Hcall & Hlog & Hreg & _ & Hs & _ & Hd & _).
  exists st1. split; [exact Hcall|]. split; [|done].
  unfold populateNpmCache. rewrite Hcall. unfold awaitPopulate. simpl pr_id.
  by rewrite Hs, (consistent_fresh st Hc).
Qed.

End PopulateRun.





Section VersionRun.

Variable E : Externals.

(** A first lookup of an href, run to its end. *)
Lemma resolveNpmVersion_run_new root specifier st cache st1 :
  consistent st ->
  truthy (range specifier) && isExactVersion (template (range specifier)) = false ->
  getVersionCache E root st = (Ok cache, st1) ->
  scanVersions E (indexGet cache (name specifier)) (range specifier) = None ->
  npmVersionRequests st1 !! resolvedHref (name specifier) (range specifier) = None ->
  let promise := mkVersionRequest (nextPromise st1) root specifier
                   (resolvedHref (name specifier) (range specifier))
                   (indexGet cache (name specifier)) in
  exists st2,
    resolveNpmVersion_call E root specifier st = (Awaits promise, st2)
    /\ resolveNpmVersion E root specifier st = awaitVersion E promise st2
    /\ settled st2 !! nextPromise st1 = None
    /\ log st2 = log st1 ++ [Fetch (resolvedHref (name specifier) (range specifier))]
    /\ npmVersionRequests st2
       = <[resolvedHref (name specifier) (range specifier) := promise]> (npmVersionRequests st1)
    /\ npmVersionCache st2 = Some (Ok cache)
    /\ disk st2 = disk st.
Proof.
  intros Hc Hne Hg Hs Hn promise.
  pose proof (resolveNpmVersion_call_remote E root specifier st cache st1 Hne Hg Hs) as Hcall.
  simpl in Hcall. rewrite Hn in Hcall.
  destruct Hcall as (st2 & Hcall & Hlog & Hreg & Hcache & Hdisk).
  pose proof (resolveNpmVersion_call_effect E root specifier st) as Heff.
  rewrite Hcall in Heff. destruct Heff as (_ & Hset & _).
  pose proof (getVersionCache_bookkeeping E root st) as (_ & _ & _ & Hnext & Hd1).
  pose proof (getVersionCache_after E root st) as Hafter.
  rewrite Hg in Hnext, Hd1, Hafter. simpl in Hnext, Hd1, Hafter.
  exists st2. split; [exact Hcall|]. split.
  { unfold resolveNpmVersion. by rewrite Hcall. }
  split; [rewrite Hset, Hnext; by apply consistent_fresh|].
  split; [done|]. split; [done|]. split; [by rewrite Hcache|]. by rewrite Hdisk.
Qed.

End VersionRun.

(** A lookup that the registry refuses, or answers without a version, is
    rejected with the href or with the specifier; the index is as the call
    found it and the registry entry is gone. *)
Theorem resolveNpmVersion_failure (E : Externals) (root : jsstring) (specifier : NpmSpecifier)
    (st st1 : State) (cache : VersionIndex) :
  let href := resolvedHref (name specifier) (range specifier) in
  consistent st ->
  truthy (range specifier) && isExactVersion (template (range specifier)) = false ->
  getVersionCache E root st = (Ok cache, st1) ->
  scanVersions E (indexGet cache (name specifier)) (range specifier) = None ->
  npmVersionRequests st1 !! href = None ->
  resp_ok (ext_fetch E href) = false
  \/ truthy (resp_version (ext_fetch E href)) = false ->
  fst (resolveNpmVersion E root specifier st)
  = Throw (ErrorMsg
             (if resp_ok (ext_fetch E href)
              then str "unable to resolve version: "
                   ++ formatNpmSpecifier (mkSpecifier (name specifier) (range specifier) None)
              else str "unable to fetch: " ++ href))
  /\ npmVersionCache (snd (resolveNpmVersion E root specifier st)) = Some (Ok cache)
  /\ npmVersionRequests (snd (resolveNpmVersion E root specifier st)) = npmVersionRequests st1
  /\ disk (snd (resolveNpmVersion E root specifier st)) = disk st.
Proof.
  intros href Hc Hne Hg Hs Hn Hbad.
  destruct (resolveNpmVersion_run_new E root specifier st cache st1 Hc Hne Hg Hs Hn)
    as (st2 & _ & Hrun & Hfresh & Hlog & Hreg & Hcache & Hdisk).
  fold href in Hrun, Hreg. rewrite Hrun. unfold awaitVersion. simpl vr_id. rewrite Hfresh.
  unfold resolveNpmVersion_settle. simpl vr_href. simpl vr_specifier.
  destruct (resp_ok (ext_fetch E href)) eqn:Hok; simpl.
  - destruct Hbad as [?|Hv]; [done|]. rewrite Hv. simpl.
    rewrite Hreg, delete_insert_id by done. done.
  - rewrite Hreg, delete_insert_id by done. done.
Qed.

Lemma resolveNpmVersion_failure_witness :
  consistent Sample.start
  /\ truthy (range Scenario.d3Major) && isExactVersion (template (range Scenario.d3Major)) = false
  /\ getVersionCache Scenario.offline Sample.root Sample.start
     = (Ok [], snd (getVersionCache Scenario.offline Sample.root Sample.start))
  /\ scanVersions Scenario.offline (indexGet [] (name Scenario.d3Major)) (range Scenario.d3Major)
     = None
  /\ npmVersionRequests (snd (getVersionCache Scenario.offline Sample.root Sample.start))
     !! resolvedHref (name Scenario.d3Major) (range Scenario.d3Major) = None
  /\ resp_ok (ext_fetch Scenario.offline
                (resolvedHref (name Scenario.d3Major) (range Scenario.d3Major))) = false
  /\ fst (resolveNpmVersion Scenario.offline Sample.root Scenario.d3Major Sample.start)
     = Throw (ErrorMsg (str "unable to fetch: https://data.jsdelivr.com/v1/packages/npm/d3/resolved?specifier=7")).
Proof.
  assert (truthy (range Scenario.d3Major) && isExactVersion (template (range Scenario.d3Major))
          = false) as H1 by reflexivity.
  assert (getVersionCache Scenario.offline Sample.root Sample.start
          = (Ok [], snd (getVersionCache Scenario.offline Sample.root Sample.start))) as H2
    by reflexivity.
  assert (scanVersions Scenario.offline (indexGet [] (name Scenario.d3Major))
            (range Scenario.d3Major) = None) as H3 by reflexivity.
  assert (npmVersionRequests (snd (getVersionCache Scenario.offline Sample.root Sample.start))
          !! resolvedHref (name Scenario.d3Major) (range Scenario.d3Major) = None) as H4
    by reflexivity.
  assert (resp_ok (ext_fetch Scenario.offline
                     (resolvedHref (name Scenario.d3Major) (range Scenario.d3Major)))
          = false) as H5 by reflexivity.
  split; [exact sample_start_consistent|]. split; [exact H1|]. split; [exact H2|].
  split; [exact H3|]. split; [exact H4|]. split; [exact H5|].
  exact (proj1 (resolveNpmVersion_failure Scenario.offline Sample.root Scenario.d3Major
                  Sample.start _ [] sample_start_consistent H1 H2 H3 H4 (or_introl H5))).
Defined.

(** A lookup that succeeds returns the version of the registry, stores for
    the name the list the call found with the new version added, creates
    the directory of the version and drops its registry entry; from then on
    a resolution of the name without a range is served from the index. *)
Theorem resolveNpmVersion_success (E : Externals) (root : jsstring) (specifier : NpmSpecifier)
    (st st1 : State) (cache : VersionIndex) (version : jsstring)
    (sorted : list (option jsstring)) :
  let href := resolvedHref (name specifier) (range specifier) in
  consistent st ->
  truthy (range specifier) && isExactVersion (template (range specifier)) = false ->
  getVersionCache E root st = (Ok cache, st1) ->
  scanVersions E (indexGet cache (name specifier)) (range specifier) = None ->
  npmVersionRequests st1 !! href = None ->
  resp_ok (ext_fetch E href) = true ->
  resp_version (ext_fetch E href) = Some version -> version <> [] ->
  extendedVersions E (indexGet cache (name specifier)) version = Ok sorted ->
  let st' := snd (resolveNpmVersion E root specifier st) in
  fst (resolveNpmVersion E root specifier st) = Ok (Some version)
  /\ npmVersionCache st' = Some (Ok (indexSet cache (name specifier) sorted))
  /\ log st' = log st1 ++ [Fetch href; Mkdir (versionDirectory E root (name specifier) version)]
  /\ npmVersionRequests st' = npmVersionRequests st1
  /\ forall root' first p,
       head sorted = Some first ->
       resolveNpmVersion E root' (mkSpecifier (name specifier) None p) st' = (Ok first, st').
Proof.
  intros href Hc Hne Hg Hs Hn Hok Hversion Hnonempty Hsorted st'.
  destruct (resolveNpmVersion_run_new E root specifier st cache st1 Hc Hne Hg Hs Hn)
    as (st2 & _ & Hrun & Hfresh & Hlog & Hreg & Hcache & Hdisk).
  fold href in Hrun, Hreg, Hlog. subst st'. rewrite Hrun.
  unfold awaitVersion. simpl vr_id. rewrite Hfresh.
  unfold resolveNpmVersion_settle. simpl vr_href. simpl vr_specifier. simpl vr_versions.
  simpl vr_root. rewrite Hok, Hversion.
  assert (truthy (Some version) = true) as -> by (by destruct version).
  simpl negb. cbv iota. simpl template.
  unfold extendedVersions in Hsorted. rewrite Hsorted.
  unfold cacheSet. rewrite Hcache. simpl.
  rewrite Hreg, delete_insert_id by done. rewrite Hlog.
  split; [done|]. split; [done|]. split; [by rewrite <- !app_assoc|]. split; [done|].
  intros root' first p Hhead.
  unfold resolveNpmVersion, resolveNpmVersion_call, getVersionCache. simpl.
  rewrite indexGet_indexSet, eqs_refl. unfold scanVersions.
  destruct sorted as [|v0 rest]; [done|]. simpl in Hhead. injection Hhead as ->. done.
Qed.

Lemma resolveNpmVersion_success_witness :
  consistent Sample.start
  /\ truthy (range Scenario.d3Major) && isExactVersion (template (range Scenario.d3Major)) = false
  /\ getVersionCache Sample.freshExternals Sample.root Sample.start
     = (Ok [], snd (getVersionCache Sample.freshExternals Sample.root Sample.start))
  /\ scanVersions Sample.freshExternals (indexGet [] (name Scenario.d3Major))
       (range Scenario.d3Major) = None
  /\ npmVersionRequests (snd (getVersionCache Sample.freshExternals Sample.root Sample.start))
     !! resolvedHref (name Scenario.d3Major) (range Scenario.d3Major) = None
  /\ resp_ok (ext_fetch Sample.freshExternals
                (resolvedHref (name Scenario.d3Major) (range Scenario.d3Major))) = true
  /\ resp_version (ext_fetch Sample.freshExternals
                     (resolvedHref (name Scenario.d3Major) (range Scenario.d3Major)))
     = Some (str "13.0.0")
  /\ str "13.0.0" <> []
  /\ extendedVersions Sample.freshExternals (indexGet [] (name Scenario.d3Major)) (str "13.0.0")
     = Ok [Some (str "13.0.0")]
  /\ fst (resolveNpmVersion Sample.freshExternals Sample.root Scenario.d3Major Sample.start)
     = Ok (Some (str "13.0.0")).
Proof.
  assert (truthy (range Scenario.d3Major) && isExactVersion (template (range Scenario.d3Major))
          = false) as H1 by reflexivity.
  assert (getVersionCache Sample.freshExternals Sample.root Sample.start
          = (Ok [], snd (getVersionCache Sample.freshExternals Sample.root Sample.start))) as H2
    by reflexivity.
  assert (scanVersions Sample.freshExternals (indexGet [] (name Scenario.d3Major))
            (range Scenario.d3Major) = None) as H3 by reflexivity.
  assert (npmVersionRequests (snd (getVersionCache Sample.freshExternals Sample.root Sample.start))
          !! resolvedHref (name Scenario.d3Major) (range Scenario.d3Major) = None) as H4
    by reflexivity.
  assert (resp_ok (ext_fetch Sample.freshExternals
                     (resolvedHref (name Scenario.d3Major) (range Scenario.d3Major)))
          = true) as H5 by reflexivity.
  assert (resp_version (ext_fetch Sample.freshExternals
                          (resolvedHref (name Scenario.d3Major) (range Scenario.d3Major)))
          = Some (str "13.0.0")) as H6 by reflexivity.
  assert (str "13.0.0" <> []) as H7 by (vm_compute; discriminate).
  assert (extendedVersions Sample.freshExternals (indexGet [] (name Scenario.d3Major))
            (str "13.0.0") = Ok [Some (str "13.0.0")]) as H8 by reflexivity.
  split; [exact sample_start_consistent|]. split; [exact H1|]. split; [exact H2|].
  split; [exact H3|]. split; [exact H4|]. split; [exact H5|]. split; [exact H6|].
  split; [exact H7|]. split; [exact H8|].
  exact (proj1 (resolveNpmVersion_success Sample.freshExternals Sample.root Scenario.d3Major
                  Sample.start _ [] (str "13.0.0") [Some (str "13.0.0")]
                  sample_start_consistent H1 H2 H3 H4 H5 H6 H7 H8)).
Defined.

Section VersionIndexLife.

Variable E : Externals.

Lemma resolveNpmVersion_call_sets_index root specifier st :
  truthy (range specifier) && isExactVersion (template (range specifier)) = false ->
  npmVersionCache (snd (resolveNpmVersion_call E root specifier st)) <> None.
Proof.
  intros Hne. unfold resolveNpmVersion_call. rewrite Hne.
  pose proof (getVersionCache_after E root st) as Hafter.
  destruct (getVersionCache E root st) as [[cache|e] st1]; simpl in *; [|by rewrite Hafter].
  destruct (scanVersions _ _ _); simpl; [by rewrite Hafter|].
  destruct (npmVersionRequests st1 !! _); simpl; by rewrite Hafter.
Qed.

Lemma filter_isReaddir_app l evs :
  Forall (fun e => isReaddir e = false) evs ->
  List.filter isReaddir (l ++ evs) = List.filter isReaddir l.
Proof.
  intros H. rewrite List.filter_app.
  assert (List.filter isReaddir evs = []) as ->; [|by rewrite app_nil_r].
  induction H as [|e evs He _ IH]; [done|]. simpl. by rewrite He.
Qed.

Lemma cacheSet_effect key value st :
  log (cacheSet key value st) = log st
  /\ (forall r, npmVersionCache st = Some r ->
        exists r', npmVersionCache (cacheSet key value st) = Some r'
                   /\ (forall e, r = Throw e -> r' = Throw e)).
Proof.
  unfold cacheSet. destruct (npmVersionCache st) as [[cache|e]|] eqn:H; simpl.
  - split; [done|]. intros r [= <-]. eexists. split; [done|]. done.
  - split; [done|]. intros r [= <-]. eexists. split; [exact H|]. done.
  - split; [done|]. done.
Qed.

(** Once the index is set, no action replaces a failure, unsets it, or
    lists a directory. *)
Lemma perform_keeps_index a st r :
  npmVersionCache st = Some r ->
  readdirs (perform E a st) = readdirs st
  /\ exists r', npmVersionCache (perform E a st) = Some r'
                /\ (forall e, r = Throw e -> r' = Throw e).
Proof.
  intros Hset. destruct a as [root path|promise|root specifier|promise]; simpl.
  - unfold populateNpmCache_call.
    destruct (startsWith (str "/_npm/") path); simpl; [|split; [done|by exists r]].
    destruct (existsSync st _); simpl; [split; [done|by exists r]|].
    destruct (npmRequests st !! path); simpl; [split; [done|by exists r]|].
    split; [|by exists r]. unfold readdirs. simpl. by apply filter_isReaddir_app; repeat constructor.
  - unfold populateNpmCache_settle.
    destruct (resp_ok _); simpl; [|split; [done|by exists r]].
    destruct (ext_persist E _ _) eqn:Hp; simpl.
    + split; [|by exists r]. unfold readdirs. simpl.
      rewrite <- app_assoc. by apply filter_isReaddir_app; repeat constructor.
    + split; [|by exists r]. unfold readdirs. simpl.
      by apply filter_isReaddir_app; repeat constructor.
  - unfold resolveNpmVersion_call.
    destruct (truthy _ && isExactVersion _); simpl; [split; [done|by exists r]|].
    unfold getVersionCache. rewrite Hset.
    destruct r as [cache|e]; simpl; [|split; [done|by eexists]].
    destruct (scanVersions _ _ _); simpl; [split; [done|by eexists]|].
    destruct (npmVersionRequests st !! _); simpl; [split; [done|by eexists]|].
    split; [|by eexists]. unfold readdirs. simpl. by apply filter_isReaddir_app; repeat constructor.
  - unfold resolveNpmVersion_settle.
    destruct (resp_ok _); simpl; [|split; [done|by exists r]].
    destruct (truthy (resp_version _)); simpl; [|split; [done|by exists r]].
    destruct (match vr_versions promise with Some _ => _ | None => _ end) as [sorted|e];
      simpl; [|split; [done|by exists r]].
    destruct (cacheSet_effect (name (vr_specifier promise)) sorted st) as [Hlog Hcache].
    split; [|by apply Hcache].
    unfold readdirs. simpl. rewrite Hlog. by apply filter_isReaddir_app; repeat constructor.
Qed.

Lemma performAll_keeps_index actions st r :
  npmVersionCache st = Some r ->
  readdirs (performAll E actions st) = readdirs st
  /\ exists r', npmVersionCache (performAll E actions st) = Some r'
                /\ (forall e, r = Throw e -> r' = Throw e).
Proof.
  revert st r. induction actions as [|a rest IH]; intros st r Hset; simpl.
  - split; [done|]. by exists r.
  - destruct (perform_keeps_index a st r Hset) as (Hrd & r1 & Hset1 & Hthrow1).
    destruct (IH _ r1 Hset1) as (Hrd' & r2 & Hset2 & Hthrow2).
    split; [by rewrite Hrd'|]. exists r2. split; [done|].
    intros e He. apply Hthrow2. by apply Hthrow1.
Qed.

End VersionIndexLife.

(** The index is built by the first resolution of a range that is not an
    exact version, from the root of that call, and never again: whatever
    the process does afterwards, with whatever roots, no directory is
    listed any more. *)
Theorem version_index_built_once (E : Externals) (root : jsstring) (specifier : NpmSpecifier)
    (st : State) (actions : list Action) :
  truthy (range specifier) && isExactVersion (template (range specifier)) = false ->
  let st1 := snd (resolveNpmVersion_call E root specifier st) in
  npmVersionCache st1 <> None
  /\ npmVersionCache (performAll E actions st1) <> None
  /\ readdirs (performAll E actions st1) = readdirs st1.
Proof.
  intros Hne st1.
  pose proof (resolveNpmVersion_call_sets_index E root specifier st Hne) as Hset.
  fold st1 in Hset. split; [done|].
  destruct (npmVersionCache st1) as [r|] eqn:Hr; [|done].
  destruct (performAll_keeps_index E actions st1 r Hr) as (Hrd & r' & Hset' & _).
  split; [by rewrite Hset'|done].
Qed.

Lemma version_index_built_once_witness :
  truthy (range Scenario.d3Major) && isExactVersion (template (range Scenario.d3Major)) = false
  /\ readdirs (performAll Sample.externals
                 [CallPopulate Sample.root Sample.d3Path; CallVersion (str "/elsewhere") Scenario.d3Major]
                 (snd (resolveNpmVersion_call Sample.externals Sample.root Scenario.d3Major
                         Sample.start)))
     = readdirs (snd (resolveNpmVersion_call Sample.externals Sample.root Scenario.d3Major
                        Sample.start)).
Proof.
  assert (truthy (range Scenario.d3Major) && isExactVersion (template (range Scenario.d3Major))
          = false) as H by reflexivity.
  split; [exact H|].
  exact (proj2 (proj2 (version_index_built_once Sample.externals Sample.root Scenario.d3Major
                         Sample.start
                         [CallPopulate Sample.root Sample.d3Path;
                          CallVersion (str "/elsewhere") Scenario.d3Major] H))).
Defined.

(** A failure to build the index is kept: every later resolution of a
    range that is not an exact version, for any root and any package, is
    rejected with the same error and changes nothing, whatever happened in
    between. *)
Theorem version_index_failure_is_kept (E : Externals) (st : State) (e : Error)
    (actions : list Action) (root : jsstring) (specifier : NpmSpecifier) :
  npmVersionCache st = Some (Throw e) ->
  truthy (range specifier) && isExactVersion (template (range specifier)) = false ->
  let st' := performAll E actions st in
  resolveNpmVersion E root specifier st' = (Throw e, st').
Proof.
  intros Hfail Hne st'.
  destruct (performAll_keeps_index E actions st _ Hfail) as (_ & r' & Hset & Hthrow).
  fold st' in Hset. rewrite (Hthrow e eq_refl) in Hset.
  unfold resolveNpmVersion, resolveNpmVersion_call, getVersionCache.
  rewrite Hne, Hset. done.
Qed.

Lemma version_index_failure_is_kept_witness :
  npmVersionCache Scenario.broken = Some (Throw (SystemError (str "EACCES")))
  /\ truthy (range Scenario.d3Major) && isExactVersion (template (range Scenario.d3Major)) = false
  /\ fst (resolveNpmVersion Sample.externals Sample.root Scenario.d3Major
            (performAll Sample.externals [CallPopulate Sample.root Sample.d3Path] Scenario.broken))
     = Throw (SystemError (str "EACCES")).
Proof.
  assert (npmVersionCache Scenario.broken = Some (Throw (SystemError (str "EACCES")))) as H1
    by reflexivity.
  assert (truthy (range Scenario.d3Major) && isExactVersion (template (range Scenario.d3Major))
          = false) as H2 by reflexivity.
  split; [exact H1|]. split; [exact H2|].
  exact (f_equal fst (version_index_failure_is_kept Sample.externals Scenario.broken
                        (SystemError (str "EACCES")) [CallPopulate Sample.root Sample.d3Path]
                        Sample.root Scenario.d3Major H1 H2)).
Defined.



Section IndexContent.

Variable E : Externals.

Lemma indexGet_None cache key : key ∉ map fst cache -> indexGet cache key = None.
Proof.
  intros Hnot. destruct (indexGet cache key) eqn:H; [|done].
  by apply indexGet_key in H.
Qed.

Lemma indexSet_keys cache key value k :
  k ∈ map fst (indexSet cache key value) <-> k = key \/ k ∈ map fst cache.
Proof.
  induction cache as [|[k0 v0] cache IH]; simpl.
  - rewrite elem_of_cons. split; [intros [?|H]; [by left|by apply elem_of_nil in H]|].
    intros [?|H]; [by left|by apply elem_of_nil in H].
  - destruct (eqs k0 key) eqn:Hk; simpl.
    + apply eqs_true in Hk as ->. rewrite !elem_of_cons. tauto.
    + rewrite !elem_of_cons, IH. tauto.
Qed.

Lemma indexSet_NoDup cache key value :
  NoDup (map fst cache) -> NoDup (map fst (indexSet cache key value)).
Proof.
  induction cache as [|[k0 v0] cache IH]; simpl; intros Hnd.
  - apply NoDup_singleton.
  - apply NoDup_cons in Hnd as [Hnot Hnd].
    destruct (eqs k0 key) eqn:Hk; simpl.
    + by apply NoDup_cons.
    + apply NoDup_cons. split; [|by apply IH].
      rewrite indexSet_keys. intros [->|?]; [|done]. by rewrite eqs_refl in Hk.
Qed.

Lemma recordVersion_NoDup cache spec :
  NoDup (map fst cache) -> NoDup (map fst (recordVersion cache spec)).
Proof. unfold recordVersion. destruct (indexGet cache (name spec)); apply indexSet_NoDup. Qed.

Lemma fold_recordVersion_NoDup specs cache :
  NoDup (map fst cache) -> NoDup (map fst (fold_left recordVersion specs cache)).
Proof.
  revert cache. induction specs as [|spec specs IH]; intros cache Hnd; simpl; [done|].
  by apply IH, recordVersion_NoDup.
Qed.

(** What a list of recorded specifiers adds to an index. *)
Lemma fold_recordVersion_get specs cache key :
  indexGet (fold_left recordVersion specs cache) key
  = match versionsOf key specs with
    | [] => indexGet cache key
    | v :: added => Some (default [] (indexGet cache key) ++ v :: added)
    end.
Proof.
  revert cache. induction specs as [|spec specs IH]; intros cache; [done|].
  cbn [fold_left]. rewrite IH. unfold versionsOf, recordVersion. cbn [List.filter].
  destruct (eqs (name spec) key) eqn:Hk.
  - apply eqs_true in Hk. subst key. cbn [map].
    destruct (indexGet cache (name spec)) as [seen|] eqn:Hseen;
      rewrite indexGet_indexSet, eqs_refl; simpl;
      destruct (map range _); simpl; try done; by rewrite <- app_assoc.
  - destruct (indexGet cache (name spec)); by rewrite indexGet_indexSet, Hk.
Qed.

Lemma scanEntries_records cacheDir entries cache evs :
  (scanEntries E cacheDir entries cache evs).1.2
  = fold_left recordVersion (scannedSpecifiers E cacheDir entries) cache.
Proof.
  revert cache evs. induction entries as [|entry entries IH]; intros cache evs; simpl; [done|].
  destruct (startsWith (str "@") entry).
  - destruct (ext_readdir E (ext_join E [cacheDir; entry])) as [subs|e]; [|done].
    rewrite IH, fold_left_app. f_equal. clear. revert cache.
    induction subs as [|sub subs IH]; intros cache; simpl; [done|]. by rewrite IH.
  - by rewrite IH.
Qed.

(** Sorting replaces the list of every key, and only it. *)
Lemma sortIndex_get todo acc cache key :
  NoDup (map fst todo) ->
  sortIndex E todo acc = Ok cache ->
  match indexGet todo key with
  | Some value => exists sorted, ext_rsort E value = Ok sorted /\ indexGet cache key = Some sorted
  | None => indexGet cache key = indexGet acc key
  end.
Proof.
  revert acc. induction todo as [|[k value] todo IH]; intros acc Hnd; simpl.
  - by intros [= <-].
  - apply NoDup_cons in Hnd as [Hnot Hnd].
    destruct (ext_rsort E value) as [sorted|e] eqn:Hsort; [|done].
    intros Hs. specialize (IH _ Hnd Hs).
    destruct (eqs k key) eqn:Hk.
    + apply eqs_true in Hk. subst key. rewrite indexGet_None in IH by done.
      exists sorted. split; [done|]. by rewrite IH, indexGet_indexSet, eqs_refl.
    + destruct (indexGet todo key); [done|]. by rewrite IH, indexGet_indexSet, Hk.
Qed.

End IndexContent.

(** The index that is built holds, for each package name, the sorted list
    of the versions of the directories of that name, and nothing for a name
    without a directory. *)
Theorem initializeNpmVersionCache_index (E : Externals) (root : jsstring)
    (cache : VersionIndex) (evs : list Event) (key : jsstring) :
  let cacheDir := ext_join E [root; str ".observablehq"; str "cache"; str "_npm"] in
  let specs := match ext_readdir E cacheDir with
               | Ok entries => scannedSpecifiers E cacheDir entries
               | Throw _ => []
               end in
  initializeNpmVersionCache E root = (Ok cache, evs) ->
  match versionsOf key specs with
  | [] => indexGet cache key = None
  | v :: found => exists sorted, ext_rsort E (v :: found) = Ok sorted
                                 /\ indexGet cache key = Some sorted
  end.
Proof.
  intros cacheDir specs. unfold initializeNpmVersionCache. fold cacheDir.
  set (scan := match ext_readdir E cacheDir with Ok _ => _ | Throw _ => _ end).
  assert (scan.1.2 = fold_left recordVersion specs []) as Hscan.
  { subst scan specs. destruct (ext_readdir E cacheDir) as [entries|e]; [|done].
    apply scanEntries_records. }
  destruct scan as [[failure c] evs']. simpl in Hscan.
  assert (sortIndex E c c = Ok cache ->
          match versionsOf key specs with
          | [] => indexGet cache key = None
          | v :: found => exists sorted, ext_rsort E (v :: found) = Ok sorted
                                         /\ indexGet cache key = Some sorted
          end) as Hsort.
  { intros Hs.
    assert (NoDup (map fst c)) as Hnd.
    { rewrite Hscan. apply fold_recordVersion_NoDup. constructor. }
    pose proof (sortIndex_get E c c cache key Hnd Hs) as Hget.
    rewrite Hscan, fold_recordVersion_get in Hget.
    by destruct (versionsOf key specs). }
  destruct failure as [e|].
  - destruct (isEnoent e); simpl; [|done]. intros [= Hs _]. by apply Hsort.
  - intros [= Hs _]. by apply Hsort.
Qed.

Lemma initializeNpmVersionCache_index_witness :
  initializeNpmVersionCache Sample.externals Sample.root
  = (Ok [(str "d3", [Some (str "7.8.5")]); (str "@observablehq/plot", [Some (str "0.6.11")])],
     snd (initializeNpmVersionCache Sample.externals Sample.root))
  /\ exists sorted,
       ext_rsort Sample.externals [Some (str "0.6.11")] = Ok sorted
       /\ indexGet [(str "d3", [Some (str "7.8.5")]);
                    (str "@observablehq/plot", [Some (str "0.6.11")])]
            (str "@observablehq/plot") = Some sorted.
Proof.
  assert (initializeNpmVersionCache Sample.externals Sample.root
          = (Ok [(str "d3", [Some (str "7.8.5")]);
                 (str "@observablehq/plot", [Some (str "0.6.11")])],
             snd (initializeNpmVersionCache Sample.externals Sample.root))) as H
    by (vm_compute; reflexivity).
  split; [exact H|].
  exact (initializeNpmVersionCache_index Sample.externals Sample.root _ _
           (str "@observablehq/plot") H).
Defined.

Section ImportsFacts.

Context {ImportReference : Type}.
Variable E : Externals.
Variable F : ImportExternals ImportReference.

Lemma resolveNpmImports_keeps root path (s : ImportsState ImportReference) key imports :
  npmImportsCache s !! key = Some imports ->
  npmImportsCache (snd (resolveNpmImports E F root path s)) !! key = Some imports.
Proof.
  intros Hkey. unfold resolveNpmImports.
  destruct (startsWith (str "/_npm/") path); simpl; [|done].
  destruct (npmImportsCache s !! path) eqn:Hpath; [done|].
  assert (path <> key) as Hne by (intros ->; congruence).
  destruct (readImports E F root path (npmState s)) as [[found|e] st]; simpl;
    by rewrite lookup_insert_ne.
Qed.

Lemma resolveAll_keeps calls (s : ImportsState ImportReference) key imports :
  npmImportsCache s !! key = Some imports ->
  npmImportsCache (resolveAll E F calls s) !! key = Some imports.
Proof.
  revert s. induction calls as [|[root path] calls IH]; intros s Hkey; simpl; [done|].
  by apply IH, resolveNpmImports_keeps.
Qed.

Lemma resolveNpmImports_memo root path (s : ImportsState ImportReference) :
  startsWith (str "/_npm/") path = true ->
  exists imports,
    fst (resolveNpmImports E F root path s) = Ok imports
    /\ npmImportsCache (snd (resolveNpmImports E F root path s)) !! path = Some imports.
Proof.
  intros Hv. unfold resolveNpmImports. rewrite Hv. simpl.
  destruct (npmImportsCache s !! path) as [imports|] eqn:Hpath; [by exists imports|].
  destruct (readImports E F root path (npmState s)) as [[found|e] st]; simpl;
    eexists; (split; [done|]); by rewrite lookup_insert_eq.
Qed.

End ImportsFacts.

(** A call with a cache path never rejects, and its answer is final: after
    any further calls, a call for the same path, with any root, gives the
    same imports and changes nothing, also when the answer was the empty
    list of a failed download, read or parse. *)
Theorem resolveNpmImports_answer_is_final {ImportReference : Type} (E : Externals)
    (F : ImportExternals ImportReference) (root path : jsstring)
    (s : ImportsState ImportReference) :
  startsWith (str "/_npm/") path = true ->
  exists imports,
    fst (resolveNpmImports E F root path s) = Ok imports
    /\ forall calls root',
         let later := resolveAll E F calls (snd (resolveNpmImports E F root path s)) in
         resolveNpmImports E F root' path later = (Ok imports, later).
Proof.
  intros Hv. destruct (resolveNpmImports_memo E F root path s Hv) as (imports & Hfst & Hmemo).
  exists imports. split; [done|]. intros calls root' later.
  pose proof (resolveAll_keeps E F calls _ path imports Hmemo) as Hlater. fold later in Hlater.
  unfold resolveNpmImports. by rewrite Hv, Hlater.
Qed.

Lemma resolveNpmImports_answer_is_final_witness :
  startsWith (str "/_npm/") Sample.d3Path = true
  /\ exists imports,
       fst (resolveNpmImports Sample.externals Scenario.files Sample.root Sample.d3Path
              Scenario.noImports) = Ok imports
       /\ forall calls root',
            let later :=
              resolveAll Sample.externals Scenario.files calls
                (snd (resolveNpmImports Sample.externals Scenario.files Sample.root Sample.d3Path
                        Scenario.noImports)) in
            resolveNpmImports Sample.externals Scenario.files root' Sample.d3Path later
            = (Ok imports, later).
Proof.
  assert (startsWith (str "/_npm/") Sample.d3Path = true) as H by reflexivity.
  split; [exact H|].
  exact (resolveNpmImports_answer_is_final Sample.externals Scenario.files Sample.root
           Sample.d3Path Scenario.noImports H).
Defined.

(** A download that fails is not tried again through this function: the
    caller gets no imports and one warning with the error of the fetch, the
    file is still missing, and every later call for the path gives no
    imports without a request. *)
Theorem resolveNpmImports_failed_download_is_final {ImportReference : Type} (E : Externals)
    (F : ImportExternals ImportReference) (root path : jsstring)
    (s : ImportsState ImportReference) :
  let href := str "https://cdn.jsdelivr.net/npm/" ++ resolveNpmSpecifier path in
  let filePath := cacheFilePath E root path in
  let s1 := snd (resolveNpmImports E F root path s) in
  consistent (npmState s) ->
  startsWith (str "/_npm/") path = true ->
  existsSync (npmState s) filePath = false ->
  npmRequests (npmState s) !! path = None ->
  npmImportsCache s !! path = None ->
  resp_ok (ext_fetch E href) = false ->
  fst (resolveNpmImports E F root path s) = Ok []
  /\ warnings s1 = warnings s ++ [(path, ErrorMsg (str "unable to fetch: " ++ href))]
  /\ log (npmState s1) = log (npmState s) ++ [Fetch href]
  /\ existsSync (npmState s1) filePath = false
  /\ forall calls root',
       let later := resolveAll E F calls s1 in
       resolveNpmImports E F root' path later = (Ok [], later).
Proof.
  intros href filePath s1 Hc Hv Hx Hn Hmiss Hok.
  destruct (populateNpmCache_run_new E root path (npmState s) Hc Hv Hx Hn)
    as (st1 & _ & Hrun & Hlog & Hdisk & Hreg).
  fold href filePath in Hrun, Hlog, Hreg.
  assert (resolveNpmImports E F root path s
          = (Ok [], mkImportsState
                      (snd (populateNpmCache E root path (npmState s)))
                      (<[path := []]> (npmImportsCache s))
                      (warnings s ++ [(path, ErrorMsg (str "unable to fetch: " ++ href))])))
    as Hcall.
  { unfold resolveNpmImports, readImports, bind. rewrite Hv, Hmiss. cbn [negb].
    rewrite Hrun. unfold populateNpmCache_settle. simpl pr_href. rewrite Hok. done. }
  subst s1. rewrite Hcall. cbn [fst snd npmState warnings].
  rewrite Hrun. unfold populateNpmCache_settle. simpl pr_href. rewrite Hok.
  cbn [negb fst snd]. split; [done|]. split; [done|]. split; [done|]. split.
  { unfold existsSync in *. simpl. by rewrite Hdisk. }
  intros calls root'. set (later := resolveAll E F calls _).
  assert (npmImportsCache later !! path = Some []) as Hlater.
  { apply resolveAll_keeps. simpl. by rewrite lookup_insert_eq. }
  unfold resolveNpmImports. by rewrite Hv, Hlater.
Qed.

Lemma resolveNpmImports_failed_download_is_final_witness :
  consistent (npmState Scenario.noImports)
  /\ startsWith (str "/_npm/") Sample.d3Path = true
  /\ existsSync (npmState Scenario.noImports)
       (cacheFilePath Scenario.offline Sample.root Sample.d3Path) = false
  /\ npmRequests (npmState Scenario.noImports) !! Sample.d3Path = None
  /\ npmImportsCache Scenario.noImports !! Sample.d3Path = None
  /\ resp_ok (ext_fetch Scenario.offline
                (str "https://cdn.jsdelivr.net/npm/" ++ resolveNpmSpecifier Sample.d3Path)) = false
  /\ fst (resolveNpmImports Scenario.offline Scenario.files Sample.root Sample.d3Path
            Scenario.noImports) = Ok [].
Proof.
  assert (startsWith (str "/_npm/") Sample.d3Path = true) as H1 by reflexivity.
  assert (existsSync (npmState Scenario.noImports)
            (cacheFilePath Scenario.offline Sample.root Sample.d3Path) = false) as H2
    by (vm_compute; reflexivity).
  assert (npmRequests (npmState Scenario.noImports) !! Sample.d3Path = None) as H3
    by reflexivity.
  assert (npmImportsCache Scenario.noImports !! Sample.d3Path = None) as H4 by reflexivity.
  assert (resp_ok (ext_fetch Scenario.offline
                     (str "https://cdn.jsdelivr.net/npm/" ++ resolveNpmSpecifier Sample.d3Path))
          = false) as H5 by reflexivity.
  split; [exact sample_start_consistent|]. split; [exact H1|]. split; [exact H2|].
  split; [exact H3|]. split; [exact H4|]. split; [exact H5|].
  exact (proj1 (resolveNpmImports_failed_download_is_final Scenario.offline Scenario.files
                  Sample.root Sample.d3Path Scenario.noImports
                  sample_start_consistent H1 H2 H3 H4 H5)).
Defined.

(** A path that does not end in [.js], [.mjs] or [.cjs], in any case of
    letters, is downloaded but not read: the call gives no imports and does
    to the download state what [populateNpmCache] does, whatever the file
    holds and whatever [findImports] would find in it. *)
Theorem resolveNpmImports_not_javascript {ImportReference : Type} (E : Externals)
    (F : ImportExternals ImportReference) (root path : jsstring)
    (s : ImportsState ImportReference) :
  startsWith (str "/_npm/") path = true ->
  npmImportsCache s !! path = None ->
  isJavaScriptPath path = false ->
  fst (resolveNpmImports E F root path s) = Ok []
  /\ npmState (snd (resolveNpmImports E F root path s))
     = snd (populateNpmCache E root path (npmState s))
  /\ forall F', resolveNpmImports E F' root path s = resolveNpmImports E F root path s.
Proof.
  intros Hv Hmiss Hjs. unfold resolveNpmImports, readImports, bind. rewrite Hv, Hmiss, Hjs.
  by destruct (populateNpmCache E root path (npmState s)) as [[filePath|e] st].
Qed.

Lemma resolveNpmImports_not_javascript_witness :
  startsWith (str "/_npm/") Scenario.stylesheet = true
  /\ npmImportsCache Scenario.noImports !! Scenario.stylesheet = None
  /\ isJavaScriptPath Scenario.stylesheet = false
  /\ fst (resolveNpmImports Sample.externals Scenario.files Sample.root Scenario.stylesheet
            Scenario.noImports) = Ok [].
Proof.
  assert (startsWith (str "/_npm/") Scenario.stylesheet = true) as H1 by reflexivity.
  assert (npmImportsCache Scenario.noImports !! Scenario.stylesheet = None) as H2
    by reflexivity.
  assert (isJavaScriptPath Scenario.stylesheet = false) as H3 by reflexivity.
  split; [exact H1|]. split; [exact H2|]. split; [exact H3|].
  exact (proj1 (resolveNpmImports_not_javascript Sample.externals Scenario.files Sample.root
                  Scenario.stylesheet Scenario.noImports H1 H2 H3)).
Defined.
